(** * Repository: entity graph collection, identity checks and relation
      mutation of [src/repository/Repository.ts]

    A shallow embedding of the [Repository] class.  JavaScript objects live
    on a heap of reference cells; promises are run by an explicit microtask
    queue; collaborators that are outside the file (query builder, driver,
    persist-operation builder and executor) are section variables. *)

From stdpp Require Import base option list gmap strings pretty.
From Stdlib Require Import ZArith Lia.

Set Default Proof Using "Type".
Open Scope string_scope.
Open Scope list_scope.

(** ** JavaScript values and the object heap *)

Module Js.

(** Heap addresses: [===] on objects compares these. *)
Abbreviation loc := nat.

Inductive prim :=
| PBool (b : bool)
| PNum (n : Z)
| PStr (s : string).

(** Every value but [null] and [undefined]: what a property access can be
    applied to without a [TypeError]. *)
Inductive defined :=
| DPrim (p : prim)
| DRef (l : loc).

Inductive value :=
| VUndefined
| VNull
| VDef (d : defined).

#[global] Instance prim_eq_dec : EqDecision prim.
Proof. solve_decision. Defined.
#[global] Instance defined_eq_dec : EqDecision defined.
Proof. solve_decision. Defined.
#[global] Instance value_eq_dec : EqDecision value.
Proof. solve_decision. Defined.

Definition VNum (n : Z) : value := VDef (DPrim (PNum n)).
Definition VStr (s : string) : value := VDef (DPrim (PStr s)).
Definition VBool (b : bool) : value := VDef (DPrim (PBool b)).
Definition VRef (l : loc) : value := VDef (DRef l).

(** [!!v] *)
Definition truthy (v : value) : bool :=
  match v with
  | VUndefined | VNull => false
  | VDef (DPrim (PBool b)) => b
  | VDef (DPrim (PNum n)) => negb (n =? 0)%Z
  | VDef (DPrim (PStr s)) => negb (bool_decide (s = ""))
  | VDef (DRef _) => true
  end.

(** [a === b]: primitives by value, objects by address. *)
Definition strict_eq (a b : value) : bool := bool_decide (a = b).

(** A heap cell.  [own] holds the object's own properties, [protos] the
    property tables of its prototype chain, nearest first (a prototype
    chain is finite and acyclic), and [elems] is [Some] exactly for an
    [Array], whose elements it lists.  Arrays of entities hold no [null]
    or [undefined] hole.  Only user-declared property names are modelled:
    the built-in members of [Object.prototype], [Array.prototype] and of
    the primitive wrappers are not. *)
Record obj := Obj {
  own : gmap string value;
  protos : list (gmap string value);
  elems : option (list defined);
}.

Definition empty_obj : obj := Obj ∅ [] None.

(** A plain object literal. *)
Definition literal (fields : list (string * value)) : obj :=
  Obj (list_to_map fields) [] None.

(** An array of entities. *)
Definition array (items : list defined) : obj := Obj ∅ [] (Some items).

Abbreviation heap := (gmap loc obj).

Definition deref (h : heap) (l : loc) : obj := default empty_obj (h !! l).

Fixpoint lookup_chain (chain : list (gmap string value)) (p : string) : value :=
  match chain with
  | [] => VUndefined
  | t :: rest =>
      match t !! p with
      | Some v => v
      | None => lookup_chain rest p
      end
  end.

(** [o[p]] on an object: own properties first, then the prototype chain. *)
Definition obj_get (o : obj) (p : string) : value :=
  lookup_chain (own o :: protos o) p.

(** [d[p]] for a receiver that is not [null] or [undefined]. *)
Definition get (h : heap) (d : defined) (p : string) : value :=
  match d with
  | DRef l => obj_get (deref h l) p
  | DPrim _ => VUndefined
  end.

(** [d.hasOwnProperty(p)] *)
Definition hasOwnProperty (h : heap) (d : defined) (p : string) : bool :=
  match d with
  | DRef l => bool_decide (is_Some (own (deref h l) !! p))
  | DPrim _ => false
  end.

(** [value instanceof Array], together with the elements when it holds. *)
Definition as_array (h : heap) (d : defined) : option (list defined) :=
  match d with
  | DRef l => elems (deref h l)
  | DPrim _ => None
  end.

(** [o[p] = v] on a heap object. *)
Definition set_prop (h : heap) (l : loc) (p : string) (v : value) : heap :=
  let o := deref h l in
  <[l := Obj (<[p := v]> (own o)) (protos o) (elems o)]> h.

End Js.
Import Js.

(** ** Metadata

    [EntityMetadata], [RelationMetadata] and [ColumnMetadata] are declared
    outside this file; the records below carry the members that
    [Repository] reads. *)

Record ColumnMetadata := {
  col_name : string;
  col_propertyName : string;
}.

Inductive RelationType := OneToOne | OneToMany | ManyToOne | ManyToMany.

#[global] Instance RelationType_eq_dec : EqDecision RelationType.
Proof. solve_decision. Defined.

(** [relation.junctionEntityMetadata]: its table name and columns. *)
Record JunctionMetadata := {
  junction_table : string;
  junction_columns : list ColumnMetadata;
}.

(** [relation.inverseRelation]: the members read through it. *)
Record InverseRelation := {
  inv_name : string;
  inv_joinReferencedColumn : option string;
}.

(** Entity metadata objects refer to each other and may do so cyclically
    (a relation and its inverse), so a relation names the metadata of the
    other side by its target and a registry resolves the name. *)
Record RelationMetadata := {
  rel_name : string;
  rel_propertyName : string;
  rel_relationType : RelationType;
  rel_isOwning : bool;
  rel_isLazy : bool;
  rel_entityTable : string;                       (* entityMetadata.table.name *)
  rel_inverseTarget : string;                     (* inverseEntityMetadata.target *)
  rel_inverseTable : string;                      (* inverseEntityMetadata.table.name *)
  rel_joinReferencedColumn : option string;       (* joinColumn.referencedColumn.name *)
  rel_inverseRelation : option InverseRelation;
  rel_junction : option JunctionMetadata;
}.

Record EntityMetadata := {
  md_name : string;
  md_target : string;
  md_table : string;
  md_primaryColumn : ColumnMetadata;
  md_relations : list RelationMetadata;
}.

Definition registry := string → EntityMetadata.

Definition inverseEntityMetadata (reg : registry) (r : RelationMetadata) : EntityMetadata :=
  reg (rel_inverseTarget r).

(** Modelled from the spec: [RelationMetadata.isManyToMany] is not in the
    source tree; the relation kind is one of the four of the data model. *)
Definition isManyToMany (r : RelationMetadata) : bool :=
  bool_decide (rel_relationType r = ManyToMany).

(** Modelled from the spec: the text of [relation.relationType], the kind
    as the data model words it. *)
Definition relationTypeName (t : RelationType) : string :=
  match t with
  | OneToOne => "one-to-one"
  | OneToMany => "one-to-many"
  | ManyToOne => "many-to-one"
  | ManyToMany => "many-to-many"
  end.

(** The [EntityWithId] triple of [persistment/operation/PersistOperation]. *)
Record EntityWithId := {
  ewi_id : value;
  ewi_entityTarget : string;
  ewi_entity : value;
}.

(** ** [hasId] *)

Definition hasId (h : heap) (metadata : EntityMetadata) (entity : value) : bool :=
  let columnName := col_propertyName (md_primaryColumn metadata) in
  truthy entity &&
  match entity with
  | VDef d =>
      hasOwnProperty h d columnName &&
      negb (strict_eq (get h d columnName) VNull) &&
      negb (strict_eq (get h d columnName) VUndefined) &&
      negb (strict_eq (get h d columnName) (VStr ""))
  | _ => false
  end.

(** ** Promises and the microtask queue

    [extractObjectsById] is not an [async] function: a call runs its body to
    the end, recursive calls included, and only hands the callback of its
    final [.then] to the promise machinery.  The machinery is modelled as
    the language defines it: a table of promises, each waiting for a number
    of inputs and holding the reactions subscribed to it, and a first-in
    first-out queue of reaction jobs. *)

Module Promise.

(** What is subscribed to a promise.  [RElem all] is the [resolveElement]
    function that [Promise.all] subscribes to each of its inputs;
    [RThen entity metadata derived] is the callback that
    [extractObjectsById] passes to [.then], whose return value resolves
    the promise [derived]. *)
Inductive reaction :=
| RElem (all : nat)
| RThen (entity : defined) (metadata : EntityMetadata) (derived : nat).

Definition target (r : reaction) : nat :=
  match r with
  | RElem a => a
  | RThen _ _ d => d
  end.

(** A promise is fulfilled when [remaining] is [0].  A promise made by
    [Promise.all] waits for each of its inputs (its
    [remainingElementsCount]); one made by [.then] waits for the one job
    that runs its callback. *)
Record cell := Cell {
  remaining : nat;
  reactions : list reaction;
}.

Record pstate := PState {
  cells : list cell;
  queue : list reaction;
  entityWithIds : list EntityWithId;   (* the array shared by all calls *)
}.

Definition init (entityWithIds : list EntityWithId) : pstate :=
  PState [] [] entityWithIds.

Definition new_promise (waits : nat) (st : pstate) : nat * pstate :=
  (length (cells st),
   PState (cells st ++ [Cell waits []]) (queue st) (entityWithIds st)).

(** [p.then(r)]: a reaction on a fulfilled promise is queued at once. *)
Definition subscribe (p : nat) (r : reaction) (st : pstate) : pstate :=
  match cells st !! p with
  | Some c =>
      match remaining c with
      | 0 => PState (cells st) (queue st ++ [r]) (entityWithIds st)
      | S _ =>
          PState (<[p := Cell (remaining c) (reactions c ++ [r])]> (cells st))
                 (queue st) (entityWithIds st)
      end
  | None => st
  end.

(** One input of promise [p] has arrived; with the last one [p] is
    fulfilled and its reactions become jobs. *)
Definition deliver (p : nat) (st : pstate) : pstate :=
  match cells st !! p with
  | Some c =>
      match remaining c with
      | 0 => st
      | 1 =>
          PState (<[p := Cell 0 []]> (cells st))
                 (queue st ++ reactions c) (entityWithIds st)
      | S k =>
          PState (<[p := Cell k (reactions c)]> (cells st))
                 (queue st) (entityWithIds st)
      end
  | None => st
  end.

(** [Promise.all(ps)]: fulfilled on the spot for an empty [ps]. *)
Definition all (ps : list nat) (st : pstate) : nat * pstate :=
  let (a, st1) := new_promise (length ps) st in
  (a, foldl (λ s p, subscribe p (RElem a) s) st1 ps).

(** [p.then(callback)] for the callback of [extractObjectsById]. *)
Definition then_record (p : nat) (entity : defined) (metadata : EntityMetadata)
    (st : pstate) : nat * pstate :=
  let (d, st1) := new_promise 1 st in
  (d, subscribe p (RThen entity metadata d) st1).

(** The callback of [extractObjectsById]:
    [if (!entityWithIds.find(e => e.entity === entity)) entityWithIds.push({...})] *)
Definition record_entity (h : heap) (entity : defined) (metadata : EntityMetadata)
    (entityWithIds : list EntityWithId) : list EntityWithId :=
  if existsb (λ entityWithId, strict_eq (ewi_entity entityWithId) (VDef entity)) entityWithIds
  then entityWithIds
  else entityWithIds ++
       [ {| ewi_id := get h entity (col_name (md_primaryColumn metadata));
            ewi_entityTarget := md_target metadata;
            ewi_entity := VDef entity |} ].

Definition run_job (h : heap) (r : reaction) (st : pstate) : pstate :=
  match r with
  | RElem a => deliver a st
  | RThen entity metadata d =>
      deliver d (PState (cells st) (queue st)
                        (record_entity h entity metadata (entityWithIds st)))
  end.

(** Jobs still to run at most: the queued ones and the subscribed ones. *)
Definition backlog (st : pstate) : nat :=
  length (queue st) + sum_list_with (λ c, length (reactions c)) (cells st).

Fixpoint run_jobs (h : heap) (n : nat) (st : pstate) : pstate :=
  match n with
  | 0 => st
  | S n' =>
      match queue st with
      | [] => st
      | r :: q =>
          run_jobs h n' (run_job h r (PState (cells st) q (entityWithIds st)))
      end
  end.

(** Run the queue until it is empty. *)
Definition drain (h : heap) (st : pstate) : pstate := run_jobs h (backlog st) st.

Definition fulfilled (p : nat) (st : pstate) : bool :=
  match cells st !! p with
  | Some c => bool_decide (remaining c = 0)
  | None => false
  end.

End Promise.
Import Promise.

(** ** [extractObjectsById] *)

Section Collect.

Variable h : heap.
Variable reg : registry.

(** The call stack: [None] when the recursion is deeper than [depth]. *)
Definition sync (A : Type) := pstate → option (A * pstate).

Definition sync_ret {A} (a : A) : sync A := λ st, Some (a, st).

Definition sync_bind {A B} (m : sync A) (f : A → sync B) : sync B :=
  λ st, match m st with
        | Some (a, st') => f a st'
        | None => None
        end.

Definition sync_lift {A} (f : pstate → A * pstate) : sync A := λ st, Some (f st).

(** [xs.map(f)], elements in order. *)
Fixpoint sync_map {A B} (f : A → sync B) (xs : list A) : sync (list B) :=
  match xs with
  | [] => sync_ret []
  | x :: rest =>
      sync_bind (f x) (λ y,
      sync_bind (sync_map f rest) (λ ys,
      sync_ret (y :: ys)))
  end.

(** The value a relation contributes:
    [relation.isLazy ? entity["__" + relation.propertyName + "__"]
                     : entity[relation.propertyName]] *)
Definition relation_value (entity : defined) (relation : RelationMetadata) : value :=
  if rel_isLazy relation
  then get h entity ("__" +:+ rel_propertyName relation +:+ "__")
  else get h entity (rel_propertyName relation).

(** The body of [extractObjectsById] up to its [return]: the recursive
    descent, which subscribes one callback per call and returns the
    promise of that call. *)
Fixpoint extract_calls (depth : nat) (entity : defined) (metadata : EntityMetadata)
    : sync nat :=
  match depth with
  | 0 => λ _, None
  | S depth' =>
      sync_bind
        (sync_map (λ relation,
           let relMetadata := inverseEntityMetadata reg relation in
           let value := relation_value entity relation in
           match value with
           | VDef d =>
               if negb (truthy value) then sync_ret None
               else match as_array h d with
                    | Some subEntities =>
                        sync_bind
                          (sync_map (λ subEntity, extract_calls depth' subEntity relMetadata)
                                    subEntities)
                          (λ subPromises,
                        sync_bind (sync_lift (all subPromises)) (λ p,
                        sync_ret (Some p)))
                    | None =>
                        sync_bind (extract_calls depth' d relMetadata) (λ p,
                        sync_ret (Some p))
                    end
           | _ => sync_ret None
           end) (md_relations metadata))
        (λ promises,
      sync_bind (sync_lift (all (omap id promises))) (λ a,
      sync_lift (then_record a entity metadata)))
  end.

(** [await this.extractObjectsById(entity, metadata, entityWithIds)]: the
    descent, then the queued callbacks; the caller resumes with the shared
    array once the promise of the outermost call is fulfilled. *)
Definition extractObjectsById (depth : nat) (entity : defined) (metadata : EntityMetadata)
    (entityWithIds0 : list EntityWithId) : option (list EntityWithId) :=
  match extract_calls depth entity metadata (init entityWithIds0) with
  | None => None
  | Some (p, st) =>
      let st' := drain h st in
      if fulfilled p st' then Some (entityWithIds st') else None
  end.

End Collect.

(** ** Errors and settled promises *)

(** A thrown value: [new Error(message)], the [TypeError] the runtime raises
    on a property access on [null] or [undefined], or an error that carries
    two others (as an aggregate or a cause link would). *)
Inductive error :=
| Error (message : string)
| TypeError
| Chained (first second : error).

#[global] Instance error_eq_dec : EqDecision error.
Proof. solve_decision. Defined.

(** [carried e x]: [x] is [e] or is carried somewhere inside [e]. *)
Fixpoint carried (e x : error) : bool :=
  bool_decide (e = x) ||
  match e with
  | Chained a b => carried a x || carried b x
  | _ => false
  end.

Inductive settled (A : Type) :=
| Fulfilled (a : A)
| Rejected (e : error).
Arguments Fulfilled {A} a.
Arguments Rejected {A} e.

(** ** Relation mutation: [setRelation], [addToRelation], [removeFromRelation]

    These methods only assemble requests for the driver and the query
    builder, so each is modelled by what it throws or by the requests it
    issues, in the order of the calls. *)

(** The delete query assembled on the query builder. *)
Record DeleteQuery := {
  q_alias : string;
  q_table : string;
  q_orWhere : list string;
  q_parameters : list (string * value);
}.

Inductive request :=
| DriverUpdate (table : string) (values conditions : gmap string value)
| DriverInsert (table : string) (values : gmap string value)
| ExecuteDelete (query : DeleteQuery).

Inductive issued :=
| Threw (e : error)
| Issued (requests : list request).

Section RelationMutation.

(** A relation is named by a string or by an accessor function;
    [metadata.computePropertyName] turns either into the property name. *)
Variable RelationName : Type.
Variable computePropertyName : EntityMetadata → RelationName → string.

Variable metadata : EntityMetadata.

(** Modelled from the spec: [EntityMetadata.hasRelationWithPropertyName]
    and [findRelationWithPropertyName] are not in the source tree; a
    relation is looked up by its property name among the declared
    relations of the entity. *)
Definition hasRelationWithPropertyName (propertyName : string) : bool :=
  existsb (λ r, bool_decide (rel_propertyName r = propertyName)) (md_relations metadata).

Definition findRelationWithPropertyName (propertyName : string) : option RelationMetadata :=
  find (λ r, bool_decide (rel_propertyName r = propertyName)) (md_relations metadata).

Definition relation_not_found (propertyName : string) : error :=
  Error ("Relation " +:+ propertyName +:+ " was not found in the "
         +:+ md_name metadata +:+ " entity.").

Definition many_to_many_not_supported : error :=
  Error "Many-to-many relation is not supported for this operation. Use #addToRelation method for many-to-many relations.".

Definition only_many_to_many_supported (propertyName : string)
    (relation : RelationMetadata) : error :=
  Error ("Only many-to-many relation supported for this operation. However "
         +:+ md_name metadata +:+ "#" +:+ propertyName +:+ " relation type is "
         +:+ relationTypeName (rel_relationType relation)).

(** The part shared by all the methods: resolve the name to a relation. *)
Definition with_relation (relationName : RelationName)
    (k : string → RelationMetadata → issued) : issued :=
  let propertyName := computePropertyName metadata relationName in
  if negb (hasRelationWithPropertyName propertyName)
  then Threw (relation_not_found propertyName)
  else match findRelationWithPropertyName propertyName with
       | Some relation => k propertyName relation
       | None => Threw TypeError
       end.

(** [{ [column]: value }] filled by one assignment. *)
Definition assign (column : string) (v : value) (o : gmap string value) : gmap string value :=
  <[column := v]> o.

Definition setRelation (relationName : RelationName) (entityId relatedEntityId : value)
    : issued :=
  with_relation relationName (λ propertyName relation,
    if isManyToMany relation then Threw many_to_many_not_supported
    else if rel_isOwning relation then
      match rel_joinReferencedColumn relation with
      | Some referenced =>
          Issued [DriverUpdate (rel_entityTable relation)
                    (assign (rel_name relation) relatedEntityId ∅)
                    (assign referenced entityId ∅)]
      | None => Threw TypeError
      end
    else
      match rel_inverseRelation relation with
      | Some inverse =>
          match inv_joinReferencedColumn inverse with
          | Some referenced =>
              Issued [DriverUpdate (rel_inverseTable relation)
                        (assign (inv_name inverse) relatedEntityId ∅)
                        (assign referenced entityId ∅)]
          | None => Threw TypeError
          end
      | None => Threw TypeError
      end).

Definition setInverseRelation (relationName : RelationName) (relatedEntityId entityId : value)
    : issued :=
  with_relation relationName (λ propertyName relation,
    if isManyToMany relation then Threw many_to_many_not_supported
    else if rel_isOwning relation then
      match rel_inverseRelation relation with
      | Some inverse =>
          match inv_joinReferencedColumn inverse with
          | Some referenced =>
              Issued [DriverUpdate (rel_inverseTable relation)
                        (assign (inv_name inverse) relatedEntityId ∅)
                        (assign referenced entityId ∅)]
          | None => Threw TypeError
          end
      | None => Threw TypeError
      end
    else
      match rel_joinReferencedColumn relation with
      | Some referenced =>
          Issued [DriverUpdate (rel_entityTable relation)
                    (assign (rel_name relation) relatedEntityId ∅)
                    (assign referenced entityId ∅)]
      | None => Threw TypeError
      end).

(** [relation.junctionEntityMetadata.columns[0].name] and [...columns[1].name],
    with the table name; a missing member is a [TypeError]. *)
Definition junction_of (relation : RelationMetadata) : option (string * string * string) :=
  match rel_junction relation with
  | Some j =>
      match junction_columns j !! 0, junction_columns j !! 1 with
      | Some c0, Some c1 => Some (junction_table j, col_name c0, col_name c1)
      | _, _ => None
      end
  | None => None
  end.

(** The [values] object of one junction insert. *)
Definition junction_values (isOwning : bool) (column0 column1 : string)
    (entityId relatedEntityId : value) : gmap string value :=
  if isOwning
  then assign column1 relatedEntityId (assign column0 entityId ∅)
  else assign column0 relatedEntityId (assign column1 entityId ∅).

(** [relatedEntityIds] is [None] for [null] and [undefined]. *)
Definition addToRelation (relationName : RelationName) (entityId : value)
    (relatedEntityIds : option (list value)) : issued :=
  with_relation relationName (λ propertyName relation,
    if negb (isManyToMany relation)
    then Threw (only_many_to_many_supported propertyName relation)
    else match relatedEntityIds with
         | None => Threw TypeError
         | Some [] => Issued []
         | Some ids =>
             match junction_of relation with
             | Some (table, column0, column1) =>
                 Issued (map (λ relatedEntityId,
                           DriverInsert table
                             (junction_values (rel_isOwning relation) column0 column1
                                              entityId relatedEntityId)) ids)
             | None => Threw TypeError
             end
         end).

(** The clause and the parameter that [forEach] adds for one related id. *)
Definition or_where (firstColumnName secondColumnName : string) (index : nat) : string :=
  "(" +:+ firstColumnName +:+ "=:entityId AND " +:+ secondColumnName
      +:+ "=:relatedEntity_" +:+ pretty index +:+ ")".

Definition removeFromRelation (relationName : RelationName) (entityId : value)
    (relatedEntityIds : option (list value)) : issued :=
  with_relation relationName (λ propertyName relation,
    if negb (isManyToMany relation)
    then Threw (only_many_to_many_supported propertyName relation)
    else match relatedEntityIds with
         | None | Some [] => Issued []
         | Some ids =>
             match junction_of relation with
             | Some (table, column0, column1) =>
                 let firstColumnName := if rel_isOwning relation then column0 else column1 in
                 let secondColumnName := if rel_isOwning relation then column1 else column0 in
                 Issued [ExecuteDelete
                   {| q_alias := "junctionEntity";
                      q_table := table;
                      q_orWhere :=
                        imap (λ index _, or_where firstColumnName secondColumnName index) ids;
                      q_parameters :=
                        imap (λ index relatedEntityId,
                                ("relatedEntity_" +:+ pretty index, relatedEntityId)) ids
                        ++ [("entityId", entityId)] |}]
             | None => Threw TypeError
             end
         end).

End RelationMutation.

(** ** Asynchronous methods: [persist], [remove], [findNotLoadedIds],
       [transaction]

    An [async] method threads the heap and the state of the storage through
    its awaited steps, and stops at the first rejection.  Every call of a
    collaborator is appended to a trace. *)

Section Repository.

(** The state of everything behind the driver. *)
Variable Storage : Type.
(** [PersistOperation], built and executed outside this file. *)
Variable PersistOperation : Type.

Record world := World {
  w_heap : heap;
  w_storage : Storage;
}.

Inductive call :=
| CallBeginTransaction
| CallCommitTransaction
| CallRollbackTransaction
| CallPreload (entity : value)
| CallFindOneById (entityTarget : string) (id : value)
| CallBuildFullPersistment (dbEntity persistedEntity : EntityWithId)
    (allDbEntities allPersistedEntities : list EntityWithId)
| CallBuildOnlyRemovement (dbEntity persistedEntity : EntityWithId)
    (dbEntities allPersistedEntities : list EntityWithId)
| CallExecutePersistOperation (operation : PersistOperation).

(** What a collaborator does with the world when called. *)
Definition external (A : Type) := world → settled A * world.

(** A step of an asynchronous method.  [None]: the graph collection inside
    it needs a deeper call stack than the bound given. *)
Definition async (A : Type) := world → option (settled A * world * list call).

Definition resolve {A} (a : A) : async A := λ w, Some (Fulfilled a, w, []).

Definition throw {A} (e : error) : async A := λ w, Some (Rejected e, w, []).

(** [p.then(f)] and [await]: a rejection skips [f]. *)
Definition andThen {A B} (m : async A) (f : A → async B) : async B :=
  λ w, match m w with
       | Some (Fulfilled a, w1, t1) =>
           match f a w1 with
           | Some (r, w2, t2) => Some (r, w2, t1 ++ t2)
           | None => None
           end
       | Some (Rejected e, w1, t1) => Some (Rejected e, w1, t1)
       | None => None
       end.

(** [p.catch(f)]: a fulfilment skips [f]. *)
Definition catch {A} (m : async A) (f : error → async A) : async A :=
  λ w, match m w with
       | Some (Fulfilled a, w1, t1) => Some (Fulfilled a, w1, t1)
       | Some (Rejected e, w1, t1) =>
           match f e w1 with
           | Some (r, w2, t2) => Some (r, w2, t1 ++ t2)
           | None => None
           end
       | None => None
       end.

Definition invoke {A} (c : call) (f : external A) : async A :=
  λ w, let (r, w') := f w in Some (r, w', [c]).

Definition read_heap : async heap := λ w, Some (Fulfilled (w_heap w), w, []).

Definition write_heap (f : heap → heap) : async unit :=
  λ w, Some (Fulfilled (), World (f (w_heap w)) (w_storage w), []).

(** [Promise.all(ps)] over steps that were all started, in order: every
    step runs; the result is rejected when one of them is, with the error
    of the first rejected one in the order of the list. *)
Fixpoint gather {A} (ps : list (async A)) : async (list A) :=
  match ps with
  | [] => resolve []
  | p :: rest =>
      λ w, match p w with
           | Some (r, w1, t1) =>
               match gather rest w1 with
               | Some (rs, w2, t2) =>
                   Some (match r, rs with
                         | Fulfilled a, Fulfilled l => Fulfilled (a :: l)
                         | Rejected e, _ => Rejected e
                         | Fulfilled _, Rejected e => Rejected e
                         end, w2, t1 ++ t2)
               | None => None
               end
           | None => None
           end
  end.

Variable reg : registry.                       (* entityMetadatas.findByTarget *)
Variable metadata : EntityMetadata.            (* this.metadata *)
Variable getEntityId : EntityMetadata → heap → value → value.
Variable preload : defined → external value.
Variable findOneById : string → value → external value.
Variable buildFullPersistment :
  EntityMetadata → EntityWithId → EntityWithId →
  list EntityWithId → list EntityWithId → external PersistOperation.
Variable buildOnlyRemovement :
  EntityMetadata → EntityWithId → EntityWithId →
  list EntityWithId → list EntityWithId → external PersistOperation.
Variable executePersistOperation : PersistOperation → external unit.
Variable beginTransaction commitTransaction rollbackTransaction : external unit.

(** [await this.extractObjectsById(entity, metadata)] on the current heap. *)
Definition collect (depth : nat) (entity : defined) (md : EntityMetadata)
    : async (list EntityWithId) :=
  λ w, match extractObjectsById (w_heap w) reg depth entity md [] with
       | Some entityWithIds => Some (Fulfilled entityWithIds, w, [])
       | None => None
       end.

(** The function that [findNotLoadedIds] maps over the entities to load:
    a point lookup, and the entry made from what it returns. *)
Definition load_missing (entityWithId : EntityWithId) : async (option EntityWithId) :=
  let metadata := reg (ewi_entityTarget entityWithId) in
  andThen (invoke (CallFindOneById (ewi_entityTarget entityWithId) (ewi_id entityWithId))
                  (findOneById (ewi_entityTarget entityWithId) (ewi_id entityWithId)))
    (λ loadedEntity,
       match loadedEntity with
       | VDef d =>
           if negb (truthy loadedEntity) then resolve None
           else andThen read_heap (λ h,
                resolve (Some {| ewi_id := get h d (col_name (md_primaryColumn metadata));
                                 ewi_entityTarget := md_target metadata;
                                 ewi_entity := loadedEntity |}))
       | _ => resolve None
       end).

Definition findNotLoadedIds (dbEntities persistedEntities : list EntityWithId)
    : async (list EntityWithId) :=
  let missingDbEntitiesLoad :=
    map load_missing
      (filter (λ entityWithId,
                 negb (existsb (λ dbEntity,
                         bool_decide (ewi_entityTarget dbEntity = ewi_entityTarget entityWithId)
                         && strict_eq (ewi_id dbEntity) (ewi_id entityWithId)) dbEntities) = true)
         (filter (λ entityWithId,
                    negb (strict_eq (ewi_id entityWithId) VNull)
                    && negb (strict_eq (ewi_id entityWithId) VUndefined) = true)
            persistedEntities)) in
  andThen (gather missingDbEntitiesLoad) (λ missingDbEntities,
  resolve (dbEntities ++ omap id missingDbEntities)).

(** [persist(entity)] for one entity (given an array, the method applies
    itself to each element); the initial [await Promise.resolve()] only
    yields. *)
Definition persist (depth : nat) (entity : defined) : async defined :=
  andThen (collect depth entity metadata) (λ allPersistedEntities,
  andThen read_heap (λ h,
  andThen (if hasId h metadata (VDef entity)
           then invoke (CallPreload (VDef entity)) (preload entity)
           else resolve VNull) (λ loadedDbEntity,
  andThen (match loadedDbEntity with
           | VDef d =>
               if truthy loadedDbEntity then collect depth d metadata else resolve []
           | _ => resolve []
           end) (λ entityWithIds,
  andThen (findNotLoadedIds entityWithIds allPersistedEntities) (λ allDbEntities,
  andThen read_heap (λ h',
  let persistedEntity :=
    {| ewi_id := getEntityId metadata h' (VDef entity);
       ewi_entityTarget := md_target metadata;
       ewi_entity := VDef entity |} in
  let dbEntity :=
    {| ewi_id := getEntityId metadata h' loadedDbEntity;
       ewi_entityTarget := md_target metadata;
       ewi_entity := loadedDbEntity |} in
  andThen (invoke (CallBuildFullPersistment dbEntity persistedEntity
                     allDbEntities allPersistedEntities)
                  (buildFullPersistment metadata dbEntity persistedEntity
                     allDbEntities allPersistedEntities)) (λ persistOperation,
  andThen (invoke (CallExecutePersistOperation persistOperation)
                  (executePersistOperation persistOperation)) (λ _,
  resolve entity)))))))).

(** [entity[name] = undefined]; the class body is strict code, where an
    assignment to a property of a primitive throws. *)
Definition clear_property (entity : defined) (name : string) : async unit :=
  match entity with
  | DRef l => write_heap (λ h, set_prop h l name VUndefined)
  | DPrim _ => throw TypeError
  end.

(** [remove(entity)] for one entity (given an array, the method applies
    itself to each element). *)
Definition remove (depth : nat) (entity : defined) : async defined :=
  andThen (invoke (CallPreload (VDef entity)) (preload entity)) (λ dbEntity,
  andThen (clear_property entity (col_name (md_primaryColumn metadata))) (λ _,
  andThen (match dbEntity with
           | VDef d => collect depth d metadata
           | _ => throw TypeError
           end) (λ dbEntities,
  andThen (collect depth entity metadata) (λ allPersistedEntities,
  andThen read_heap (λ h,
  let entityWithId :=
    {| ewi_id := getEntityId metadata h (VDef entity);
       ewi_entityTarget := md_target metadata;
       ewi_entity := VDef entity |} in
  let dbEntityWithId :=
    {| ewi_id := getEntityId metadata h dbEntity;
       ewi_entityTarget := md_target metadata;
       ewi_entity := dbEntity |} in
  andThen (invoke (CallBuildOnlyRemovement dbEntityWithId entityWithId
                     dbEntities allPersistedEntities)
                  (buildOnlyRemovement metadata dbEntityWithId entityWithId
                     dbEntities allPersistedEntities)) (λ persistOperation,
  andThen (invoke (CallExecutePersistOperation persistOperation)
                  (executePersistOperation persistOperation)) (λ _,
  resolve entity))))))).

(** [transaction(runInTransaction)], the chain as written:
    begin, run, commit, [.catch] with the rollback, and the final [.then]
    that yields [runInTransactionResult]. *)
Definition transaction (runInTransaction : async value) : async value :=
  andThen
    (catch
       (andThen
          (andThen (invoke CallBeginTransaction beginTransaction) (λ _,
                    runInTransaction))
          (λ result,
             andThen (invoke CallCommitTransaction commitTransaction) (λ _,
             resolve result)))
       (λ err,
          catch
            (andThen (invoke CallRollbackTransaction rollbackTransaction) (λ _,
                      throw err))
            (λ _, throw err)))
    (λ runInTransactionResult, resolve runInTransactionResult).

End Repository.

Arguments World {Storage} w_heap w_storage.
Arguments w_heap {Storage} w.
Arguments w_storage {Storage} w.
Arguments CallBeginTransaction {PersistOperation}.
Arguments CallCommitTransaction {PersistOperation}.
Arguments CallRollbackTransaction {PersistOperation}.
Arguments CallPreload {PersistOperation} entity.
Arguments CallFindOneById {PersistOperation} entityTarget id.
Arguments CallBuildFullPersistment {PersistOperation}.
Arguments CallBuildOnlyRemovement {PersistOperation}.
Arguments CallExecutePersistOperation {PersistOperation} operation.
Arguments resolve {Storage PersistOperation A} a.
Arguments throw {Storage PersistOperation A} e.
Arguments andThen {Storage PersistOperation A B} m f.
Arguments catch {Storage PersistOperation A} m f.
Arguments invoke {Storage PersistOperation A} c f.
Arguments read_heap {Storage PersistOperation}.
Arguments write_heap {Storage PersistOperation} f.
Arguments gather {Storage PersistOperation A} ps.
Arguments collect {Storage PersistOperation} reg depth entity md.
Arguments clear_property {Storage PersistOperation} entity name.

(** * Specification predicates *)

Close Scope string_scope.

Section EngineSpec.

Definition pending (st : pstate) : list reaction :=
  mjoin (reactions <$> cells st) ++ queue st.

(** The calls of [extractObjectsById] whose callback is still to run. *)
Definition calls_of (st : pstate) : list (defined * EntityMetadata) :=
  omap (λ r, match r with RThen e m _ => Some (e, m) | RElem _ => None end) (pending st).

Definition count_target (x : nat) (rs : list reaction) : nat :=
  length (filter (λ r, target r = x) rs).

(** Inputs of promise [x] that are still on their way. *)
Definition incoming (x : nat) (st : pstate) : nat := count_target x (pending st).

(** Well-formed promise tables, where promise [a] is still owed [k]
    subscriptions. *)
Record wf_owing (a k : nat) (st : pstate) : Prop := {
  wf_forward : ∀ i c r, cells st !! i = Some c → r ∈ reactions c → i < target r;
  wf_bound : ∀ r, r ∈ pending st → target r < length (cells st);
  wf_remaining : ∀ i c, cells st !! i = Some c →
    remaining c = incoming i st + (if decide (i = a) then k else 0);
  wf_settled : ∀ i c, cells st !! i = Some c → remaining c = 0 → reactions c = [];
}.

Definition wf (st : pstate) : Prop := wf_owing 0 0 st.

End EngineSpec.


Section CollectSpec.

Variable h : heap.
Variable reg : registry.

(** The entities one relation of [entity] leads to. *)
Definition related_by (entity : defined) (relation : RelationMetadata) : list defined :=
  match relation_value h entity relation with
  | VDef d =>
      if truthy (VDef d)
      then match as_array h d with
           | Some subEntities => subEntities
           | None => [d]
           end
      else []
  | _ => []
  end.

(** [reachable e md e' md']: starting from [e], read with metadata [md],
    the declared relations lead to [e'], read with metadata [md']. *)
Inductive reachable : defined → EntityMetadata → defined → EntityMetadata → Prop :=
| reachable_here e md : reachable e md e md
| reachable_via e md relation c e' md' :
    relation ∈ md_relations md →
    c ∈ related_by e relation →
    reachable c (inverseEntityMetadata reg relation) e' md' →
    reachable e md e' md'.

(** The entry that the callback pushes for [entity] read with [metadata]. *)
Definition entry_of (entity : defined) (metadata : EntityMetadata) : EntityWithId :=
  {| ewi_id := get h entity (col_name (md_primaryColumn metadata));
     ewi_entityTarget := md_target metadata;
     ewi_entity := VDef entity |}.

(** The table only grows during the descent, and every callback that is
    new satisfies [P]. *)
Definition grows (P : defined → EntityMetadata → Prop) (st st' : pstate) : Prop :=
  length (cells st) ≤ length (cells st') ∧
  entityWithIds st' = entityWithIds st ∧
  (∀ r, r ∈ pending st → r ∈ pending st') ∧
  (∀ e md d, RThen e md d ∈ pending st' → RThen e md d ∈ pending st ∨ P e md).

(** Every entity reachable from [e] has its callback subscribed. *)
Definition covers (st : pstate) (e : defined) (md : EntityMetadata) : Prop :=
  ∀ e' md', reachable e md e' md' → ∃ d, RThen e' md' d ∈ pending st.

(** What holds of the shared array while the callbacks run. *)
Record collecting (P : defined → EntityMetadata → Prop) (st : pstate) : Prop := {
  col_nodup : NoDup (ewi_entity <$> entityWithIds st);
  col_sound : ∀ x, x ∈ entityWithIds st → ∃ e md, P e md ∧ x = entry_of e md;
  col_pending : ∀ e md d, RThen e md d ∈ pending st → P e md;
}.

(** The callback of [e] is still to run, or [e] is recorded. *)
Definition tracked (e : defined) (st : pstate) : Prop :=
  (∃ md d, RThen e md d ∈ pending st) ∨ VDef e ∈ ewi_entity <$> entityWithIds st.

End CollectSpec.

(** Two entries denote the same row: same entity type and the same
    identity, which is neither [null] nor [undefined]. *)
Definition same_row (a b : EntityWithId) : Prop :=
  ewi_entityTarget a = ewi_entityTarget b ∧ ewi_id a = ewi_id b ∧
  ewi_id a ≠ VNull ∧ ewi_id a ≠ VUndefined.

Definition row_unique (l : list EntityWithId) : Prop :=
  ∀ i j a b, l !! i = Some a → l !! j = Some b → same_row a b → i = j.

(** [contains s needle]: [needle] occurs in [s]. *)
Fixpoint contains (s needle : string) : bool :=
  String.prefix needle s ||
  match s with
  | EmptyString => false
  | String _ rest => contains rest needle
  end.

(** The message of a thrown [Error] names [s]. *)
Definition names (e : error) (s : string) : bool :=
  match e with
  | Error message => contains message s
  | _ => false
  end.

(** A rejection lets the error [e] through, as it is or carried. *)
Definition surfaces {A} (r : settled A) (e : error) : Prop :=
  ∃ x, r = Rejected x ∧ carried x e = true.

(** A requested entity that [findNotLoadedIds] has to look up: its identity
    is neither [null] nor [undefined], and no already-loaded entry has the
    same entity type and identity. *)
Definition needs_lookup (dbEntities : list EntityWithId) (e : EntityWithId) : Prop :=
  ewi_id e ≠ VNull ∧ ewi_id e ≠ VUndefined ∧
  ¬ Exists (λ d, ewi_entityTarget d = ewi_entityTarget e ∧ ewi_id d = ewi_id e) dbEntities.

#[global] Instance needs_lookup_dec dbEntities e : Decision (needs_lookup dbEntities e).
Proof. unfold needs_lookup. apply _. Defined.

Section AsyncSpec.

Context {Storage PersistOperation : Type}.

(** Every call that the step [m] makes satisfies [P]. *)
Definition emits {A} (P : call PersistOperation → Prop) (m : async Storage PersistOperation A)
    : Prop :=
  ∀ w r w' t, m w = Some (r, w', t) → Forall P t.

(** The collaborator [f] leaves the own property [p] of object [l] as it
    finds it. *)
Definition keeps {A} (l : loc) (p : string) (f : external Storage A) : Prop :=
  ∀ w, own (deref (w_heap (f w).2) l) !! p = own (deref (w_heap w) l) !! p.

(** The step [m] leaves the own property [p] of object [l] as it finds it. *)
Definition preserves {A} (l : loc) (p : string) (m : async Storage PersistOperation A)
    : Prop :=
  ∀ w r w' t, m w = Some (r, w', t) →
    own (deref (w_heap w') l) !! p = own (deref (w_heap w) l) !! p.

(** The chain of [transaction] before its [.catch]: begin, run, commit. *)
Definition transaction_attempt (beginTransaction commitTransaction : external Storage unit)
    (runInTransaction : async Storage PersistOperation value)
    : async Storage PersistOperation value :=
  andThen
    (andThen (invoke CallBeginTransaction beginTransaction) (λ _, runInTransaction))
    (λ result, andThen (invoke CallCommitTransaction commitTransaction) (λ _, resolve result)).

(** A call that fits a pure insert: it is no [preload], and when it asks
    for the plan it hands the builder a [null] database entity. *)
Definition pure_insert_call (c : call PersistOperation) : Prop :=
  (∀ x, c ≠ CallPreload x) ∧
  (∀ db pe adb ape, c = CallBuildFullPersistment db pe adb ape → ewi_entity db = VNull).

(** The lookups of [findNotLoadedIds], as calls. *)
Definition lookup_calls (missing : list EntityWithId) : list (call PersistOperation) :=
  (λ e, CallFindOneById (ewi_entityTarget e) (ewi_id e)) <$> missing.

End AsyncSpec.

(** ** Example metadata and object graphs *)

Module Ex.

#[local] Open Scope string_scope.

(** Relations named by a string: the property name is the string. *)
Definition by_string (_ : EntityMetadata) (relationName : string) : string := relationName.

Definition id_column : ColumnMetadata := {| col_name := "id"; col_propertyName := "id" |}.

Definition to_one (table property inverse : string) : RelationMetadata :=
  {| rel_name := property; rel_propertyName := property;
     rel_relationType := ManyToOne; rel_isOwning := true; rel_isLazy := false;
     rel_entityTable := table; rel_inverseTarget := inverse;
     rel_inverseTable := inverse;
     rel_joinReferencedColumn := Some "id";
     rel_inverseRelation := None; rel_junction := None |}.

Definition to_many (owning : bool) (table property inverse junction : string)
    : RelationMetadata :=
  {| rel_name := property; rel_propertyName := property;
     rel_relationType := ManyToMany; rel_isOwning := owning; rel_isLazy := false;
     rel_entityTable := table; rel_inverseTarget := inverse;
     rel_inverseTable := inverse;
     rel_joinReferencedColumn := None;
     rel_inverseRelation := None;
     rel_junction := Some {| junction_table := junction;
                             junction_columns :=
                               [ {| col_name := "postId"; col_propertyName := "postId" |};
                                 {| col_name := "categoryId";
                                    col_propertyName := "categoryId" |} ] |} |}.

Definition entity (name : string) (relations : list RelationMetadata) : EntityMetadata :=
  {| md_name := name; md_target := name; md_table := name;
     md_primaryColumn := id_column; md_relations := relations |}.

(** A blog: posts with categories (many-to-many, owned by the post) and an
    author and an editor; authors with a country. *)
Definition Post : EntityMetadata :=
  entity "Post" [ to_many true "Post" "categories" "Category" "post_categories";
                  to_one "Post" "author" "Author";
                  to_one "Post" "editor" "Author" ].
Definition Category : EntityMetadata := entity "Category" [].
Definition Author : EntityMetadata := entity "Author" [ to_one "Author" "country" "Country" ].
Definition Country : EntityMetadata := entity "Country" [].

Definition blog : registry :=
  λ target, if bool_decide (target = "Post") then Post
            else if bool_decide (target = "Category") then Category
            else if bool_decide (target = "Author") then Author
            else Country.

(** A post whose two categories are distinct objects for the same row. *)
Definition twins : heap :=
  list_to_map
    [ (1, literal [("title", VStr "hello"); ("categories", VRef 2)]);
      (2, array [DRef 3; DRef 4]);
      (3, literal [("id", VNum 1); ("name", VStr "news")]);
      (4, literal [("id", VNum 1); ("name", VStr "news")]) ].

Definition twins_collected : list EntityWithId :=
  [ {| ewi_id := VNum 1; ewi_entityTarget := "Category"; ewi_entity := VRef 3 |};
    {| ewi_id := VNum 1; ewi_entityTarget := "Category"; ewi_entity := VRef 4 |};
    {| ewi_id := VUndefined; ewi_entityTarget := "Post"; ewi_entity := VRef 1 |} ].

(** A post whose author and editor live in the same country object. *)
Definition diamond : heap :=
  list_to_map
    [ (1, literal [("author", VRef 2); ("editor", VRef 3)]);
      (2, literal [("id", VNum 1); ("country", VRef 4)]);
      (3, literal [("id", VNum 2); ("country", VRef 4)]);
      (4, literal [("id", VNum 9)]) ].

(** A category tree, and a category that is its own parent. *)
Definition TreeCategory : EntityMetadata :=
  entity "Category" [ to_one "Category" "parent" "Category" ].
Definition tree : registry := λ _, TreeCategory.
Definition own_parent : heap :=
  list_to_map [ (1, literal [("id", VNum 1); ("parent", VRef 1)]) ].

(** Posts and categories that know each other. *)
Definition LinkedPost : EntityMetadata :=
  entity "Post" [ to_many true "Post" "categories" "Category" "post_categories" ].
Definition LinkedCategory : EntityMetadata :=
  entity "Category" [ to_many false "Category" "posts" "Post" "post_categories" ].
Definition linked : registry :=
  λ target, if bool_decide (target = "Post") then LinkedPost else LinkedCategory.
Definition mutual : heap :=
  list_to_map
    [ (1, literal [("id", VNum 1); ("categories", VRef 2)]);
      (2, array [DRef 3]);
      (3, literal [("id", VNum 7); ("posts", VRef 4)]);
      (4, array [DRef 1]) ].

(** Collaborators over a storage without state: each call fulfils or
    rejects in the same way wherever it is made. *)
Definition fulfils {A} (a : A) : external unit A := λ w, (Fulfilled a, w).
Definition rejects {A} (e : error) : external unit A := λ w, (Rejected e, w).

(** [metadata.getEntityId(entity)]: the value of the primary property. *)
Definition getEntityId (metadata : EntityMetadata) (h : heap) (entity : value) : value :=
  match entity with
  | VDef d => get h d (col_propertyName (md_primaryColumn metadata))
  | _ => VUndefined
  end.

(** A post that was never saved, and one whose [id] is only inherited. *)
Definition fresh : heap := list_to_map [ (1, literal [("title", VStr "hello")]) ].
Definition inherited : heap :=
  list_to_map [ (1, Obj {[ "title" := VStr "hello" ]} [ {[ "id" := VNum 5 ]} ] None) ].

(** A saved post and the copy of it that the database returns. *)
Definition saved : heap :=
  list_to_map [ (1, literal [("id", VNum 5); ("title", VStr "hello")]);
                (2, literal [("id", VNum 5); ("title", VStr "hello")]) ].

Definition insert_failed : error := Error "insert failed".
Definition connection_lost : error := Error "connection lost".

Definition persist_plain (h : heap) (depth : nat) (entity : defined)
    : option (settled defined * world unit * list (call unit)) :=
  persist unit unit blog Post getEntityId
    (λ _, fulfils VNull) (λ _ _, fulfils VNull)
    (λ _ _ _ _ _, fulfils ()) (λ _, fulfils ()) depth entity (World h ()).

Definition remove_with (preload : defined → external unit value) (h : heap) (depth : nat)
    (entity : defined) : option (settled defined * world unit * list (call unit)) :=
  remove unit unit blog Post getEntityId preload
    (λ _ _ _ _ _, fulfils ()) (λ _, fulfils ()) depth entity (World h ()).

End Ex.

(** ** The other relation methods: [addToInverseRelation],
       [removeFromInverseRelation], [addAndRemoveFromRelation],
       [addAndRemoveFromInverseRelation] *)

(** What a [Promise.all] over two started calls has issued, and the error
    thrown by the first of them that threw, if one did. *)
Record combined := Combined {
  combined_requests : list request;
  combined_thrown : option error;
}.

Definition requests_of (i : issued) : list request :=
  match i with
  | Issued requests => requests
  | Threw _ => []
  end.

Definition thrown_of (i : issued) : option error :=
  match i with
  | Issued _ => None
  | Threw e => Some e
  end.

(** [Promise.all([first, second])] where both calls have been made. *)
Definition both (first second : issued) : combined :=
  Combined (requests_of first ++ requests_of second)
           (match thrown_of first with
            | Some e => Some e
            | None => thrown_of second
            end).

Section InverseRelationMutation.

Variable RelationName : Type.
Variable computePropertyName : EntityMetadata → RelationName → string.
Variable metadata : EntityMetadata.

(** [entityIds] is [None] for [null] and [undefined]. *)
Definition addToInverseRelation (relationName : RelationName) (relatedEntityId : value)
  (entityIds : option (list value)) : issued :=
with_relation RelationName computePropertyName metadata relationName
  (λ propertyName relation,
    if negb (isManyToMany relation)
    then Threw (only_many_to_many_supported metadata propertyName relation)
    else match entityIds with
         | None => Threw TypeError
         | Some [] => Issued []
         | Some ids =>
             match junction_of relation with
             | Some (table, column0, column1) =>
                 Issued (map (λ entityId,
                           DriverInsert table
                             (junction_values (rel_isOwning relation) column0 column1
                                              entityId relatedEntityId)) ids)
             | None => Threw TypeError
             end
         end).

(** The clause that [removeFromInverseRelation] adds for one entity id. *)
Definition or_where_inverse (firstColumnName secondColumnName : string) (index : nat)
  : string :=
"(" +:+ firstColumnName +:+ "=:relatedEntityId AND " +:+ secondColumnName
    +:+ "=:entity_" +:+ pretty index +:+ ")".

Definition removeFromInverseRelation (relationName : RelationName) (relatedEntityId : value)
  (entityIds : option (list value)) : issued :=
with_relation RelationName computePropertyName metadata relationName
  (λ propertyName relation,
    if negb (isManyToMany relation)
    then Threw (only_many_to_many_supported metadata propertyName relation)
    else match entityIds with
         | None | Some [] => Issued []
         | Some ids =>
             match junction_of relation with
             | Some (table, column0, column1) =>
                 let firstColumnName := if rel_isOwning relation then column1 else column0 in
                 let secondColumnName := if rel_isOwning relation then column0 else column1 in
                 Issued [ExecuteDelete
                   {| q_alias := "junctionEntity";
                      q_table := table;
                      q_orWhere :=
                        imap (λ index _,
                                or_where_inverse firstColumnName secondColumnName index) ids;
                      q_parameters :=
                        imap (λ index entityId, ("entity_" +:+ pretty index, entityId)) ids
                        ++ [("relatedEntityId", relatedEntityId)] |}]
             | None => Threw TypeError
             end
         end).

Definition addAndRemoveFromRelation (relation : RelationName) (entityId : value)
  (addRelatedEntityIds removeRelatedEntityIds : option (list value)) : combined :=
both (addToRelation RelationName computePropertyName metadata relation entityId
        addRelatedEntityIds)
     (removeFromRelation RelationName computePropertyName metadata relation entityId
        removeRelatedEntityIds).

Definition addAndRemoveFromInverseRelation (relation : RelationName) (relatedEntityId : value)
  (addEntityIds removeEntityIds : option (list value)) : combined :=
both (addToInverseRelation relation relatedEntityId addEntityIds)
     (removeFromInverseRelation relation relatedEntityId removeEntityIds).

End InverseRelationMutation.

(** ** Queries assembled on the query builder: [createQueryBuilder] and
       [createFindQueryBuilder]

    [QueryBuilder] is outside this file; the builder that
    [createFindQueryBuilder] returns is modelled by the calls made on it,
    in order. *)

Section FindQueries.

(** [FindOptions], with its [alias]; the union [Object|FindOptions] of the
  first argument of the find methods is told apart by
  [FindOptionsUtils.isFindOptions], a type guard. *)
Variable FindOptions : Type.
Variable alias_of : FindOptions → string.

Inductive builder_call :=
| QSelect (alias : string)
| QFrom (target : string) (alias : string)
| QAndWhere (condition : string)
| QAddParameters (parameters : list (string * value))
| QApplyOptions (options : FindOptions).   (* FindOptionsUtils.applyOptionsToQueryBuilder *)

(** The first argument of the find methods; the keys of [Conditions] are in
  the order of [Object.keys]. *)
Inductive find_argument :=
| Conditions (conditions : list (string * value))
| Options (options : FindOptions).

Variable metadata : EntityMetadata.

Definition createQueryBuilder (alias : string) : list builder_call :=
[QSelect alias; QFrom (md_target metadata) alias].

(** [key.indexOf(".") === -1 ? alias + "." + key : key] *)
Definition qualified (alias key : string) : string :=
if contains key "." then key else alias +:+ "." +:+ key.

Definition createFindQueryBuilder (conditionsOrFindOptions : option find_argument)
  (options : option FindOptions) : list builder_call :=
let findOptions :=
  match conditionsOrFindOptions with
  | Some (Options o) => Some o
  | _ => options
  end in
let conditions :=
  match conditionsOrFindOptions with
  | Some (Conditions c) => Some c
  | _ => None
  end in
let alias :=
  match findOptions with
  | Some o => alias_of o
  | None => md_table metadata
  end in
createQueryBuilder alias
++ match findOptions with
   | Some o => [QApplyOptions o]
   | None => []
   end
++ match conditions with
   | Some c =>
       map (λ kv, QAndWhere (qualified alias kv.1 +:+ "=:" +:+ kv.1)) c
       ++ [QAddParameters c]
   | None => []
   end.

(** The call hands parameter values to the builder. *)
Definition binds_values (c : builder_call) : bool :=
match c with
| QAddParameters _ => true
| _ => false
end.

(** The calls that make the text of the query, and those that bind values. *)
Definition query_text (calls : list builder_call) : list builder_call :=
filter (λ c, binds_values c = false) calls.

Definition query_bindings (calls : list builder_call) : list builder_call :=
filter (λ c, binds_values c = true) calls.

End FindQueries.

(** ** Further example metadata *)

Module Ex2.

#[local] Open Scope string_scope.



(** A category seen from its posts: the inverse side of the junction. *)
Definition CategoryOfPosts : EntityMetadata :=
Ex.entity "Category" [ Ex.to_many false "Category" "posts" "Post" "post_categories" ].

(** How far the relations of the blog lead from an entity type. *)
Definition blog_rank_of (target : string) : nat :=
if bool_decide (target = "Post") then 2
else if bool_decide (target = "Author") then 1
else 0.

Definition blog_rank (_ : defined) (md : EntityMetadata) : nat :=
match md_relations md with
| [] => 0
| relations => S (max_list ((λ r, blog_rank_of (rel_inverseTarget r)) <$> relations))
end.

(** Posts whose key column is not called as the property that holds it. *)
Definition LegacyPost : EntityMetadata :=
{| md_name := "Post"; md_target := "Post"; md_table := "post";
   md_primaryColumn := {| col_name := "post_id"; col_propertyName := "id" |};
   md_relations := [] |}.

(** An array that already holds the entry of the first category of
  [Ex.twins]. *)
Definition first_twin : list EntityWithId :=
[ {| ewi_id := VNum 1; ewi_entityTarget := "Category"; ewi_entity := VRef 3 |} ].

End Ex2.

(** The last calls of [persist]: none, the request for a plan, or that
    request and the execution of a plan. *)
Definition is_write_tail {PersistOperation : Type} (tail : list (call PersistOperation))
    : Prop :=
  tail = [] ∨
  (∃ dbEntity persistedEntity allDbEntities allPersistedEntities,
     tail = [CallBuildFullPersistment dbEntity persistedEntity
               allDbEntities allPersistedEntities]) ∨
  (∃ dbEntity persistedEntity allDbEntities allPersistedEntities operation,
     tail = [CallBuildFullPersistment dbEntity persistedEntity
               allDbEntities allPersistedEntities;
             CallExecutePersistOperation operation]).

(** A call that only reads from the storage. *)
Definition is_read_call {PersistOperation : Type} (c : call PersistOperation) : Prop :=
  (∃ entity, c = CallPreload entity) ∨ (∃ target id, c = CallFindOneById target id).

(** What holds of the shared array while the callbacks run, when it was not
    empty at the start: the entries it had come first and unchanged; what
    was added is for objects not among them, each once. *)
Definition extending (h : heap) (l : list EntityWithId)
    (P : defined → EntityMetadata → Prop) (st : pstate) : Prop :=
  (∃ added,
     entityWithIds st = l ++ added ∧
     NoDup (ewi_entity <$> added) ∧
     ∀ x, x ∈ added →
       ∃ e md, P e md ∧ x = entry_of h e md ∧ VDef e ∉ ewi_entity <$> l) ∧
  (∀ e md d, RThen e md d ∈ pending st → P e md).

(** * Proofs *)

Lemma concat_reactions_insert (cs : list cell) (p : nat) (c : cell) :
  cs !! p = Some c →
  ∃ rest, mjoin (reactions <$> cs) ≡ₚ reactions c ++ rest ∧
          ∀ c', mjoin (reactions <$> <[p := c']> cs) ≡ₚ reactions c' ++ rest.
Proof.
  revert p. induction cs as [|c0 cs IH]; intros [|p] Hp; simplify_eq/=.
  - exists (mjoin (reactions <$> cs)). split; [done|]. intros c'. done.
  - destruct (IH p Hp) as (rest & H1 & H2).
    exists (reactions c0 ++ rest). split.
    + rewrite H1. by rewrite Permutation_app_swap_app.
    + intros c'. rewrite H2. by rewrite Permutation_app_swap_app.
Qed.

Lemma count_target_perm x rs rs' : rs ≡ₚ rs' → count_target x rs = count_target x rs'.
Proof. intros H. unfold count_target. by rewrite H. Qed.

Lemma count_target_app x rs rs' :
  count_target x (rs ++ rs') = count_target x rs + count_target x rs'.
Proof. unfold count_target. by rewrite filter_app, length_app. Qed.

Lemma count_target_cons x r rs :
  count_target x (r :: rs) = (if decide (target r = x) then 1 else 0) + count_target x rs.
Proof. unfold count_target. rewrite filter_cons. by case_decide. Qed.

Lemma count_target_pos x rs : 0 < count_target x rs → ∃ r, r ∈ rs ∧ target r = x.
Proof.
  unfold count_target. intros H.
  destruct (filter (λ r, target r = x) rs) as [|r l] eqn:E; simpl in H; [lia|].
  assert (r ∈ filter (λ r, target r = x) rs) as Hin by (rewrite E; left).
  apply list_elem_of_filter in Hin. destruct Hin; eauto.
Qed.

(** *** The effect of each operation on the pending reactions *)

Lemma pending_new_promise n st :
  pending (new_promise n st).2 = pending st.
Proof.
  unfold pending, new_promise. simpl.
  rewrite fmap_app, join_app. simpl. by rewrite !app_nil_r.
Qed.

Lemma pending_subscribe p r st :
  p < length (cells st) → pending (subscribe p r st) ≡ₚ r :: pending st.
Proof.
  intros Hp. unfold subscribe.
  destruct (cells st !! p) as [c|] eqn:E; [|apply lookup_ge_None in E; lia].
  destruct (remaining c) eqn:Er; unfold pending; simpl.
  - rewrite app_assoc. by rewrite <- Permutation_cons_append.
  - destruct (concat_reactions_insert _ _ _ E) as (rest & H1 & H2).
    rewrite H2, H1. simpl. rewrite <- Permutation_cons_append. done.
Qed.

Lemma pending_deliver p st : pending (deliver p st) ≡ₚ pending st.
Proof.
  unfold deliver.
  destruct (cells st !! p) as [c|] eqn:E; [|done].
  destruct (remaining c) as [|[|k]] eqn:Er; [done| |]; unfold pending; simpl.
  - destruct (concat_reactions_insert _ _ _ E) as (rest & H1 & H2).
    rewrite H2, H1. simpl.
    rewrite (Permutation_app_comm (queue st)). rewrite !app_assoc.
    apply Permutation_app_tail. apply Permutation_app_comm.
  - destruct (concat_reactions_insert _ _ _ E) as (rest & H1 & H2).
    rewrite H2, H1. done.
Qed.

Lemma count_target_none x rs : (∀ r, r ∈ rs → target r ≠ x) → count_target x rs = 0.
Proof.
  intros H. destruct (count_target x rs) eqn:E; [done|].
  destruct (count_target_pos x rs) as (r & Hr & Ht); [lia|]. by apply H in Hr.
Qed.

Lemma elem_of_pending_cell st i c r :
  cells st !! i = Some c → r ∈ reactions c → r ∈ pending st.
Proof.
  intros Hc Hr. unfold pending. apply elem_of_app. left.
  apply list_elem_of_join. exists (reactions c). split; [done|].
  apply list_elem_of_fmap. exists c. split; [done|]. by eapply list_elem_of_lookup_2.
Qed.

Lemma elem_of_pending_inv st r :
  r ∈ pending st →
  (∃ i c, cells st !! i = Some c ∧ r ∈ reactions c) ∨ r ∈ queue st.
Proof.
  unfold pending. rewrite elem_of_app. intros [H|H]; [left|by right].
  apply list_elem_of_join in H as (rs & Hr & Hrs).
  apply list_elem_of_fmap in Hrs as (c & -> & Hc).
  apply list_elem_of_lookup in Hc as (i & Hi). eauto.
Qed.

Lemma wf_owing_zero a b st : wf_owing a 0 st → wf_owing b 0 st.
Proof.
  intros [H1 H2 H3 H4]. split; try done.
  intros i c Hc. rewrite (H3 i c Hc). by repeat case_decide.
Qed.

Lemma wf_owing_entities a k cs q e e' :
  wf_owing a k (PState cs q e) → wf_owing a k (PState cs q e').
Proof. intros [H1 H2 H3 H4]. split; done. Qed.

Lemma wf_new_promise n st :
  wf st → wf_owing (length (cells st)) n (new_promise n st).2.
Proof.
  intros [H1 H2 H3 H4].
  assert (∀ x, incoming x (new_promise n st).2 = incoming x st) as Hinc.
  { intros x. unfold incoming. by rewrite pending_new_promise. }
  split.
  - intros i c r Hc Hr. simpl in Hc.
    apply lookup_app_Some in Hc as [Hc|[_ Hc]]; [by eapply H1|].
    apply list_lookup_singleton_Some in Hc as [_ <-]. simpl in Hr. by apply elem_of_nil in Hr.
  - intros r Hr. rewrite pending_new_promise in Hr. apply H2 in Hr.
    simpl. rewrite length_app. simpl. lia.
  - intros i c Hc. rewrite Hinc. simpl in Hc.
    apply lookup_app_Some in Hc as [Hc|[Hge Hc]].
    + rewrite (H3 i c Hc). apply lookup_lt_Some in Hc. repeat case_decide; lia.
    + apply list_lookup_singleton_Some in Hc as [Hi <-]. simpl.
      assert (i = length (cells st)) as -> by lia.
      unfold incoming. rewrite count_target_none.
      * case_decide; [lia|done].
      * intros r Hr Ht. apply H2 in Hr. lia.
  - intros i c Hc Hz. simpl in Hc.
    apply lookup_app_Some in Hc as [Hc|[_ Hc]]; [by eapply H4|].
    by apply list_lookup_singleton_Some in Hc as [_ <-].
Qed.

Lemma length_cells_subscribe p r st : length (cells (subscribe p r st)) = length (cells st).
Proof.
  unfold subscribe. destruct (cells st !! p) as [c|]; [|done].
  destruct (remaining c); simpl; [done|]. by rewrite length_insert.
Qed.

Lemma length_cells_deliver p st : length (cells (deliver p st)) = length (cells st).
Proof.
  unfold deliver. destruct (cells st !! p) as [c|]; [|done].
  destruct (remaining c) as [|[|k]]; simpl; by rewrite ?length_insert.
Qed.

Lemma entities_subscribe p r st : entityWithIds (subscribe p r st) = entityWithIds st.
Proof.
  unfold subscribe. destruct (cells st !! p) as [c|]; [|done]. by destruct (remaining c).
Qed.

Lemma entities_deliver p st : entityWithIds (deliver p st) = entityWithIds st.
Proof.
  unfold deliver. destruct (cells st !! p) as [c|]; [|done].
  by destruct (remaining c) as [|[|k]].
Qed.

Lemma wf_subscribe a k p r st :
  wf_owing a (S k) st → p < a → a < length (cells st) → target r = a →
  wf_owing a k (subscribe p r st).
Proof.
  intros [H1 H2 H3 H4] Hpa Ha Hr.
  assert (p < length (cells st)) as Hp by lia.
  pose proof (pending_subscribe p r st Hp) as Hperm.
  assert (∀ x, incoming x (subscribe p r st)
               = (if decide (target r = x) then 1 else 0) + incoming x st) as Hinc.
  { intros x. unfold incoming. rewrite (count_target_perm _ _ _ Hperm).
    by rewrite count_target_cons. }
  split.
  - intros i c r0 Hc Hr0. revert Hc Hr0. unfold subscribe.
    destruct (cells st !! p) as [cp|] eqn:E; [|by eauto].
    destruct (remaining cp) eqn:Er; simpl; [by eauto|].
    destruct (decide (i = p)) as [->|Hne].
    + rewrite list_lookup_insert_eq by done. intros [= <-]. simpl.
      rewrite elem_of_app. intros [Hin|Hin]; [by eapply H1|].
      apply list_elem_of_singleton in Hin as ->. lia.
    + rewrite list_lookup_insert_ne by done. by eauto.
  - intros r0 Hr0. rewrite length_cells_subscribe. rewrite Hperm in Hr0.
    apply elem_of_cons in Hr0 as [->|Hr0]; [lia|by apply H2].
  - intros i c Hc. rewrite Hinc. revert Hc. unfold subscribe.
    destruct (cells st !! p) as [cp|] eqn:E; [|apply lookup_ge_None in E; lia].
    destruct (remaining cp) eqn:Er; simpl.
    + intros Hc. rewrite (H3 i c Hc). repeat case_decide; lia.
    + destruct (decide (i = p)) as [->|Hne].
      * rewrite list_lookup_insert_eq by done. intros [= <-]. simpl.
        rewrite <- Er. rewrite (H3 p cp E). repeat case_decide; lia.
      * rewrite list_lookup_insert_ne by done. intros Hc.
        rewrite (H3 i c Hc). repeat case_decide; lia.
  - intros i c. unfold subscribe.
    destruct (cells st !! p) as [cp|] eqn:E; [|by eauto].
    destruct (remaining cp) eqn:Er; simpl; [by eauto|].
    destruct (decide (i = p)) as [->|Hne].
    + rewrite list_lookup_insert_eq by done. intros [= <-]. simpl. lia.
    + rewrite list_lookup_insert_ne by done. by eauto.
Qed.

Lemma wf_deliver x st :
  wf_owing x 1 st → x < length (cells st) → wf_owing x 0 (deliver x st).
Proof.
  intros [H1 H2 H3 H4] Hx.
  pose proof (pending_deliver x st) as Hperm.
  assert (∀ i, incoming i (deliver x st) = incoming i st) as Hinc.
  { intros i. unfold incoming. by rewrite (count_target_perm _ _ _ Hperm). }
  destruct (cells st !! x) as [cx|] eqn:E; [|apply lookup_ge_None in E; lia].
  pose proof (H3 x cx E) as Hrem. rewrite decide_True in Hrem by done.
  split.
  - intros i c r. unfold deliver. rewrite E.
    destruct (remaining cx) as [|[|k]] eqn:Er; simpl; [by eauto| |].
    + destruct (decide (i = x)) as [->|Hne].
      * rewrite list_lookup_insert_eq by done. intros [= <-]. simpl. by intros ?%elem_of_nil.
      * rewrite list_lookup_insert_ne by done. by eauto.
    + destruct (decide (i = x)) as [->|Hne].
      * rewrite list_lookup_insert_eq by done. intros [= <-]. simpl. by eauto.
      * rewrite list_lookup_insert_ne by done. by eauto.
  - intros r Hr. rewrite length_cells_deliver. rewrite Hperm in Hr. by apply H2.
  - intros i c. rewrite Hinc. unfold deliver. rewrite E.
    destruct (remaining cx) as [|[|k]] eqn:Er; simpl; [lia| |].
    + destruct (decide (i = x)) as [->|Hne].
      * rewrite list_lookup_insert_eq by done. intros [= <-]. simpl. lia.
      * rewrite list_lookup_insert_ne by done. intros Hc. rewrite (H3 i c Hc).
        repeat case_decide; lia.
    + destruct (decide (i = x)) as [->|Hne].
      * rewrite list_lookup_insert_eq by done. intros [= <-]. simpl. lia.
      * rewrite list_lookup_insert_ne by done. intros Hc. rewrite (H3 i c Hc).
        repeat case_decide; lia.
  - intros i c. unfold deliver. rewrite E.
    destruct (remaining cx) as [|[|k]] eqn:Er; simpl; [lia| |].
    + destruct (decide (i = x)) as [->|Hne].
      * rewrite list_lookup_insert_eq by done. by intros [= <-].
      * rewrite list_lookup_insert_ne by done. by eauto.
    + destruct (decide (i = x)) as [->|Hne].
      * rewrite list_lookup_insert_eq by done. intros [= <-]. simpl. lia.
      * rewrite list_lookup_insert_ne by done. by eauto.
Qed.

Lemma subscribe_all_spec a ps : ∀ st,
  wf_owing a (length ps) st → (∀ p, p ∈ ps → p < a) → a < length (cells st) →
  let st' := foldl (λ s p, subscribe p (RElem a) s) st ps in
  wf_owing a 0 st' ∧ length (cells st') = length (cells st) ∧
  entityWithIds st' = entityWithIds st ∧
  pending st' ≡ₚ replicate (length ps) (RElem a) ++ pending st.
Proof.
  induction ps as [|p ps IH]; intros st Hwf Hps Ha; simpl.
  - done.
  - assert (p < a) as Hp by (apply Hps; left).
    destruct (IH (subscribe p (RElem a) st)) as (H1 & H2 & H3 & H4).
    + apply wf_subscribe; [done..|]. done.
    + intros q Hq. apply Hps. by right.
    + by rewrite length_cells_subscribe.
    + split; [done|]. split; [by rewrite H2, length_cells_subscribe|].
      split; [by rewrite H3, entities_subscribe|].
      rewrite H4, pending_subscribe by lia. by rewrite Permutation_middle.
Qed.

Lemma all_spec ps st :
  wf st → (∀ p, p ∈ ps → p < length (cells st)) →
  (all ps st).1 = length (cells st) ∧
  wf (all ps st).2 ∧
  length (cells (all ps st).2) = S (length (cells st)) ∧
  entityWithIds (all ps st).2 = entityWithIds st ∧
  pending (all ps st).2 ≡ₚ replicate (length ps) (RElem (length (cells st))) ++ pending st.
Proof.
  intros Hwf Hps. unfold all.
  pose proof (wf_new_promise (length ps) st Hwf) as Hn.
  destruct (new_promise (length ps) st) as [a st1] eqn:E.
  assert (a = length (cells st)) as -> by (by inversion E).
  assert (length (cells st1) = S (length (cells st))) as Hlen.
  { inversion E; subst. simpl. rewrite length_app. simpl. lia. }
  assert (entityWithIds st1 = entityWithIds st) as Hent by (by inversion E).
  assert (pending st1 = pending st) as Hpend.
  { pose proof (pending_new_promise (length ps) st) as Hp. by rewrite E in Hp. }
  simpl in Hn.
  destruct (subscribe_all_spec (length (cells st)) ps st1) as (H1 & H2 & H3 & H4);
    [done|done|lia|].
  simpl. split; [done|]. split; [by eapply wf_owing_zero|].
  split; [lia|]. split; [congruence|]. by rewrite H4, Hpend.
Qed.

Lemma then_record_spec p e md st :
  wf st → p < length (cells st) →
  (then_record p e md st).1 = length (cells st) ∧
  wf (then_record p e md st).2 ∧
  length (cells (then_record p e md st).2) = S (length (cells st)) ∧
  entityWithIds (then_record p e md st).2 = entityWithIds st ∧
  pending (then_record p e md st).2 ≡ₚ RThen e md (length (cells st)) :: pending st.
Proof.
  intros Hwf Hp. unfold then_record.
  pose proof (wf_new_promise 1 st Hwf) as Hn.
  destruct (new_promise 1 st) as [d st1] eqn:E.
  assert (d = length (cells st)) as -> by (by inversion E).
  assert (length (cells st1) = S (length (cells st))) as Hlen.
  { inversion E; subst. simpl. rewrite length_app. simpl. lia. }
  assert (entityWithIds st1 = entityWithIds st) as Hent by (by inversion E).
  assert (pending st1 = pending st) as Hpend.
  { pose proof (pending_new_promise 1 st) as Hq. by rewrite E in Hq. }
  simpl in *. split; [done|].
  split; [|split; [|split]].
  - eapply wf_owing_zero. apply wf_subscribe; [done|lia|lia|done].
  - by rewrite length_cells_subscribe.
  - by rewrite entities_subscribe.
  - rewrite pending_subscribe by lia. by rewrite Hpend.
Qed.

(** *** Running the queue *)

Lemma pending_run_job h r st : pending (run_job h r st) ≡ₚ pending st.
Proof. destruct r; simpl; by rewrite pending_deliver. Qed.

Lemma length_cells_run_job h r st : length (cells (run_job h r st)) = length (cells st).
Proof. destruct r; simpl; by rewrite length_cells_deliver. Qed.

Lemma wf_pop r q st :
  wf st → queue st = r :: q →
  wf_owing (target r) 1 (PState (cells st) q (entityWithIds st)) ∧
  target r < length (cells st).
Proof.
  intros [H1 H2 H3 H4] Hq.
  assert (pending st ≡ₚ r :: pending (PState (cells st) q (entityWithIds st))) as Hperm.
  { unfold pending. simpl. rewrite Hq. by rewrite Permutation_middle. }
  split; [split|].
  - done.
  - intros r0 Hr0. simpl. apply H2. rewrite Hperm. by right.
  - intros i c Hc. simpl in Hc. rewrite (H3 i c Hc).
    unfold incoming. rewrite (count_target_perm _ _ _ Hperm), count_target_cons.
    repeat case_decide; lia.
  - done.
  - apply H2. rewrite Hperm. by left.
Qed.

Lemma wf_run_job h r q st :
  wf st → queue st = r :: q →
  wf (run_job h r (PState (cells st) q (entityWithIds st))).
Proof.
  intros Hwf Hq. destruct (wf_pop r q st Hwf Hq) as [Ho Hlt].
  destruct r as [a|e md d]; simpl in *.
  - eapply wf_owing_zero. by apply wf_deliver.
  - eapply wf_owing_zero. apply wf_deliver; [|done].
    by eapply wf_owing_entities.
Qed.

Lemma wf_run_jobs h n : ∀ st, wf st → wf (run_jobs h n st).
Proof.
  induction n as [|n IH]; intros st Hwf; simpl; [done|].
  destruct (queue st) as [|r q] eqn:Hq; [done|].
  apply IH. by apply wf_run_job.
Qed.

Lemma length_cells_run_jobs h n : ∀ st, length (cells (run_jobs h n st)) = length (cells st).
Proof.
  induction n as [|n IH]; intros st; simpl; [done|].
  destruct (queue st) as [|r q]; [done|].
  by rewrite IH, length_cells_run_job.
Qed.

Lemma backlog_pending st : backlog st = length (pending st).
Proof.
  unfold backlog, pending. rewrite length_app.
  assert (sum_list_with (λ c, length (reactions c)) (cells st)
          = length (mjoin (reactions <$> cells st))) as ->; [|lia].
  induction (cells st) as [|c cs IH]; [done|].
  rewrite fmap_cons. cbn [mjoin list_join sum_list_with]. rewrite length_app. f_equal. exact IH.
Qed.

Lemma run_jobs_empties h n : ∀ st, length (pending st) ≤ n → queue (run_jobs h n st) = [].
Proof.
  induction n as [|n IH]; intros st Hn; simpl.
  - unfold pending in Hn. rewrite length_app in Hn.
    destruct (queue st); [done|simpl in Hn; lia].
  - destruct (queue st) as [|r q] eqn:Hq; [done|].
    apply IH. rewrite pending_run_job.
    unfold pending in *. simpl. rewrite Hq in Hn. rewrite length_app in *. simpl in Hn. lia.
Qed.

Lemma drain_empties h st : queue (drain h st) = [].
Proof. apply run_jobs_empties. by rewrite backlog_pending. Qed.

(** With nothing left in the queue, every promise of a well-formed table
    is fulfilled. *)
Lemma quiescent_all_fulfilled st :
  wf st → queue st = [] → ∀ i c, cells st !! i = Some c → remaining c = 0.
Proof.
  intros [H1 H2 H3 H4] Hq i.
  induction i as [i IH] using lt_wf_ind. intros c Hc.
  rewrite (H3 i c Hc). replace (if decide (i = 0) then 0 else 0) with 0 by (by case_decide). rewrite Nat.add_0_r.
  destruct (incoming i st) eqn:E; [done|].
  destruct (count_target_pos i (pending st)) as (r & Hr & Ht).
  { unfold incoming in E. lia. }
  apply elem_of_pending_inv in Hr as [(j & cj & Hj & Hrj)|Hr].
  - pose proof (H1 j cj r Hj Hrj) as Hlt. rewrite Ht in Hlt.
    pose proof (IH j Hlt cj Hj) as Hz. rewrite (H4 j cj Hj Hz) in Hrj.
    by apply elem_of_nil in Hrj.
  - rewrite Hq in Hr. by apply elem_of_nil in Hr.
Qed.

Section CollectProofs.

Variable h : heap.
Variable reg : registry.

#[local] Abbreviation reachable := (reachable h reg).
#[local] Abbreviation covers := (covers h reg).

Lemma grows_refl P st : grows P st st.
Proof. split; [done|]. split; [done|]. split; [done|]. intros; by left. Qed.

Lemma grows_trans P st1 st2 st3 : grows P st1 st2 → grows P st2 st3 → grows P st1 st3.
Proof.
  intros (A1 & A2 & A3 & A4) (B1 & B2 & B3 & B4).
  split; [lia|]. split; [congruence|]. split; [by eauto|].
  intros e md d Hin. destruct (B4 e md d Hin) as [Hin'|HP]; [|by right].
  by apply A4.
Qed.

Lemma grows_weaken (P Q : defined → EntityMetadata → Prop) st st' :
  (∀ e md, P e md → Q e md) → grows P st st' → grows Q st st'.
Proof.
  intros HPQ (A1 & A2 & A3 & A4). split; [done|]. split; [done|]. split; [done|].
  intros e md d Hin. destruct (A4 e md d Hin); [by left|right; by apply HPQ].
Qed.

Lemma covers_grows P st st' e md : grows P st st' → covers st e md → covers st' e md.
Proof.
  intros (_ & _ & A3 & _) Hc e' md' Hr. destruct (Hc e' md' Hr) as [d Hd].
  exists d. by apply A3.
Qed.

Lemma grows_all P ps st :
  wf st → (∀ p, p ∈ ps → p < length (cells st)) → grows P st (all ps st).2.
Proof.
  intros Hwf Hps. destruct (all_spec ps st Hwf Hps) as (_ & _ & Hl & He & Hp).
  split; [lia|]. split; [done|]. split.
  - intros r Hr. rewrite Hp. apply elem_of_app. by right.
  - intros e md d Hin. rewrite Hp in Hin. apply elem_of_app in Hin as [Hin|Hin]; [|by left].
    apply elem_of_replicate in Hin as [? _]. done.
Qed.

Lemma grows_then_record (P : defined → EntityMetadata → Prop) p e md st :
  wf st → p < length (cells st) → P e md → grows P st (then_record p e md st).2.
Proof.
  intros Hwf Hp HP. destruct (then_record_spec p e md st Hwf Hp) as (_ & _ & Hl & He & Hq).
  split; [lia|]. split; [done|]. split.
  - intros r Hr. rewrite Hq. by right.
  - intros e' md' d Hin. rewrite Hq in Hin.
    apply elem_of_cons in Hin as [Heq|Hin]; [|by left]. right. by inversion Heq; subst.
Qed.

(** [xs.map(f)] when every call of [f] keeps the table well formed, only
    adds to it, and establishes [Q] for its own result. *)
Lemma sync_map_spec {A B} (P : defined → EntityMetadata → Prop)
    (Q : A → B → pstate → Prop) (f : A → sync B) :
  (∀ x b st st', grows P st st' → Q x b st → Q x b st') →
  ∀ xs,
  (∀ x st b st', x ∈ xs → wf st → f x st = Some (b, st') →
                 wf st' ∧ grows P st st' ∧ Q x b st') →
  ∀ st bs st', wf st → sync_map f xs st = Some (bs, st') →
    wf st' ∧ grows P st st' ∧ Forall2 (λ x b, Q x b st') xs bs.
Proof.
  intros Hstable xs. induction xs as [|x xs IH]; intros Hf st bs st' Hwf Hrun.
  - inversion Hrun; subst. split; [done|]. split; [apply grows_refl|]. constructor.
  - simpl in Hrun. unfold sync_bind in Hrun.
    destruct (f x st) as [[b st1]|] eqn:E1; [|done].
    destruct (sync_map f xs st1) as [[bs' st2]|] eqn:E2; [|done].
    inversion Hrun; subst.
    destruct (Hf x st b st1) as (W1 & G1 & Q1); [by left|done|done|].
    destruct (IH (λ y s c s' Hy, Hf y s c s' (list_elem_of_further _ _ _ Hy)) st1 bs' st' W1 E2)
      as (W2 & G2 & Q2).
    split; [done|]. split; [by eapply grows_trans|].
    constructor; [by eapply Hstable|done].
Qed.

Lemma reachable_child e md relation c e' md' :
  relation ∈ md_relations md → c ∈ related_by h e relation →
  reachable c (inverseEntityMetadata reg relation) e' md' → reachable e md e' md'.
Proof. intros. by eapply reachable_via. Qed.

Lemma Forall2_elem_of_l {A B} (Q : A → B → Prop) xs bs x :
  Forall2 Q xs bs → x ∈ xs → ∃ b, b ∈ bs ∧ Q x b.
Proof.
  induction 1 as [|x0 b0 xs bs HQ _ IH]; intros Hx.
  - by apply elem_of_nil in Hx.
  - apply elem_of_cons in Hx as [->|Hx].
    + exists b0. split; [left|done].
    + destruct (IH Hx) as (b & Hb & Hq). exists b. split; [by right|done].
Qed.

Lemma Forall2_elem_of_r {A B} (Q : A → B → Prop) xs bs b :
  Forall2 Q xs bs → b ∈ bs → ∃ x, x ∈ xs ∧ Q x b.
Proof.
  induction 1 as [|x0 b0 xs bs HQ _ IH]; intros Hb.
  - by apply elem_of_nil in Hb.
  - apply elem_of_cons in Hb as [->|Hb].
    + exists x0. split; [left|done].
    + destruct (IH Hb) as (x & Hx & Hq). exists x. split; [by right|done].
Qed.

(** The descent: it leaves a well-formed table, subscribes exactly
    callbacks of entities reachable from [e], one at least for each of
    them, and returns a promise of the table. *)
Lemma extract_calls_spec depth : ∀ e md st p st',
  wf st → extract_calls h reg depth e md st = Some (p, st') →
  wf st' ∧ grows (reachable e md) st st' ∧ p < length (cells st') ∧ covers st' e md.
Proof.
  induction depth as [|depth IH]; intros e md st p st' Hwf Hrun; [done|].
  simpl in Hrun. unfold sync_bind at 1 in Hrun.
  match type of Hrun with
  | match sync_map ?f _ _ with _ => _ end = _ => set (F := f) in Hrun
  end.
  destruct (sync_map F (md_relations md) st) as [[promises st1]|] eqn:Emap; [|done].
  unfold sync_bind, sync_lift in Hrun.
  pose (Q := λ (relation : RelationMetadata) (b : option nat) (s : pstate),
          (∀ q, b = Some q → q < length (cells s)) ∧
          ∀ c, c ∈ related_by h e relation →
               covers s c (inverseEntityMetadata reg relation)).
  destruct (sync_map_spec (reachable e md) Q F) with
    (xs := md_relations md) (st := st) (bs := promises) (st' := st1)
    as (W1 & G1 & Q1); [| |done|done|].
  { intros x b s s' Hg [Hq1 Hq2]. split.
    - intros q Hq. specialize (Hq1 q Hq). destruct Hg as [? _]. lia.
    - intros c Hc. eapply covers_grows; [done|]. by apply Hq2. }
  { intros relation s b s' Hrel Hs HF. unfold F in HF.
    unfold Q, related_by.
    destruct (relation_value h e relation) as [| |d] eqn:Eval;
      [inversion HF; subst; split; [done|]; split; [apply grows_refl|];
       split; [done|]; by intros c ?%elem_of_nil ..|].
    destruct (truthy (VDef d)) eqn:Etr; simpl in HF;
      [|inversion HF; subst; split; [done|]; split; [apply grows_refl|];
        split; [done|]; by intros c ?%elem_of_nil].
    destruct (as_array h d) as [subEntities|] eqn:Earr.
    - unfold sync_bind at 1 in HF.
      destruct (sync_map (λ subEntity, extract_calls h reg depth subEntity
                  (inverseEntityMetadata reg relation)) subEntities s)
        as [[subPromises s1]|] eqn:Esub; [|done].
      unfold sync_bind, sync_lift, sync_ret in HF.
      pose (Q' := λ (sub : defined) (q : nat) (s : pstate),
              q < length (cells s) ∧ covers s sub (inverseEntityMetadata reg relation)).
      destruct (sync_map_spec (reachable e md) Q'
                  (λ subEntity, extract_calls h reg depth subEntity
                     (inverseEntityMetadata reg relation)))
        with (xs := subEntities) (st := s) (bs := subPromises) (st' := s1)
        as (W2 & G2 & Q2); [| |done|done|].
      { intros x q t t' Hg [Hq1 Hq2]. split.
        - destruct Hg as [? _]. lia.
        - by eapply covers_grows. }
      { intros sub t q t' Hsub Ht Hcall.
        destruct (IH _ _ _ _ _ Ht Hcall) as (Wt & Gt & Hq & Hcov).
        split; [done|]. split; [|done].
        eapply grows_weaken; [|done]. intros e' md' Hr.
        eapply reachable_via; [done| |done].
        unfold related_by. by rewrite Eval, Etr, Earr. }
      assert (∀ q, q ∈ subPromises → q < length (cells s1)) as Hsubs.
      { intros q Hq. destruct (Forall2_elem_of_r _ _ _ _ Q2 Hq) as (x & _ & [Hlt _]). done. }
      destruct (all_spec subPromises s1 W2 Hsubs) as (Ha & Wa & La & _ & _).
      pose proof (grows_all (reachable e md) subPromises s1 W2 Hsubs) as Ga.
      destruct (all subPromises s1) as [a s2] eqn:Eall. simpl in *.
      inversion HF; subst. split; [done|]. split; [by eapply grows_trans|]. split.
      + intros q [= <-]. lia.
      + intros c Hc. destruct (Forall2_elem_of_l _ _ _ _ Q2 Hc) as (q & _ & [_ Hcov]).
        by eapply covers_grows.
    - unfold sync_bind, sync_ret in HF.
      destruct (extract_calls h reg depth d (inverseEntityMetadata reg relation) s)
        as [[q s1]|] eqn:Ecall; [|done].
      inversion HF; subst.
      destruct (IH _ _ _ _ _ Hs Ecall) as (Wt & Gt & Hq & Hcov).
      split; [done|]. split.
      + eapply grows_weaken; [|done]. intros e' md' Hr.
        eapply reachable_via; [done| |done].
        unfold related_by. rewrite Eval, Etr, Earr. left.
      + split; [by intros ? [= <-]|].
        intros c Hc. apply list_elem_of_singleton in Hc as ->. done. }
  assert (∀ q, q ∈ omap id promises → q < length (cells st1)) as Hps.
  { intros q Hq. apply list_elem_of_omap in Hq as (b & Hb & Hid). simpl in Hid. subst b.
    destruct (Forall2_elem_of_r _ _ _ _ Q1 Hb) as (x & _ & [Hlt _]). by apply Hlt. }
  destruct (all_spec (omap id promises) st1 W1 Hps) as (Ha & Wa & La & _ & _).
  pose proof (grows_all (reachable e md) (omap id promises) st1 W1 Hps) as Ga.
  destruct (all (omap id promises) st1) as [a st2] eqn:Eall. simpl in *.
  assert (a < length (cells st2)) as Halt by lia.
  destruct (then_record_spec a e md st2 Wa Halt) as (Hd & Wd & Ld & _ & Hpd).
  pose proof (grows_then_record (reachable e md) a e md st2 Wa Halt (reachable_here h reg e md))
    as Gd.
  destruct (then_record a e md st2) as [d st3] eqn:Ethen. simpl in *.
  inversion Hrun; subst.
  split; [done|]. split; [eapply grows_trans; [|done]; by eapply grows_trans|].
  split; [lia|].
  intros e' md' Hr. inversion Hr as [|? ? relation c ? ? Hrel Hc Hr']; subst.
  - exists (length (cells st2)). rewrite Hpd. left.
  - destruct (Forall2_elem_of_l _ _ _ _ Q1 Hrel) as (b & _ & [_ Hcov]).
    assert (covers st' c (inverseEntityMetadata reg relation)) as Hfin.
    { eapply covers_grows; [exact Gd|]. eapply covers_grows; [exact Ga|]. by apply Hcov. }
    by apply Hfin.
Qed.

End CollectProofs.

Section DrainProofs.

Variable h : heap.
Variable reg : registry.

#[local] Abbreviation entry_of := (entry_of h).

Lemma existsb_entity e l :
  existsb (λ x, strict_eq (ewi_entity x) (VDef e)) l = true ↔ VDef e ∈ ewi_entity <$> l.
Proof.
  rewrite existsb_exists. rewrite list_elem_of_fmap. split.
  - intros (x & Hx & Heq). apply bool_decide_eq_true in Heq.
    exists x. split; [done|]. by apply list_elem_of_In.
  - intros (x & Heq & Hx). exists x. split; [by apply list_elem_of_In|].
    by apply bool_decide_eq_true.
Qed.

Lemma record_entity_entry e md l :
  record_entity h e md l = l ∧ VDef e ∈ ewi_entity <$> l
  ∨ record_entity h e md l = l ++ [entry_of e md] ∧ VDef e ∉ ewi_entity <$> l.
Proof.
  unfold record_entity.
  destruct (existsb _ l) eqn:E.
  - left. split; [done|]. by apply existsb_entity.
  - right. split; [done|]. intros Hin. apply existsb_entity in Hin. congruence.
Qed.

Lemma record_entity_recorded e md l : VDef e ∈ ewi_entity <$> record_entity h e md l.
Proof.
  destruct (record_entity_entry e md l) as [[-> H]|[-> H]]; [done|].
  rewrite fmap_app. apply elem_of_app. right. simpl. left.
Qed.

Lemma record_entity_keeps e md l x : x ∈ l → x ∈ record_entity h e md l.
Proof.
  intros Hx. destruct (record_entity_entry e md l) as [[-> H]|[-> H]]; [done|].
  apply elem_of_app. by left.
Qed.

Lemma record_entity_nodup e md l :
  NoDup (ewi_entity <$> l) → NoDup (ewi_entity <$> record_entity h e md l).
Proof.
  intros Hnd. destruct (record_entity_entry e md l) as [[-> H]|[-> H]]; [done|].
  rewrite fmap_app. apply NoDup_app. split; [done|]. split.
  - intros v Hv Hv'. simpl in Hv'. apply list_elem_of_singleton in Hv'. by subst.
  - simpl. apply NoDup_singleton.
Qed.

Lemma pending_pop r q st :
  queue st = r :: q → pending st ≡ₚ r :: pending (PState (cells st) q (entityWithIds st)).
Proof. intros Hq. unfold pending. simpl. rewrite Hq. by rewrite Permutation_middle. Qed.

Lemma collecting_run_job P r q st :
  collecting h P st → queue st = r :: q →
  collecting h P (run_job h r (PState (cells st) q (entityWithIds st))).
Proof.
  intros [H1 H2 H3] Hq. pose proof (pending_pop r q st Hq) as Hpop.
  assert (∀ e md d, RThen e md d ∈
            pending (run_job h r (PState (cells st) q (entityWithIds st))) → P e md) as H3'.
  { intros e md d Hin. rewrite pending_run_job in Hin.
    apply (H3 e md d). rewrite Hpop. by right. }
  destruct r as [a|e md d]; simpl in *.
  - split; [by rewrite entities_deliver|by rewrite entities_deliver|done].
  - assert (P e md) as HP by (apply (H3 e md d); rewrite Hpop; left).
    split; [| |done]; rewrite entities_deliver; simpl.
    + by apply record_entity_nodup.
    + intros x Hx. destruct (record_entity_entry e md (entityWithIds st)) as [[E _]|[E _]];
        rewrite E in Hx; [by apply H2|].
      apply elem_of_app in Hx as [Hx|Hx]; [by apply H2|].
      apply list_elem_of_singleton in Hx as ->. by exists e, md.
Qed.

Lemma tracked_run_job e r q st :
  tracked e st → queue st = r :: q →
  tracked e (run_job h r (PState (cells st) q (entityWithIds st))).
Proof.
  intros Ht Hq. pose proof (pending_pop r q st Hq) as Hpop.
  destruct Ht as [(md & d & Hin)|Hrec].
  - rewrite Hpop in Hin. apply elem_of_cons in Hin as [<-|Hin].
    + right. simpl. rewrite entities_deliver. simpl. apply record_entity_recorded.
    + left. exists md, d. by rewrite pending_run_job.
  - right. destruct r as [a|e' md' d']; simpl; rewrite entities_deliver; simpl; [done|].
    apply list_elem_of_fmap in Hrec as (x & -> & Hx).
    apply list_elem_of_fmap_2. by apply record_entity_keeps.
Qed.

Lemma collecting_run_jobs P n : ∀ st, collecting h P st → collecting h P (run_jobs h n st).
Proof.
  induction n as [|n IH]; intros st Hc; simpl; [done|].
  destruct (queue st) as [|r q] eqn:Hq; [done|].
  apply IH. by apply collecting_run_job.
Qed.

Lemma tracked_run_jobs e n : ∀ st, tracked e st → tracked e (run_jobs h n st).
Proof.
  induction n as [|n IH]; intros st Hc; simpl; [done|].
  destruct (queue st) as [|r q] eqn:Hq; [done|].
  apply IH. by apply tracked_run_job.
Qed.

Lemma quiescent_pending st : wf st → queue st = [] → pending st = [].
Proof.
  intros Hwf Hq. unfold pending. rewrite Hq, app_nil_r.
  pose proof (quiescent_all_fulfilled st Hwf Hq) as Hall.
  destruct Hwf as [_ _ _ H4].
  assert (∀ i c, cells st !! i = Some c → reactions c = []) as Hnil by eauto.
  clear -Hnil. induction (cells st) as [|c cs IH]; [done|].
  rewrite fmap_cons. simpl. rewrite (Hnil 0 c eq_refl). simpl.
  apply IH. intros i c' Hi. by apply (Hnil (S i)).
Qed.

Lemma wf_init l : wf (init l).
Proof.
  split; simpl.
  - intros i c r Hc. by rewrite lookup_nil in Hc.
  - intros r Hr. unfold pending in Hr. simpl in Hr. by apply elem_of_nil in Hr.
  - intros i c Hc. by rewrite lookup_nil in Hc.
  - intros i c Hc. by rewrite lookup_nil in Hc.
Qed.

(** Once the descent has returned, the promise of the outermost call is
    always fulfilled: the collection returns. *)
Lemma drain_fulfils depth e md l p st :
  extract_calls h reg depth e md (init l) = Some (p, st) →
  wf (drain h st) ∧ queue (drain h st) = [] ∧ fulfilled p (drain h st) = true.
Proof.
  intros Hrun.
  destruct (extract_calls_spec h reg depth e md (init l) p st (wf_init l) Hrun)
    as (Hwf & _ & Hp & _).
  assert (wf (drain h st)) as Hwf' by (by apply wf_run_jobs).
  pose proof (drain_empties h st) as Hq.
  split; [done|]. split; [done|].
  unfold fulfilled.
  destruct (cells (drain h st) !! p) as [c|] eqn:E.
  - apply bool_decide_eq_true. by eapply quiescent_all_fulfilled.
  - apply lookup_ge_None in E. unfold drain in E. rewrite length_cells_run_jobs in E. lia.
Qed.

Lemma extractObjectsById_returns depth e md l p st :
  extract_calls h reg depth e md (init l) = Some (p, st) →
  extractObjectsById h reg depth e md l = Some (entityWithIds (drain h st)).
Proof.
  intros Hrun. unfold extractObjectsById. rewrite Hrun.
  destruct (drain_fulfils depth e md l p st Hrun) as (_ & _ & ->). done.
Qed.

Lemma extractObjectsById_None depth e md l :
  extractObjectsById h reg depth e md l = None ↔
  extract_calls h reg depth e md (init l) = None.
Proof.
  split.
  - intros Hn. destruct (extract_calls h reg depth e md (init l)) as [[p st]|] eqn:E; [|done].
    by rewrite (extractObjectsById_returns _ _ _ _ _ _ E) in Hn.
  - intros Hn. unfold extractObjectsById. by rewrite Hn.
Qed.

(** C2, as the code has it.  A returned collection holds every entity
    reachable from the root exactly once when keyed by object reference:
    no two entries are for the same object, every reachable object has
    its entry, and every entry is the one of a reachable object, with the
    identity read from that object.  Distinct objects get distinct
    entries whatever their identities. *)
Theorem extractObjectsById_unique_by_reference depth e md res :
  extractObjectsById h reg depth e md [] = Some res →
  NoDup (ewi_entity <$> res) ∧
  (∀ e' md', reachable h reg e md e' md' → VDef e' ∈ ewi_entity <$> res) ∧
  (∀ x, x ∈ res → ∃ e' md', reachable h reg e md e' md' ∧ x = entry_of e' md').
Proof.
  intros Hres.
  destruct (extract_calls h reg depth e md (init [])) as [[p st]|] eqn:Hrun;
    [|by apply extractObjectsById_None in Hrun; congruence].
  rewrite (extractObjectsById_returns _ _ _ _ _ _ Hrun) in Hres. inversion Hres; subst.
  destruct (extract_calls_spec h reg depth e md (init []) p st (wf_init []) Hrun)
    as (Hwf & (_ & Hent & _ & Hnew) & Hp & Hcov).
  destruct (drain_fulfils depth e md [] p st Hrun) as (Hwf' & Hq & _).
  assert (collecting h (reachable h reg e md) st) as Hcol.
  { split.
    - rewrite Hent. simpl. constructor.
    - intros x Hx. rewrite Hent in Hx. simpl in Hx. by apply elem_of_nil in Hx.
    - intros e' md' d Hin. destruct (Hnew e' md' d Hin) as [Hin'|HP]; [|done].
      unfold pending in Hin'. simpl in Hin'. by apply elem_of_nil in Hin'. }
  apply (collecting_run_jobs _ (backlog st)) in Hcol. fold (drain h st) in Hcol.
  destruct Hcol as [C1 C2 C3].
  split; [done|]. split; [|done].
  intros e' md' Hr. destruct (Hcov e' md' Hr) as [d Hd].
  assert (tracked e' (drain h st)) as Ht.
  { apply tracked_run_jobs. left. by exists md', d. }
  destruct Ht as [(md1 & d1 & Hin)|Hrec]; [|done].
  rewrite (quiescent_pending _ Hwf' Hq) in Hin. by apply elem_of_nil in Hin.
Qed.

End DrainProofs.

Section Termination.

Variable h : heap.
Variable reg : registry.

Lemma sync_map_None {A B} (f : A → sync B) xs x :
  x ∈ xs → (∀ st, f x st = None) → ∀ st, sync_map f xs st = None.
Proof.
  intros Hx Hf. induction xs as [|x0 xs IH]; intros st.
  - by apply elem_of_nil in Hx.
  - simpl. unfold sync_bind. apply elem_of_cons in Hx as [<-|Hx].
    + by rewrite Hf.
    + destruct (f x0 st) as [[b st1]|]; [|done]. by rewrite IH.
Qed.

Lemma sync_map_total {A B} (f : A → sync B) xs :
  (∀ x st, x ∈ xs → is_Some (f x st)) → ∀ st, is_Some (sync_map f xs st).
Proof.
  induction xs as [|x0 xs IH]; intros Hf st; simpl; [by eexists|].
  unfold sync_bind. destruct (Hf x0 st) as [[b st1] ->]; [left|].
  destruct (IH (λ x s Hx, Hf x s (list_elem_of_further _ _ _ Hx)) st1) as [[bs st2] ->].
  by eexists.
Qed.

(** A call whose entity has a child on which the descent does not return
    does not return either. *)
Lemma extract_calls_child_None depth e md relation c :
  relation ∈ md_relations md → c ∈ related_by h e relation →
  (∀ st, extract_calls h reg depth c (inverseEntityMetadata reg relation) st = None) →
  ∀ st, extract_calls h reg (S depth) e md st = None.
Proof.
  intros Hrel Hc Hnone st. simpl. unfold sync_bind at 1.
  rewrite (sync_map_None _ _ relation Hrel); [done|].
  intros s. unfold related_by in Hc.
  destruct (relation_value h e relation) as [| |d]; [by apply elem_of_nil in Hc..|].
  destruct (truthy (VDef d)); simpl; [|by apply elem_of_nil in Hc].
  destruct (as_array h d) as [subEntities|].
  - unfold sync_bind at 1. by rewrite (sync_map_None _ _ c Hc).
  - apply list_elem_of_singleton in Hc as ->. unfold sync_bind. by rewrite Hnone.
Qed.

(** No call stack is deep enough for a graph in which some reachable
    entity leads back to itself. *)
Theorem extract_calls_cycle e1 md1 relation1 c1 :
  relation1 ∈ md_relations md1 → c1 ∈ related_by h e1 relation1 →
  reachable h reg c1 (inverseEntityMetadata reg relation1) e1 md1 →
  ∀ depth e md st, reachable h reg e md e1 md1 →
    extract_calls h reg depth e md st = None.
Proof.
  intros Hrel1 Hc1 Hback depth.
  induction depth as [|depth IH]; intros e md st Hr; [done|].
  inversion Hr as [|? ? relation c ? ? Hrel Hc Hr']; subst.
  - apply (extract_calls_child_None depth e1 md1 relation1 c1); [done..|].
    intros s. by apply IH.
  - apply (extract_calls_child_None depth e md relation c); [done..|].
    intros s. by apply IH.
Qed.

(** On a graph whose relations strictly decrease some rank, a call stack
    deeper than the rank of the root suffices. *)
Theorem extract_calls_terminates (rank : defined → EntityMetadata → nat) :
  (∀ e md relation c, relation ∈ md_relations md → c ∈ related_by h e relation →
     rank c (inverseEntityMetadata reg relation) < rank e md) →
  ∀ depth e md st, rank e md < depth → is_Some (extract_calls h reg depth e md st).
Proof.
  intros Hrank depth. induction depth as [|depth IH]; intros e md st Hlt; [lia|].
  simpl. unfold sync_bind at 1.
  match goal with
  | |- is_Some (match sync_map ?f _ _ with _ => _ end) => set (F := f)
  end.
  destruct (sync_map_total F (md_relations md)) with (st := st) as [[promises st1] ->].
  { intros relation s Hrel. unfold F.
    pose proof (Hrank e md relation) as Hchild. unfold related_by in Hchild.
    destruct (relation_value h e relation) as [| |d]; [by eexists..|].
    destruct (truthy (VDef d)); simpl; [|by eexists].
    destruct (as_array h d) as [subEntities|].
    - unfold sync_bind at 1.
      destruct (sync_map_total
                  (λ subEntity, extract_calls h reg depth subEntity
                                  (inverseEntityMetadata reg relation)) subEntities)
        with (st := s) as [[subPromises s1] ->].
      { intros sub t Hsub. apply IH. specialize (Hchild sub Hrel Hsub). lia. }
      unfold sync_bind, sync_lift, sync_ret. by eexists.
    - unfold sync_bind, sync_ret.
      destruct (IH d (inverseEntityMetadata reg relation) s) as [[q s1] ->].
      { specialize (Hchild d Hrel (list_elem_of_here _ _)). lia. }
      by eexists. }
  unfold sync_bind, sync_lift. by eexists.
Qed.

(** X21. On an object graph whose relations strictly decrease some rank,
    that is one without a cycle, [extractObjectsById] returns as soon as
    the call stack allows a depth above the rank of the root. *)
Corollary extractObjectsById_terminates (rank : defined → EntityMetadata → nat) :
  (∀ e md relation c, relation ∈ md_relations md → c ∈ related_by h e relation →
     rank c (inverseEntityMetadata reg relation) < rank e md) →
  ∀ depth e md l, rank e md < depth → is_Some (extractObjectsById h reg depth e md l).
Proof.
  intros Hrank depth e md l Hlt.
  destruct (extract_calls_terminates rank Hrank depth e md (init l) Hlt) as [[p st] Hrun].
  rewrite (extractObjectsById_returns _ _ _ _ _ _ _ _ Hrun). by eexists.
Qed.

End Termination.

(** ** Relation mutation *)

Section RelationMutationProofs.

Variable RelationName : Type.
Variable computePropertyName : EntityMetadata → RelationName → string.
Variable metadata : EntityMetadata.

Lemma with_relation_found relationName relation k :
  findRelationWithPropertyName metadata (computePropertyName metadata relationName)
    = Some relation →
  with_relation RelationName computePropertyName metadata relationName k
    = k (computePropertyName metadata relationName) relation.
Proof.
  intros Hfind. unfold with_relation. rewrite Hfind.
  assert (hasRelationWithPropertyName metadata (computePropertyName metadata relationName)
          = true) as ->; [|done].
  unfold findRelationWithPropertyName in Hfind. apply find_some in Hfind as [Hin Hp].
  unfold hasRelationWithPropertyName. apply existsb_exists. eauto.
Qed.

Lemma prefix_app (b c : string) : String.prefix b (b +:+ c) = true.
Proof.
  induction b as [|a b IH]; simpl; [by destruct c|].
  destruct (Ascii.ascii_dec a a); [done|congruence].
Qed.

Lemma contains_prefix (s needle : string) :
  String.prefix needle s = true → contains s needle = true.
Proof. intros H. destruct s; cbn [contains]; by rewrite H. Qed.

Lemma contains_tail x (s needle : string) :
  contains s needle = true → contains (String x s) needle = true.
Proof. intros H. cbn [contains]. rewrite H. apply orb_true_r. Qed.

Lemma contains_app (a b c : string) : contains (a +:+ b +:+ c) b = true.
Proof.
  induction a as [|x a IH].
  - apply contains_prefix. exact (prefix_app b c).
  - apply (contains_tail x (a +:+ b +:+ c)). exact IH.
Qed.

Lemma append_assoc (a b c : string) : (a +:+ b) +:+ c = a +:+ b +:+ c.
Proof.
  induction a as [|x a IH]; [done|].
  change (String x ((a +:+ b) +:+ c) = String x (a +:+ b +:+ c)). by rewrite IH.
Qed.

Lemma only_many_to_many_names propertyName relation :
  names (only_many_to_many_supported metadata propertyName relation) (md_name metadata) = true ∧
  names (only_many_to_many_supported metadata propertyName relation) propertyName = true.
Proof.
  unfold only_many_to_many_supported, names. split.
  - apply contains_app.
  - rewrite <- (append_assoc (md_name metadata) "#").
    rewrite <- (append_assoc _ (md_name metadata +:+ "#")).
    apply contains_app.
Qed.

End RelationMutationProofs.

(** * Properties of the repository methods *)

(** ** Relation mutation *)

(** C3. On a many-to-many relation, [removeFromRelation] given an empty
    list of related ids, or [null] or [undefined] in its place, resolves
    without issuing any request: no delete reaches the junction table. *)
Theorem removeFromRelation_empty_is_noop
    (RelationName : Type) (computePropertyName : EntityMetadata → RelationName → string)
    (metadata : EntityMetadata) (relationName : RelationName) (relation : RelationMetadata)
    (entityId : value) :
  findRelationWithPropertyName metadata (computePropertyName metadata relationName)
    = Some relation →
  isManyToMany relation = true →
  removeFromRelation RelationName computePropertyName metadata relationName entityId (Some [])
    = Issued [] ∧
  removeFromRelation RelationName computePropertyName metadata relationName entityId None
    = Issued [].
Proof.
  intros Hfind Hmany. unfold removeFromRelation.
  rewrite (with_relation_found _ _ _ _ _ _ Hfind). rewrite Hmany. simpl. done.
Qed.

Lemma removeFromRelation_empty_is_noop_witness :
  removeFromRelation string Ex.by_string Ex.Post "categories"%string (VNum 1) (Some [])
    = Issued [] ∧
  removeFromRelation string Ex.by_string Ex.Post "categories"%string (VNum 1) None
    = Issued [].
Proof.
  apply (removeFromRelation_empty_is_noop string Ex.by_string Ex.Post "categories"%string
           (Ex.to_many true "Post" "categories" "Category" "post_categories") (VNum 1));
    reflexivity.
Defined.

(** C5, as the code has it.  A many-to-many-only method on a relation of
    another kind throws an error whose message names the entity and the
    relation; a single-valued method on a many-to-many relation throws a
    fixed message; in each case nothing is issued to the driver. *)
Theorem relation_kind_mismatch_errors
    (RelationName : Type) (computePropertyName : EntityMetadata → RelationName → string)
    (metadata : EntityMetadata) (relationName : RelationName) (relation : RelationMetadata)
    (a b : value) (ids : option (list value)) :
  findRelationWithPropertyName metadata (computePropertyName metadata relationName)
    = Some relation →
  (isManyToMany relation = false →
     ∃ e, addToRelation RelationName computePropertyName metadata relationName a ids = Threw e ∧
          removeFromRelation RelationName computePropertyName metadata relationName a ids
            = Threw e ∧
          names e (md_name metadata) = true ∧
          names e (computePropertyName metadata relationName) = true) ∧
  (isManyToMany relation = true →
     setRelation RelationName computePropertyName metadata relationName a b
       = Threw many_to_many_not_supported ∧
     setInverseRelation RelationName computePropertyName metadata relationName a b
       = Threw many_to_many_not_supported).
Proof.
  intros Hfind. split; intros Hkind.
  - exists (only_many_to_many_supported metadata
              (computePropertyName metadata relationName) relation).
    unfold addToRelation, removeFromRelation.
    rewrite !(with_relation_found _ _ _ _ _ _ Hfind). rewrite Hkind. simpl.
    split; [done|]. split; [done|]. apply only_many_to_many_names.
  - unfold setRelation, setInverseRelation.
    rewrite !(with_relation_found _ _ _ _ _ _ Hfind). by rewrite Hkind.
Qed.

Lemma relation_kind_mismatch_errors_witness :
  (∃ e, addToRelation string Ex.by_string Ex.Post "author"%string (VNum 1) (Some [VNum 2])
          = Threw e ∧
        removeFromRelation string Ex.by_string Ex.Post "author"%string (VNum 1)
          (Some [VNum 2]) = Threw e ∧
        names e "Post" = true ∧ names e "author" = true) ∧
  (setRelation string Ex.by_string Ex.Post "categories"%string (VNum 1) (VNum 2)
     = Threw many_to_many_not_supported ∧
   setInverseRelation string Ex.by_string Ex.Post "categories"%string (VNum 1) (VNum 2)
     = Threw many_to_many_not_supported).
Proof.
  split.
  - destruct (relation_kind_mismatch_errors string Ex.by_string Ex.Post "author"%string
                (Ex.to_one "Post" "author" "Author") (VNum 1) (VNum 2) (Some [VNum 2]))
      as [H _]; [reflexivity|]. apply H. reflexivity.
  - destruct (relation_kind_mismatch_errors string Ex.by_string Ex.Post "categories"%string
                (Ex.to_many true "Post" "categories" "Category" "post_categories")
                (VNum 1) (VNum 2) None)
      as [_ H]; [reflexivity|]. apply H. reflexivity.
Defined.

(** C5 as stated fails: [setRelation] on the many-to-many relation
    [categories] of [Post] throws, and the message names neither. *)
Lemma setRelation_error_names_nothing :
  ∃ e, setRelation string Ex.by_string Ex.Post "categories"%string (VNum 1) (VNum 2) = Threw e ∧
       names e "categories" = false ∧ names e "Post" = false.
Proof. eexists. split; [reflexivity|]. split; vm_compute; reflexivity. Qed.

(** What [removeFromRelation] issues for two related ids: one delete with a
    clause and a parameter for each. *)
Example removeFromRelation_two_ids :
  removeFromRelation string Ex.by_string Ex.Post "categories"%string (VNum 1)
    (Some [VNum 10; VNum 20])
  = Issued [ExecuteDelete
      {| q_alias := "junctionEntity";
         q_table := "post_categories";
         q_orWhere := [ "(postId=:entityId AND categoryId=:relatedEntity_0)"%string;
                        "(postId=:entityId AND categoryId=:relatedEntity_1)"%string ];
         q_parameters := [ ("relatedEntity_0"%string, VNum 10);
                           ("relatedEntity_1"%string, VNum 20);
                           ("entityId"%string, VNum 1) ] |}].
Proof. vm_compute. reflexivity. Qed.

(** C8. Every insert that [addToRelation] issues goes to the junction table
    and fills its two columns: from the owning side the owner's id goes to
    the first column and the related id to the second, from the inverse
    side the two are swapped. *)
Theorem addToRelation_column_order
    (RelationName : Type) (computePropertyName : EntityMetadata → RelationName → string)
    (metadata : EntityMetadata) (relationName : RelationName) (relation : RelationMetadata)
    (junction : JunctionMetadata) (column0 column1 : ColumnMetadata)
    (entityId : value) (relatedEntityIds : list value) :
  findRelationWithPropertyName metadata (computePropertyName metadata relationName)
    = Some relation →
  isManyToMany relation = true →
  rel_junction relation = Some junction →
  junction_columns junction !! 0 = Some column0 →
  junction_columns junction !! 1 = Some column1 →
  col_name column0 ≠ col_name column1 →
  ∃ values : value → gmap string value,
    addToRelation RelationName computePropertyName metadata relationName entityId
      (Some relatedEntityIds)
    = Issued (map (λ relatedEntityId,
                DriverInsert (junction_table junction) (values relatedEntityId))
                relatedEntityIds) ∧
    ∀ relatedEntityId,
      dom (values relatedEntityId) = {[ col_name column0; col_name column1 ]} ∧
      if rel_isOwning relation
      then values relatedEntityId !! col_name column0 = Some entityId ∧
           values relatedEntityId !! col_name column1 = Some relatedEntityId
      else values relatedEntityId !! col_name column0 = Some relatedEntityId ∧
           values relatedEntityId !! col_name column1 = Some entityId.
Proof.
  intros Hfind Hmany Hj H0 H1 Hne.
  exists (junction_values (rel_isOwning relation) (col_name column0) (col_name column1) entityId).
  split.
  - unfold addToRelation. rewrite (with_relation_found _ _ _ _ _ _ Hfind).
    rewrite Hmany. simpl. unfold junction_of. rewrite Hj, H0, H1.
    by destruct relatedEntityIds.
  - intros relatedEntityId. unfold junction_values, assign.
    destruct (rel_isOwning relation).
    + split; [|split; by simplify_map_eq].
      rewrite !dom_insert_L, dom_empty_L, (right_id_L ∅ (∪)). apply (comm_L (∪)).
    + split; [|split; by simplify_map_eq].
      by rewrite !dom_insert_L, dom_empty_L, (right_id_L ∅ (∪)).
Qed.

Lemma addToRelation_column_order_witness :
  ∃ values : value → gmap string value,
    addToRelation string Ex.by_string Ex.Post "categories"%string (VNum 1)
      (Some [VNum 10; VNum 20])
    = Issued (map (λ relatedEntityId, DriverInsert "post_categories" (values relatedEntityId))
                [VNum 10; VNum 20]) ∧
    ∀ relatedEntityId,
      dom (values relatedEntityId) = {[ "postId"%string; "categoryId"%string ]} ∧
      values relatedEntityId !! "postId"%string = Some (VNum 1) ∧
      values relatedEntityId !! "categoryId"%string = Some relatedEntityId.
Proof.
  apply (addToRelation_column_order string Ex.by_string Ex.Post "categories"%string
           (Ex.to_many true "Post" "categories" "Category" "post_categories")
           {| junction_table := "post_categories";
              junction_columns :=
                [ {| col_name := "postId"; col_propertyName := "postId" |};
                  {| col_name := "categoryId"; col_propertyName := "categoryId" |} ] |}
           {| col_name := "postId"; col_propertyName := "postId" |}
           {| col_name := "categoryId"; col_propertyName := "categoryId" |}
           (VNum 1) [VNum 10; VNum 20]); try reflexivity.
  simpl. discriminate.
Defined.

(** ** Asynchronous methods *)

Section AsyncProofs.

Context {Storage PersistOperation : Type}.
#[local] Abbreviation async := (async Storage PersistOperation).
Implicit Types P : call PersistOperation → Prop.

Lemma andThen_Some {A B} (m : async A) (f : A → async B) w r w' t :
  andThen m f w = Some (r, w', t) →
  (∃ a w1 t1 t2, m w = Some (Fulfilled a, w1, t1) ∧ f a w1 = Some (r, w', t2) ∧
                 t = t1 ++ t2) ∨
  (∃ e, m w = Some (Rejected e, w', t) ∧ r = Rejected e).
Proof.
  unfold andThen. destruct (m w) as [[[[a|e] w1] t1]|]; [| |done].
  - destruct (f a w1) as [[[r2 w2] t2]|] eqn:E; [|done].
    intros [= <- <- <-]. left. by exists a, w1, t1, t2.
  - intros [= <- <- <-]. right. by exists e.
Qed.

Lemma emits_resolve {A} P (a : A) : emits P (resolve (Storage:=Storage) a).
Proof. intros w r w' t [= <- <- <-]. constructor. Qed.

Lemma emits_throw {A} P e : emits P (throw (Storage:=Storage) (A:=A) e).
Proof. intros w r w' t [= <- <- <-]. constructor. Qed.

Lemma emits_read_heap P : emits P (read_heap (Storage:=Storage)).
Proof. intros w r w' t [= <- <- <-]. constructor. Qed.

Lemma emits_write_heap P f : emits P (write_heap (Storage:=Storage) f).
Proof. intros w r w' t [= <- <- <-]. constructor. Qed.

Lemma emits_invoke {A} P c (f : external Storage A) :
  P c → emits P (invoke c f).
Proof.
  intros HP w r w' t. unfold invoke. destruct (f w). intros [= <- <- <-].
  by constructor.
Qed.

Lemma emits_andThen {A B} P (m : async A) (f : A → async B) :
  emits P m → (∀ a, emits P (f a)) → emits P (andThen m f).
Proof.
  intros Hm Hf w r w' t Hrun.
  apply andThen_Some in Hrun as [(a & w1 & t1 & t2 & H1 & H2 & ->)|(e & H1 & _)].
  - apply Forall_app. split; [by eapply Hm|by eapply Hf].
  - by eapply Hm.
Qed.

Lemma emits_collect P reg depth e md : emits (Storage:=Storage) P (collect reg depth e md).
Proof.
  intros w r w' t. unfold collect.
  destruct (extractObjectsById _ _ _ _ _ _); [|done]. intros [= <- <- <-]. constructor.
Qed.

Lemma emits_gather {A} P (ps : list (async A)) :
  (∀ p, p ∈ ps → emits P p) → emits P (gather ps).
Proof.
  induction ps as [|p ps IH]; intros Hps w r w' t; simpl.
  - intros [= <- <- <-]. constructor.
  - destruct (p w) as [[[r1 w1] t1]|] eqn:E1; [|done].
    destruct (gather ps w1) as [[[r2 w2] t2]|] eqn:E2; [|done].
    intros [= <- <- <-]. apply Forall_app. split.
    + eapply (Hps p); [left|done].
    + eapply IH; [|done]. intros q Hq. apply Hps. by right.
Qed.

Lemma collect_Some reg depth e md (w : world Storage) r w' (t : list (call PersistOperation)) :
  collect reg depth e md w = Some (r, w', t) →
  w' = w ∧ t = [] ∧ ∃ l, r = Fulfilled l ∧
    extractObjectsById (w_heap w) reg depth e md [] = Some l.
Proof.
  unfold collect. destruct (extractObjectsById _ _ _ _ _ _) as [l|]; [|done].
  intros [= <- <- <-]. eauto.
Qed.

End AsyncProofs.

Section TransactionProofs.

Context {Storage PersistOperation : Type}.
Variable beginTransaction commitTransaction rollbackTransaction : external Storage unit.
Variable runInTransaction : async Storage PersistOperation value.

#[local] Abbreviation attempt :=
  (transaction_attempt beginTransaction commitTransaction runInTransaction).
#[local] Abbreviation transaction' :=
  (transaction Storage PersistOperation beginTransaction commitTransaction
     rollbackTransaction runInTransaction).

Lemma transaction_fulfilled w v w1 t1 :
  attempt w = Some (Fulfilled v, w1, t1) →
  transaction' w = Some (Fulfilled v, w1, t1).
Proof.
  intros Hat. unfold transaction, andThen at 1, catch at 1.
  fold attempt. rewrite Hat. simpl. by rewrite app_nil_r.
Qed.

(** C4, as the code has it.  When beginning, running or committing
    rejects, the rollback is called next and the transaction rejects with
    that same error, whether the rollback fulfils or rejects: an error of
    the rollback is dropped. *)
Theorem transaction_rethrows_original w err w1 t1 :
  transaction_attempt beginTransaction commitTransaction runInTransaction w
    = Some (Rejected err, w1, t1) →
  transaction Storage PersistOperation beginTransaction commitTransaction
    rollbackTransaction runInTransaction w
  = Some (Rejected err, (rollbackTransaction w1).2, t1 ++ [CallRollbackTransaction]).
Proof.
  intros Hat. unfold transaction, andThen at 1, catch at 1.
  fold attempt. rewrite Hat.
  unfold catch, andThen, invoke, throw.
  destruct (rollbackTransaction w1) as [[[]|e2] w2]; simpl; by rewrite ?app_nil_r.
Qed.

End TransactionProofs.

Section PersistProofs.

Context {Storage PersistOperation : Type}.
Variable reg : registry.
Variable metadata : EntityMetadata.
Variable getEntityId : EntityMetadata → heap → value → value.
Variable preload : defined → external Storage value.
Variable findOneById : string → value → external Storage value.
Variable buildFullPersistment :
  EntityMetadata → EntityWithId → EntityWithId →
  list EntityWithId → list EntityWithId → external Storage PersistOperation.
Variable buildOnlyRemovement :
  EntityMetadata → EntityWithId → EntityWithId →
  list EntityWithId → list EntityWithId → external Storage PersistOperation.
Variable executePersistOperation : PersistOperation → external Storage unit.

Implicit Types P : call PersistOperation → Prop.

#[local] Abbreviation findNotLoadedIds' :=
  (findNotLoadedIds Storage PersistOperation reg findOneById).
#[local] Abbreviation persist' :=
  (persist Storage PersistOperation reg metadata getEntityId preload findOneById
     buildFullPersistment executePersistOperation).
#[local] Abbreviation remove' :=
  (remove Storage PersistOperation reg metadata getEntityId preload
     buildOnlyRemovement executePersistOperation).

Lemma emits_findNotLoadedIds P dbEntities persistedEntities :
  (∀ target id, P (CallFindOneById target id)) →
  emits P (findNotLoadedIds' dbEntities persistedEntities).
Proof.
  intros HP. unfold findNotLoadedIds.
  apply emits_andThen; [|intros; apply emits_resolve].
  apply emits_gather. intros p Hp.
  apply list_elem_of_In, in_map_iff in Hp as (e & <- & _). unfold load_missing.
  apply emits_andThen; [by apply emits_invoke|].
  intros [| |d]; try apply emits_resolve.
  destruct (negb _); [apply emits_resolve|].
  apply emits_andThen; [apply emits_read_heap|]. intros; apply emits_resolve.
Qed.

Lemma andThen_resolve {A B} (a : A) (f : A → async Storage PersistOperation B) w r w' t :
  andThen (resolve a) f w = Some (r, w', t) → f a w = Some (r, w', t).
Proof.
  unfold andThen, resolve. destruct (f a w) as [[[r2 w2] t2]|]; [|done].
  by intros [= <- <- <-].
Qed.

Lemma andThen_read_heap {B} (f : heap → async Storage PersistOperation B) w r w' t :
  andThen read_heap f w = Some (r, w', t) → f (w_heap w) w = Some (r, w', t).
Proof.
  unfold andThen, read_heap. destruct (f (w_heap w) w) as [[[r2 w2] t2]|]; [|done].
  by intros [= <- <- <-].
Qed.

Lemma andThen_collect {B} depth e md (f : list EntityWithId → async Storage PersistOperation B)
    w r w' t :
  andThen (collect reg depth e md) f w = Some (r, w', t) →
  ∃ l, extractObjectsById (w_heap w) reg depth e md [] = Some l ∧ f l w = Some (r, w', t).
Proof.
  intros Hrun.
  apply andThen_Some in Hrun as [(l & w1 & t1 & t2 & H1 & H2 & ->)|(e' & H1 & _)].
  - apply collect_Some in H1 as (-> & -> & l' & [= ->] & Hl). eauto.
  - apply collect_Some in H1 as (_ & _ & l' & Hl & _). done.
Qed.

Lemma persist_without_id depth entity w r w' t :
  hasId (w_heap w) metadata (VDef entity) = false →
  persist' depth entity w = Some (r, w', t) →
  Forall pure_insert_call t.
Proof.
  intros Hno Hrun. unfold persist in Hrun.
  apply andThen_collect in Hrun as (allPersistedEntities & _ & Hrun).
  apply andThen_read_heap in Hrun. rewrite Hno in Hrun.
  apply andThen_resolve in Hrun. revert Hrun.
  match goal with |- ?m w = _ → _ => assert (emits pure_insert_call m) as Hem end;
    [|by apply Hem].
  assert (∀ target id, pure_insert_call (PersistOperation:=PersistOperation)
                         (CallFindOneById target id)) as Hfind by (by split).
  apply emits_andThen; [apply emits_resolve|]. intros entityWithIds.
  apply emits_andThen; [by apply emits_findNotLoadedIds|]. intros allDbEntities.
  apply emits_andThen; [apply emits_read_heap|]. intros h'.
  apply emits_andThen; [apply emits_invoke|].
  - split; [done|]. by intros db pe adb ape [= <- _ _ _].
  - intros op. apply emits_andThen; [apply emits_invoke; by split|].
    intros; apply emits_resolve.
Qed.

Lemma persist_with_id depth entity w r w' t :
  hasId (w_heap w) metadata (VDef entity) = true →
  persist' depth entity w = Some (r, w', t) →
  ∃ t', t = CallPreload (VDef entity) :: t'.
Proof.
  intros Hid Hrun. unfold persist in Hrun.
  apply andThen_collect in Hrun as (allPersistedEntities & _ & Hrun).
  apply andThen_read_heap in Hrun. rewrite Hid in Hrun.
  apply andThen_Some in Hrun as [(a & w1 & t1 & t2 & H1 & H2 & ->)|(e' & H1 & _)];
    unfold invoke in H1; destruct (preload entity w); inversion H1; subst; eauto.
Qed.

Lemma hasId_own h v :
  hasId h metadata v = true →
  ∃ l x, v = VRef l ∧
         own (deref h l) !! col_propertyName (md_primaryColumn metadata) = Some x ∧
         x ≠ VNull ∧ x ≠ VUndefined ∧ x ≠ VStr ""%string.
Proof.
  unfold hasId. destruct v as [| |[p|l]]; simpl; rewrite ?andb_false_r; try done.
  rewrite !andb_true_iff, !negb_true_iff. unfold strict_eq, obj_get. simpl.
  intros (((Hown & H1) & H2) & H3).
  apply bool_decide_eq_true in Hown as [x Hx]. rewrite Hx in *.
  apply bool_decide_eq_false in H1, H2, H3. exists l, x. done.
Qed.

Lemma hasId_absent h d :
  hasOwnProperty h d (col_propertyName (md_primaryColumn metadata)) = false ∨
  get h d (col_propertyName (md_primaryColumn metadata)) = VNull ∨
  get h d (col_propertyName (md_primaryColumn metadata)) = VUndefined ∨
  get h d (col_propertyName (md_primaryColumn metadata)) = VStr ""%string →
  hasId h metadata (VDef d) = false.
Proof.
  unfold hasId. intros [-> | [-> | [-> | ->]]]; simpl;
    rewrite ?andb_false_r, ?andb_false_l; try done.
  all: destruct (hasOwnProperty _ _ _); by rewrite ?andb_false_r.
Qed.

(** The two filters of [findNotLoadedIds] keep the entities that need a
    lookup. *)
Lemma findNotLoadedIds_missing (dbEntities persistedEntities : list EntityWithId) :
  filter (λ entityWithId,
            negb (existsb (λ dbEntity,
                    bool_decide (ewi_entityTarget dbEntity = ewi_entityTarget entityWithId)
                    && strict_eq (ewi_id dbEntity) (ewi_id entityWithId)) dbEntities) = true)
    (filter (λ entityWithId,
               negb (strict_eq (ewi_id entityWithId) VNull)
               && negb (strict_eq (ewi_id entityWithId) VUndefined) = true)
       persistedEntities)
  = filter (needs_lookup dbEntities) persistedEntities.
Proof.
  rewrite list_filter_filter. apply list_filter_iff. intros e.
  unfold needs_lookup, strict_eq.
  rewrite andb_true_iff, !negb_true_iff, !bool_decide_eq_false.
  rewrite <- not_true_iff_false, existsb_exists, Exists_exists.
  split.
  - intros (Hno & H1 & H2). split; [done|]. split; [done|].
    intros (d & Hd & Ht & Hi). apply Hno. exists d. split; [by apply list_elem_of_In|].
    apply andb_true_iff. split; by apply bool_decide_eq_true.
  - intros (H1 & H2 & Hno). split; [|done].
    intros (d & Hd & Heq). apply andb_true_iff in Heq as [Ht Hi].
    apply bool_decide_eq_true in Ht, Hi. apply Hno. exists d.
    split; [by apply list_elem_of_In|done].
Qed.

#[local] Abbreviation load_missing' :=
  (load_missing Storage PersistOperation reg findOneById).

(** One lookup: the call is made, and its outcome decides the entry. *)
Lemma load_missing_spec (m : EntityWithId) w :
  ∃ r,
    load_missing' m w
    = Some (r, (findOneById (ewi_entityTarget m) (ewi_id m) w).2,
            [CallFindOneById (ewi_entityTarget m) (ewi_id m)]) ∧
    match (findOneById (ewi_entityTarget m) (ewi_id m) w).1 with
    | Fulfilled v =>
        ∃ opt, r = Fulfilled opt ∧
               ewi_entity <$> option_list opt = filter (λ v, truthy v = true) [v]
    | Rejected e => r = Rejected e
    end.
Proof.
  unfold load_missing, andThen, invoke.
  destruct (findOneById (ewi_entityTarget m) (ewi_id m) w) as [[v|e] w1]; simpl;
    [|by eexists].
  destruct v as [| |d]; [eexists; split; [done|]; exists None; split; [done|];
     by rewrite filter_cons_False by (simpl; discriminate)..|].
  destruct (truthy (VDef d)) eqn:Etr; cbn [negb].
  - eexists. split; [done|]. eexists. split; [done|]. simpl.
    rewrite filter_cons_True by done. done.
  - eexists. split; [done|]. exists None. split; [done|]. simpl.
    rewrite filter_cons_False by (by rewrite Etr). done.
Qed.

Lemma gather_lookups (missing : list EntityWithId) : ∀ w,
  ∃ r w' outcomes,
    gather (map load_missing' missing) w = Some (r, w', lookup_calls missing) ∧
    Forall2 (λ m o, ∃ wi, (findOneById (ewi_entityTarget m) (ewi_id m) wi).1 = o)
            missing outcomes ∧
    ∀ vs, outcomes = Fulfilled <$> vs →
      ∃ opts, r = Fulfilled opts ∧
              ewi_entity <$> omap id opts = filter (λ v, truthy v = true) vs.
Proof.
  induction missing as [|m ms IH]; intros w.
  - exists (Fulfilled []), w, []. split; [done|]. split; [constructor|].
    intros vs Hvs. destruct vs; [|done]. by exists [].
  - destruct (load_missing_spec m w) as (r1 & H1 & H2).
    destruct (IH (findOneById (ewi_entityTarget m) (ewi_id m) w).2)
      as (r2 & w2 & outs & G1 & G2 & G3).
    eexists _, w2, ((findOneById (ewi_entityTarget m) (ewi_id m) w).1 :: outs).
    split; [|split].
    + cbn [map gather]. rewrite H1, G1. reflexivity.
    + constructor; [by exists w|done].
    + intros vs Hvs. destruct vs as [|v vs]; [done|]. simpl in Hvs.
      injection Hvs as Hv Hvs. rewrite Hv in H2.
      destruct H2 as (opt & -> & Hopt). destruct (G3 vs Hvs) as (opts & -> & Hopts).
      exists (opt :: opts). split; [done|].
      change (v :: vs) with ([v] ++ vs). rewrite filter_app, <- Hopt, <- Hopts.
      destruct opt; done.
Qed.


(** *** [remove] *)

Lemma preserves_resolve {A} l p (a : A) :
  preserves l p (resolve (Storage:=Storage) (PersistOperation:=PersistOperation) a).
Proof. by intros w r w' t [= <- <- <-]. Qed.

Lemma preserves_throw {A} l p e :
  preserves l p (throw (Storage:=Storage) (PersistOperation:=PersistOperation) (A:=A) e).
Proof. by intros w r w' t [= <- <- <-]. Qed.

Lemma preserves_read_heap l p :
  preserves l p (read_heap (Storage:=Storage) (PersistOperation:=PersistOperation)).
Proof. by intros w r w' t [= <- <- <-]. Qed.

Lemma preserves_collect l p depth e md :
  preserves l p (collect (Storage:=Storage) (PersistOperation:=PersistOperation)
                   reg depth e md).
Proof. intros w r w' t Hrun. by apply collect_Some in Hrun as (-> & _). Qed.

Lemma preserves_invoke {A} l p c (f : external Storage A) :
  keeps l p f → preserves l p (invoke (PersistOperation:=PersistOperation) c f).
Proof.
  intros Hk w r w' t. unfold invoke. specialize (Hk w). destruct (f w) as [r1 w1].
  by intros [= <- <- <-].
Qed.

Lemma preserves_andThen {A B} l p (m : async Storage PersistOperation A)
    (f : A → async Storage PersistOperation B) :
  preserves l p m → (∀ a, preserves l p (f a)) → preserves l p (andThen m f).
Proof.
  intros Hm Hf w r w' t Hrun.
  apply andThen_Some in Hrun as [(a & w1 & t1 & t2 & H1 & H2 & ->)|(e & H1 & _)].
  - rewrite (Hf a _ _ _ _ H2). by eapply Hm.
  - by eapply Hm.
Qed.

Lemma set_prop_own h l p v : own (deref (set_prop h l p v) l) !! p = Some v.
Proof.
  unfold set_prop, deref at 1. rewrite lookup_insert_eq. simpl. apply lookup_insert_eq.
Qed.


End PersistProofs.

(** ** Graph collection *)

(** C1 fails on the code.  A category that is its own parent: whatever the
    depth allowed to the call stack, [extractObjectsById] does not return.
    The descent calls itself on the related object before any callback has
    recorded anything, so the test [entityWithIds.find(...)] comes too late
    to stop it. *)
Theorem extractObjectsById_self_reference_overflows :
  ∀ depth, extractObjectsById Ex.own_parent Ex.tree depth (DRef 1) Ex.TreeCategory [] = None.
Proof.
  intros depth. apply extractObjectsById_None.
  apply (extract_calls_cycle Ex.own_parent Ex.tree (DRef 1) Ex.TreeCategory
           (Ex.to_one "Category" "parent" "Category") (DRef 1)).
  - left.
  - vm_compute. left.
  - apply reachable_here.
  - apply reachable_here.
Qed.

(** The same for a post and a category that refer to each other. *)
Lemma extractObjectsById_mutual_reference_overflows :
  ∀ depth, extractObjectsById Ex.mutual Ex.linked depth (DRef 1) Ex.LinkedPost [] = None.
Proof.
  intros depth. apply extractObjectsById_None.
  apply (extract_calls_cycle Ex.mutual Ex.linked (DRef 1) Ex.LinkedPost
           (Ex.to_many true "Post" "categories" "Category" "post_categories") (DRef 3)).
  - left.
  - vm_compute. left.
  - apply (reachable_via _ _ (DRef 3) Ex.LinkedCategory
             (Ex.to_many false "Category" "posts" "Post" "post_categories") (DRef 1)).
    + left.
    + vm_compute. left.
    + apply reachable_here.
  - apply reachable_here.
Qed.

(** Without a cycle the collection returns, but an object that two paths
    lead to is walked once for each path: the country shared by the author
    and the editor of a post is visited twice. *)
Lemma extractObjectsById_walks_shared_object_twice :
  ∃ p st, extract_calls Ex.diamond Ex.blog 4 (DRef 1) Ex.Post (init []) = Some (p, st) ∧
          length (filter (λ c, c.1 = DRef 4) (calls_of st)) = 2 ∧
          is_Some (extractObjectsById Ex.diamond Ex.blog 4 (DRef 1) Ex.Post []).
Proof.
  eexists _, _. split; [vm_compute; reflexivity|]. split; [vm_compute; reflexivity|].
  vm_compute. by eexists.
Qed.

(** C2 as stated fails: two distinct objects for the same category row are
    both recorded, so two entries share entity type and identity. *)
Lemma extractObjectsById_twins_not_row_unique :
  extractObjectsById Ex.twins Ex.blog 3 (DRef 1) Ex.Post [] = Some Ex.twins_collected ∧
  ¬ row_unique Ex.twins_collected.
Proof.
  split; [vm_compute; reflexivity|].
  intros Hu.
  specialize (Hu 0 1 _ _ eq_refl eq_refl). simpl in Hu.
  assert (0 = 1) as Habs; [|discriminate].
  apply Hu. unfold same_row. simpl. repeat split; discriminate.
Qed.

Lemma extractObjectsById_unique_by_reference_witness :
  NoDup (ewi_entity <$> Ex.twins_collected) ∧
  (∀ e md, reachable Ex.twins Ex.blog (DRef 1) Ex.Post e md →
             VDef e ∈ ewi_entity <$> Ex.twins_collected) ∧
  (∀ x, x ∈ Ex.twins_collected →
     ∃ e md, reachable Ex.twins Ex.blog (DRef 1) Ex.Post e md ∧ x = entry_of Ex.twins e md).
Proof.
  apply (extractObjectsById_unique_by_reference Ex.twins Ex.blog 3 (DRef 1) Ex.Post).
  vm_compute. reflexivity.
Defined.

(** ** Transactions *)

(** C4 as stated fails: the run fails with one error, the rollback with
    another, and the rejection carries only the first. *)
Lemma transaction_rollback_error_lost :
  transaction unit unit (Ex.fulfils ()) (Ex.fulfils ()) (Ex.rejects Ex.connection_lost)
    (throw Ex.insert_failed) (World ∅ ())
  = Some (Rejected Ex.insert_failed, World ∅ (),
          [CallBeginTransaction; CallRollbackTransaction]) ∧
  (Ex.rejects (A:=unit) Ex.connection_lost (World ∅ ())).1 = Rejected Ex.connection_lost ∧
  ¬ surfaces (Rejected (A:=value) Ex.insert_failed) Ex.connection_lost.
Proof.
  split; [reflexivity|]. split; [reflexivity|].
  intros (x & [= <-] & Hc). vm_compute in Hc. discriminate.
Qed.

Lemma transaction_rethrows_original_witness :
  transaction unit unit (Ex.fulfils ()) (Ex.fulfils ()) (Ex.rejects Ex.connection_lost)
    (throw Ex.insert_failed) (World ∅ ())
  = Some (Rejected Ex.insert_failed, World ∅ (),
          [CallBeginTransaction; CallRollbackTransaction]).
Proof.
  apply (@transaction_rethrows_original unit unit (Ex.fulfils ()) (Ex.fulfils ())
           (Ex.rejects Ex.connection_lost) (throw Ex.insert_failed)
           (World ∅ ()) Ex.insert_failed (World ∅ ()) [CallBeginTransaction]).
  reflexivity.
Defined.

(** ** [persist] and [hasId] *)

(** C6. An entity whose identifier property is not its own, or is [null],
    [undefined] or the empty string, has no id; [persist] of an entity
    without id never calls [preload] and hands the plan builder a [null]
    database entity; and [preload] is called only for an entity with id. *)
Theorem persist_without_id_skips_load
    (Storage PersistOperation : Type) (reg : registry) (metadata : EntityMetadata)
    (getEntityId : EntityMetadata → heap → value → value)
    (preload : defined → external Storage value)
    (findOneById : string → value → external Storage value)
    (buildFullPersistment :
       EntityMetadata → EntityWithId → EntityWithId →
       list EntityWithId → list EntityWithId → external Storage PersistOperation)
    (executePersistOperation : PersistOperation → external Storage unit)
    (depth : nat) (entity : defined) (w w' : world Storage)
    (r : settled defined) (t : list (call PersistOperation)) :
  persist Storage PersistOperation reg metadata getEntityId preload findOneById
    buildFullPersistment executePersistOperation depth entity w = Some (r, w', t) →
  let columnName := col_propertyName (md_primaryColumn metadata) in
  (hasOwnProperty (w_heap w) entity columnName = false ∨
   get (w_heap w) entity columnName = VNull ∨
   get (w_heap w) entity columnName = VUndefined ∨
   get (w_heap w) entity columnName = VStr "" →
   hasId (w_heap w) metadata (VDef entity) = false) ∧
  (hasId (w_heap w) metadata (VDef entity) = false → Forall pure_insert_call t) ∧
  ((∃ x, CallPreload x ∈ t) → hasId (w_heap w) metadata (VDef entity) = true).
Proof.
  intros Hrun columnName. split; [apply hasId_absent|]. split.
  - intros Hno. by eapply persist_without_id.
  - intros [x Hx]. destruct (hasId (w_heap w) metadata (VDef entity)) eqn:E; [done|].
    pose proof (persist_without_id _ _ _ _ _ _ _ _ _ _ _ _ _ E Hrun) as Hall.
    rewrite Forall_forall in Hall. destruct (Hall _ Hx) as [Hne _]. by destruct (Hne x).
Qed.

Lemma persist_without_id_skips_load_witness :
  (hasId Ex.fresh Ex.Post (VRef 1) = false ∧
   ∃ r w' t, Ex.persist_plain Ex.fresh 2 (DRef 1) = Some (r, w', t) ∧
             Forall pure_insert_call t) ∧
  (hasId Ex.saved Ex.Post (VRef 1) = true ∧
   ∃ r w' t, Ex.persist_plain Ex.saved 2 (DRef 1) = Some (r, w', t) ∧
             CallPreload (VRef 1) ∈ t).
Proof.
  split.
  - assert (∃ r w' t, Ex.persist_plain Ex.fresh 2 (DRef 1) = Some (r, w', t))
      as (r & w' & t & Hrun).
    { eexists _, _, _. vm_compute. reflexivity. }
    destruct (persist_without_id_skips_load unit unit Ex.blog Ex.Post Ex.getEntityId
                (λ _, Ex.fulfils VNull) (λ _ _, Ex.fulfils VNull)
                (λ _ _ _ _ _, Ex.fulfils ()) (λ _, Ex.fulfils ())
                2 (DRef 1) (World Ex.fresh ()) w' r t Hrun) as (H1 & H2 & _).
    assert (hasId Ex.fresh Ex.Post (VRef 1) = false) as Hno.
    { apply H1. left. vm_compute. reflexivity. }
    split; [exact Hno|]. exists r, w', t. split; [exact Hrun|]. exact (H2 Hno).
  - assert (∃ r w' t, Ex.persist_plain Ex.saved 2 (DRef 1) = Some (r, w', t) ∧
                      CallPreload (VRef 1) ∈ t) as (r & w' & t & Hrun & Hin).
    { eexists _, _, _. split; [vm_compute; reflexivity|]. left. }
    destruct (persist_without_id_skips_load unit unit Ex.blog Ex.Post Ex.getEntityId
                (λ _, Ex.fulfils VNull) (λ _ _, Ex.fulfils VNull)
                (λ _ _ _ _ _, Ex.fulfils ()) (λ _, Ex.fulfils ())
                2 (DRef 1) (World Ex.saved ()) w' r t Hrun) as (_ & _ & H3).
    split; [apply H3; by exists (VRef 1)|]. exists r, w', t. split; [exact Hrun|exact Hin].
Defined.

(** C10. [hasId] holds only of an object that has the primary property as
    its own; an entity that merely inherits an identity has no id, and
    [persist] takes it through the path of a pure insert. *)
Theorem hasId_requires_own_property
    (Storage PersistOperation : Type) (reg : registry) (metadata : EntityMetadata)
    (getEntityId : EntityMetadata → heap → value → value)
    (preload : defined → external Storage value)
    (findOneById : string → value → external Storage value)
    (buildFullPersistment :
       EntityMetadata → EntityWithId → EntityWithId →
       list EntityWithId → list EntityWithId → external Storage PersistOperation)
    (executePersistOperation : PersistOperation → external Storage unit)
    (depth : nat) (l : loc) (w w' : world Storage)
    (r : settled defined) (t : list (call PersistOperation)) :
  own (deref (w_heap w) l) !! col_propertyName (md_primaryColumn metadata) = None →
  persist Storage PersistOperation reg metadata getEntityId preload findOneById
    buildFullPersistment executePersistOperation depth (DRef l) w = Some (r, w', t) →
  hasId (w_heap w) metadata (VRef l) = false ∧
  Forall pure_insert_call t ∧
  ∀ h v, hasId h metadata v = true →
         ∃ l' x, v = VRef l' ∧
                 own (deref h l') !! col_propertyName (md_primaryColumn metadata) = Some x.
Proof.
  intros Hown Hrun.
  assert (hasId (w_heap w) metadata (VRef l) = false) as Hno.
  { apply hasId_absent. left. simpl. rewrite Hown. apply bool_decide_eq_false.
    by intros [x Hx]. }
  split; [done|]. split; [by eapply persist_without_id|].
  intros h v Hid. apply hasId_own in Hid as (l' & x & -> & Hx & _). eauto.
Qed.

Lemma hasId_requires_own_property_witness :
  get Ex.inherited (DRef 1) "id" = VNum 5 ∧
  hasId Ex.inherited Ex.Post (VRef 1) = false ∧
  ∃ r w' t, Ex.persist_plain Ex.inherited 2 (DRef 1) = Some (r, w', t) ∧
            Forall pure_insert_call t.
Proof.
  split; [vm_compute; reflexivity|].
  assert (∃ r w' t, Ex.persist_plain Ex.inherited 2 (DRef 1) = Some (r, w', t))
    as (r & w' & t & Hrun).
  { eexists _, _, _. vm_compute. reflexivity. }
  destruct (hasId_requires_own_property unit unit Ex.blog Ex.Post Ex.getEntityId
              (λ _, Ex.fulfils VNull) (λ _ _, Ex.fulfils VNull)
              (λ _ _ _ _ _, Ex.fulfils ()) (λ _, Ex.fulfils ())
              2 1 (World Ex.inherited ()) w' r t) as (H1 & H2 & _).
  - vm_compute. reflexivity.
  - exact Hrun.
  - split; [exact H1|]. exists r, w', t. split; [exact Hrun|exact H2].
Defined.

(** ** [remove] *)




(** * Further properties *)

(** ** Relation methods *)

Lemma with_relation_missing
    (RelationName : Type) (computePropertyName : EntityMetadata → RelationName → string)
    (metadata : EntityMetadata) (relationName : RelationName) k :
  findRelationWithPropertyName metadata (computePropertyName metadata relationName) = None →
  with_relation RelationName computePropertyName metadata relationName k
  = Threw (relation_not_found metadata (computePropertyName metadata relationName)).
Proof.
  intros Hfind. unfold with_relation.
  assert (hasRelationWithPropertyName metadata (computePropertyName metadata relationName)
          = false) as ->; [|done].
  apply not_true_iff_false. intros Hhas.
  unfold hasRelationWithPropertyName in Hhas. apply existsb_exists in Hhas as (r & Hin & Hp).
  unfold findRelationWithPropertyName in Hfind.
  by apply (find_none _ _ Hfind r) in Hin; rewrite Hin in Hp.
Qed.

Lemma relation_not_found_names (metadata : EntityMetadata) (propertyName : string) :
  names (relation_not_found metadata propertyName) propertyName = true ∧
  names (relation_not_found metadata propertyName) (md_name metadata) = true.
Proof.
  unfold relation_not_found, names. split.
  - apply contains_app.
  - rewrite <- (append_assoc propertyName " was not found in the ").
    rewrite <- (append_assoc _ (propertyName +:+ " was not found in the ")).
    apply contains_app.
Qed.

(** X1. A relation name that the entity does not declare makes every
    relation method throw the same error, which names the property and the
    entity, and nothing is issued to the driver. *)
Theorem unknown_relation_is_rejected
    (RelationName : Type) (computePropertyName : EntityMetadata → RelationName → string)
    (metadata : EntityMetadata) (relationName : RelationName)
    (a b : value) (ids ids' : option (list value)) :
  findRelationWithPropertyName metadata (computePropertyName metadata relationName) = None →
  ∃ e,
    setRelation RelationName computePropertyName metadata relationName a b = Threw e ∧
    setInverseRelation RelationName computePropertyName metadata relationName a b = Threw e ∧
    addToRelation RelationName computePropertyName metadata relationName a ids = Threw e ∧
    addToInverseRelation RelationName computePropertyName metadata relationName a ids
      = Threw e ∧
    removeFromRelation RelationName computePropertyName metadata relationName a ids
      = Threw e ∧
    removeFromInverseRelation RelationName computePropertyName metadata relationName a ids
      = Threw e ∧
    addAndRemoveFromRelation RelationName computePropertyName metadata relationName a ids ids'
      = Combined [] (Some e) ∧
    addAndRemoveFromInverseRelation RelationName computePropertyName metadata relationName
      a ids ids' = Combined [] (Some e) ∧
    names e (computePropertyName metadata relationName) = true ∧
    names e (md_name metadata) = true.
Proof.
  intros Hfind.
  exists (relation_not_found metadata (computePropertyName metadata relationName)).
  unfold addAndRemoveFromRelation, addAndRemoveFromInverseRelation,
    setRelation, setInverseRelation, addToRelation, addToInverseRelation,
    removeFromRelation, removeFromInverseRelation.
  rewrite !(with_relation_missing _ _ _ _ _ Hfind).
  repeat (split; [reflexivity|]). apply relation_not_found_names.
Qed.

Lemma unknown_relation_is_rejected_witness :
  ∃ e,
    setRelation string Ex.by_string Ex.Post "tags"%string (VNum 1) (VNum 2) = Threw e ∧
    addToRelation string Ex.by_string Ex.Post "tags"%string (VNum 1) (Some [VNum 2])
      = Threw e ∧
    removeFromRelation string Ex.by_string Ex.Post "tags"%string (VNum 1) (Some [VNum 2])
      = Threw e ∧
    names e "tags" = true ∧ names e "Post" = true.
Proof.
  destruct (unknown_relation_is_rejected string Ex.by_string Ex.Post "tags"%string
              (VNum 1) (VNum 2) (Some [VNum 2]) None)
    as (e & H1 & _ & H3 & _ & H5 & _ & _ & _ & H9 & H10); [reflexivity|].
  exists e. split; [exact H1|]. split; [exact H3|]. split; [exact H5|].
  split; [exact H9|exact H10].
Defined.



(** X3. On a many-to-many relation, an empty list of ids makes
    [addToRelation] and [addToInverseRelation] resolve without any insert,
    whether the junction is described or not, but [null] or [undefined] in
    place of the list makes them throw a [TypeError], where
    [removeFromInverseRelation] resolves without issuing anything. *)
Theorem addToRelation_empty_and_null
    (RelationName : Type) (computePropertyName : EntityMetadata → RelationName → string)
    (metadata : EntityMetadata) (relationName : RelationName) (relation : RelationMetadata)
    (id : value) :
  findRelationWithPropertyName metadata (computePropertyName metadata relationName)
    = Some relation →
  isManyToMany relation = true →
  addToRelation RelationName computePropertyName metadata relationName id (Some [])
    = Issued [] ∧
  addToInverseRelation RelationName computePropertyName metadata relationName id (Some [])
    = Issued [] ∧
  addToRelation RelationName computePropertyName metadata relationName id None
    = Threw TypeError ∧
  addToInverseRelation RelationName computePropertyName metadata relationName id None
    = Threw TypeError ∧
  removeFromInverseRelation RelationName computePropertyName metadata relationName id None
    = Issued [] ∧
  removeFromInverseRelation RelationName computePropertyName metadata relationName id (Some [])
    = Issued [].
Proof.
  intros Hfind Hkind.
  unfold addToRelation, addToInverseRelation, removeFromInverseRelation.
  rewrite !(with_relation_found _ _ _ _ _ _ Hfind). rewrite Hkind. simpl. done.
Qed.

Lemma addToRelation_empty_and_null_witness :
  addToRelation string Ex.by_string Ex.Post "categories"%string (VNum 1) (Some []) = Issued [] ∧
  addToRelation string Ex.by_string Ex.Post "categories"%string (VNum 1) None
    = Threw TypeError.
Proof.
  destruct (addToRelation_empty_and_null string Ex.by_string Ex.Post "categories"%string
              (Ex.to_many true "Post" "categories" "Category" "post_categories") (VNum 1))
    as (H1 & _ & H3 & _); [reflexivity..|]. split; [exact H1|exact H3].
Defined.

Lemma imap_names_NoDup {A} (prefix_ : string) (l : list A) (k : nat) :
  NoDup (imap (λ i _, prefix_ +:+ pretty (k + i)) l).
Proof.
  revert k. induction l as [|x l IH]; intros k; [constructor|].
  rewrite imap_cons. constructor.
  - intros Hin. apply elem_of_lookup_imap in Hin as (i & y & Heq & _).
    simpl in Heq. apply (inj (String.append prefix_)) in Heq.
    apply (inj pretty) in Heq. lia.
  - specialize (IH (S k)). erewrite imap_ext; [exact IH|].
    intros i y _. simpl. by rewrite Nat.add_succ_r.
Qed.

(** X4. With ids to remove, [removeFromRelation] executes exactly one
    delete on the junction table: it has one clause per id, in order, every
    id is bound to the placeholder that its clause uses, no two parameters
    share a name, and the owner's id is bound to [entityId]. *)
Theorem removeFromRelation_binds_every_id
    (RelationName : Type) (computePropertyName : EntityMetadata → RelationName → string)
    (metadata : EntityMetadata) (relationName : RelationName) (relation : RelationMetadata)
    (table column0 column1 : string) (entityId : value) (relatedEntityIds : list value) :
  findRelationWithPropertyName metadata (computePropertyName metadata relationName)
    = Some relation →
  isManyToMany relation = true →
  junction_of relation = Some (table, column0, column1) →
  relatedEntityIds ≠ [] →
  ∃ q,
    removeFromRelation RelationName computePropertyName metadata relationName entityId
      (Some relatedEntityIds) = Issued [ExecuteDelete q] ∧
    q_table q = table ∧
    length (q_orWhere q) = length relatedEntityIds ∧
    length (q_parameters q) = S (length relatedEntityIds) ∧
    NoDup (q_parameters q).*1 ∧
    q_parameters q !! length relatedEntityIds = Some ("entityId"%string, entityId) ∧
    ∀ i relatedEntityId, relatedEntityIds !! i = Some relatedEntityId →
      q_parameters q !! i = Some (("relatedEntity_" +:+ pretty i)%string, relatedEntityId) ∧
      ∃ clause, q_orWhere q !! i = Some clause ∧
                contains clause (":relatedEntity_" +:+ pretty i) = true ∧
                contains clause ":entityId" = true.
Proof.
  intros Hfind Hkind Hj Hne. eexists. split.
  { unfold removeFromRelation. rewrite (with_relation_found _ _ _ _ _ _ Hfind).
    rewrite Hkind, Hj. simpl. destruct relatedEntityIds; [done|]. reflexivity. }
  simpl. split; [done|]. split; [by rewrite length_imap|].
  split; [rewrite length_app, length_imap; simpl; lia|].
  split; [|split].
  - rewrite fmap_app, fmap_imap. simpl. apply NoDup_app. split; [|split].
    + pose proof (imap_names_NoDup "relatedEntity_" relatedEntityIds 0) as Hnd.
      erewrite imap_ext; [exact Hnd|]. done.
    + intros x Hx Hx'. apply list_elem_of_singleton in Hx' as ->.
      apply elem_of_lookup_imap in Hx as (i & y & Heq & _). simpl in Heq. discriminate.
    + apply NoDup_singleton.
  - rewrite lookup_app_r by (by rewrite length_imap).
    by rewrite length_imap, Nat.sub_diag.
  - intros i rid Hi. split.
    + rewrite lookup_app_l by (rewrite length_imap; by eapply lookup_lt_Some).
      by rewrite list_lookup_imap, Hi.
    + eexists. split; [by rewrite list_lookup_imap, Hi|].
      unfold or_where. split.
      * change "=:relatedEntity_"%string with ("=" +:+ ":relatedEntity_")%string.
        rewrite (append_assoc "=" ":relatedEntity_").
        rewrite <- (append_assoc ":relatedEntity_" (pretty i) ")").
        rewrite <- (append_assoc _ "=" (_ +:+ ")")).
        rewrite <- (append_assoc _ (_ +:+ "=") (_ +:+ ")")).
        rewrite <- (append_assoc _ ("=:entityId AND " +:+ _)).
        rewrite <- (append_assoc "(").
        apply contains_app.
      * change "=:entityId AND "%string with ("=" +:+ ":entityId" +:+ " AND ")%string.
        rewrite (append_assoc "=" (":entityId" +:+ " AND ")).
        rewrite (append_assoc ":entityId" " AND ").
        rewrite <- (append_assoc _ "=").
        rewrite <- (append_assoc "(").
        apply contains_app.
Qed.

Lemma removeFromRelation_binds_every_id_witness :
  ∃ q,
    removeFromRelation string Ex.by_string Ex.Post "categories"%string (VNum 1)
      (Some [VNum 10; VNum 20]) = Issued [ExecuteDelete q] ∧
    q_table q = "post_categories"%string ∧
    length (q_orWhere q) = 2 ∧
    NoDup (q_parameters q).*1 ∧
    q_parameters q !! 1 = Some ("relatedEntity_1"%string, VNum 20).
Proof.
  destruct (removeFromRelation_binds_every_id string Ex.by_string Ex.Post "categories"%string
              (Ex.to_many true "Post" "categories" "Category" "post_categories")
              "post_categories"%string "postId"%string "categoryId"%string
              (VNum 1) [VNum 10; VNum 20])
    as (q & H1 & H2 & H3 & _ & H5 & _ & H7); [reflexivity| reflexivity| reflexivity| discriminate|].
  exists q. split; [exact H1|]. split; [exact H2|]. split; [exact H3|]. split; [exact H5|].
  destruct (H7 1 (VNum 20) eq_refl) as [H _]. exact H.
Defined.

(** X5. [removeFromRelation] looks for the rows that [addToRelation]
    writes.  For a junction with two distinct columns, the column that the
    delete compares with the owner's id is the one the insert fills with
    it, and the column compared with a related id is the one the insert
    fills with that id, from either side of the relation. *)
Theorem removeFromRelation_matches_addToRelation
    (RelationName : Type) (computePropertyName : EntityMetadata → RelationName → string)
    (metadata : EntityMetadata) (relationName : RelationName) (relation : RelationMetadata)
    (table column0 column1 : string) (entityId : value) (relatedEntityIds : list value) :
  findRelationWithPropertyName metadata (computePropertyName metadata relationName)
    = Some relation →
  isManyToMany relation = true →
  junction_of relation = Some (table, column0, column1) →
  column0 ≠ column1 →
  relatedEntityIds ≠ [] →
  let ownerColumn := if rel_isOwning relation then column0 else column1 in
  let relatedColumn := if rel_isOwning relation then column1 else column0 in
  ∃ (values : list (gmap string value)) (q : DeleteQuery),
    addToRelation RelationName computePropertyName metadata relationName entityId
      (Some relatedEntityIds) = Issued (DriverInsert table <$> values) ∧
    removeFromRelation RelationName computePropertyName metadata relationName entityId
      (Some relatedEntityIds) = Issued [ExecuteDelete q] ∧
    q_table q = table ∧
    ∀ i relatedEntityId, relatedEntityIds !! i = Some relatedEntityId →
      q_orWhere q !! i = Some (or_where ownerColumn relatedColumn i) ∧
      ∃ v, values !! i = Some v ∧
           v !! ownerColumn = Some entityId ∧ v !! relatedColumn = Some relatedEntityId.
Proof.
  intros Hfind Hkind Hj Hne Hids ownerColumn relatedColumn.
  exists (junction_values (rel_isOwning relation) column0 column1 entityId <$> relatedEntityIds).
  eexists. split; [|split; [|split]].
  - unfold addToRelation. rewrite (with_relation_found _ _ _ _ _ _ Hfind).
    rewrite Hkind, Hj. simpl. destruct relatedEntityIds; [done|].
    by rewrite <- list_fmap_compose.
  - unfold removeFromRelation. rewrite (with_relation_found _ _ _ _ _ _ Hfind).
    rewrite Hkind, Hj. simpl. destruct relatedEntityIds; [done|]. reflexivity.
  - done.
  - intros i rid Hi. simpl. split; [by rewrite list_lookup_imap, Hi|].
    eexists. split; [by rewrite list_lookup_fmap, Hi|].
    unfold junction_values, assign, ownerColumn, relatedColumn.
    destruct (rel_isOwning relation); by simplify_map_eq.
Qed.

Lemma removeFromRelation_matches_addToRelation_witness :
  ∃ (values : list (gmap string value)) (q : DeleteQuery),
    addToRelation string Ex.by_string Ex2.CategoryOfPosts "posts"%string (VNum 7)
      (Some [VNum 1]) = Issued (DriverInsert "post_categories" <$> values) ∧
    removeFromRelation string Ex.by_string Ex2.CategoryOfPosts "posts"%string (VNum 7)
      (Some [VNum 1]) = Issued [ExecuteDelete q] ∧
    q_orWhere q !! 0 = Some (or_where "categoryId" "postId" 0) ∧
    ∃ v, values !! 0 = Some v ∧
         v !! "categoryId"%string = Some (VNum 7) ∧ v !! "postId"%string = Some (VNum 1).
Proof.
  destruct (removeFromRelation_matches_addToRelation string Ex.by_string Ex2.CategoryOfPosts
              "posts"%string (Ex.to_many false "Category" "posts" "Post" "post_categories")
              "post_categories"%string "postId"%string "categoryId"%string
              (VNum 7) [VNum 1])
    as (values & q & H1 & H2 & _ & H4);
    [reflexivity| reflexivity| reflexivity| discriminate| discriminate|].
  exists values, q. split; [exact H1|]. split; [exact H2|].
  exact (H4 0 (VNum 1) eq_refl).
Defined.

Lemma bind_all_nil {A B} (l : list A) : l ≫= (λ _, @nil B) = [].
Proof. induction l as [|x l IH]; [done|]. by rewrite bind_cons, IH. Qed.

Lemma bind_singletons {A B} (f : A → B) (l : list A) : l ≫= (λ x, [f x]) = f <$> l.
Proof. induction l as [|x l IH]; [done|]. by rewrite bind_cons, IH. Qed.

(** X6. [addToInverseRelation] is [addToRelation] with the roles of the
    arguments exchanged: relating many entities to one related id issues, in
    order, the inserts that [addToRelation] issues for each entity and that
    one related id. *)
Theorem addToInverseRelation_as_addToRelation
    (RelationName : Type) (computePropertyName : EntityMetadata → RelationName → string)
    (metadata : EntityMetadata) (relationName : RelationName)
    (relatedEntityId : value) (entityIds : list value) :
  requests_of (addToInverseRelation RelationName computePropertyName metadata relationName
                 relatedEntityId (Some entityIds))
  = entityIds ≫= (λ entityId,
      requests_of (addToRelation RelationName computePropertyName metadata relationName
                     entityId (Some [relatedEntityId]))).
Proof.
  unfold addToInverseRelation, addToRelation, with_relation.
  destruct (negb (hasRelationWithPropertyName _ _));
    [cbn [requests_of]; by rewrite bind_all_nil|].
  destruct (findRelationWithPropertyName _ _) as [relation|];
    [|cbn [requests_of]; by rewrite bind_all_nil].
  destruct (negb (isManyToMany relation));
    [cbn [requests_of]; by rewrite bind_all_nil|].
  destruct (junction_of relation) as [[[table c0] c1]|].
  - cbn [requests_of map]. rewrite bind_singletons.
    destruct entityIds; [done|]. cbn [requests_of]. done.
  - cbn [requests_of]. rewrite bind_all_nil. by destruct entityIds.
Qed.

(** X7. [addAndRemoveFromRelation] starts both halves whatever happens to
    either.  On a many-to-many relation with ids to remove, the delete is
    issued after the inserts of the ids to add; and when the list to add is
    [null] or [undefined] the call rejects with a [TypeError] although the
    delete has been issued. *)
Theorem addAndRemoveFromRelation_issues_both
    (RelationName : Type) (computePropertyName : EntityMetadata → RelationName → string)
    (metadata : EntityMetadata) (relationName : RelationName) (relation : RelationMetadata)
    (table column0 column1 : string) (entityId : value) (removeRelatedEntityIds : list value) :
  findRelationWithPropertyName metadata (computePropertyName metadata relationName)
    = Some relation →
  isManyToMany relation = true →
  junction_of relation = Some (table, column0, column1) →
  removeRelatedEntityIds ≠ [] →
  ∃ q,
    removeFromRelation RelationName computePropertyName metadata relationName entityId
      (Some removeRelatedEntityIds) = Issued [ExecuteDelete q] ∧
    addAndRemoveFromRelation RelationName computePropertyName metadata relationName entityId
      None (Some removeRelatedEntityIds) = Combined [ExecuteDelete q] (Some TypeError) ∧
    ∀ addRelatedEntityIds, ∃ inserts,
      addToRelation RelationName computePropertyName metadata relationName entityId
        (Some addRelatedEntityIds) = Issued inserts ∧
      length inserts = length addRelatedEntityIds ∧
      addAndRemoveFromRelation RelationName computePropertyName metadata relationName entityId
        (Some addRelatedEntityIds) (Some removeRelatedEntityIds)
      = Combined (inserts ++ [ExecuteDelete q]) None.
Proof.
  intros Hfind Hkind Hj Hne.
  assert (∃ q, removeFromRelation RelationName computePropertyName metadata relationName
                 entityId (Some removeRelatedEntityIds) = Issued [ExecuteDelete q])
    as [q Hq].
  { unfold removeFromRelation. rewrite (with_relation_found _ _ _ _ _ _ Hfind).
    rewrite Hkind, Hj. simpl. destruct removeRelatedEntityIds; [done|]. by eexists. }
  exists q. split; [done|]. split.
  - unfold addAndRemoveFromRelation. rewrite Hq.
    unfold addToRelation. rewrite (with_relation_found _ _ _ _ _ _ Hfind).
    by rewrite Hkind.
  - intros adds.
    assert (∃ inserts, addToRelation RelationName computePropertyName metadata relationName
              entityId (Some adds) = Issued inserts ∧ length inserts = length adds)
      as (inserts & Hadd & Hlen).
    { unfold addToRelation. rewrite (with_relation_found _ _ _ _ _ _ Hfind).
      rewrite Hkind, Hj. simpl. destruct adds; [by eexists|].
      eexists. split; [done|]. by rewrite length_map. }
    exists inserts. split; [done|]. split; [done|].
    unfold addAndRemoveFromRelation. by rewrite Hq, Hadd.
Qed.

Lemma addAndRemoveFromRelation_issues_both_witness :
  ∃ q,
    addAndRemoveFromRelation string Ex.by_string Ex.Post "categories"%string (VNum 1)
      None (Some [VNum 10]) = Combined [ExecuteDelete q] (Some TypeError) ∧
    q_table q = "post_categories"%string.
Proof.
  destruct (addAndRemoveFromRelation_issues_both string Ex.by_string Ex.Post
              "categories"%string
              (Ex.to_many true "Post" "categories" "Category" "post_categories")
              "post_categories"%string "postId"%string "categoryId"%string
              (VNum 1) [VNum 10])
    as (q & H1 & H2 & _); [reflexivity| reflexivity| reflexivity| discriminate|].
  exists q. split; [exact H2|].
  vm_compute in H1. injection H1 as <-. reflexivity.
Defined.

(** ** Transactions *)

(** X8. When beginning, running and committing all fulfil, the
    transaction fulfils with what the run returned, the commit comes after
    the calls of the run, and no rollback is called. *)
Theorem transaction_commits_on_success
    (Storage PersistOperation : Type)
    (beginTransaction commitTransaction rollbackTransaction : external Storage unit)
    (runInTransaction : async Storage PersistOperation value)
    (w w1 w2 w3 : world Storage) (result : value) (t : list (call PersistOperation)) :
  beginTransaction w = (Fulfilled (), w1) →
  runInTransaction w1 = Some (Fulfilled result, w2, t) →
  commitTransaction w2 = (Fulfilled (), w3) →
  transaction Storage PersistOperation beginTransaction commitTransaction
    rollbackTransaction runInTransaction w
  = Some (Fulfilled result, w3, [CallBeginTransaction] ++ t ++ [CallCommitTransaction]).
Proof.
  intros Hb Hr Hc. unfold transaction, andThen, catch, invoke, resolve.
  rewrite Hb, Hr, Hc. simpl. by rewrite !app_nil_r.
Qed.

Lemma transaction_commits_on_success_witness :
  transaction unit unit (Ex.fulfils ()) (Ex.fulfils ()) (Ex.rejects Ex.connection_lost)
    (resolve (VNum 42)) (World ∅ ())
  = Some (Fulfilled (VNum 42), World ∅ (), [CallBeginTransaction; CallCommitTransaction]).
Proof.
  apply (transaction_commits_on_success unit unit (Ex.fulfils ()) (Ex.fulfils ())
           (Ex.rejects Ex.connection_lost) (resolve (VNum 42))
           (World ∅ ()) (World ∅ ()) (World ∅ ()) (World ∅ ()) (VNum 42) []); reflexivity.
Defined.

(** X9. When [beginTransaction] itself rejects, the function to run is
    never called, yet [rollbackTransaction] is, and the transaction rejects
    with the error of the begin. *)
Theorem transaction_begin_failure_rolls_back
    (Storage PersistOperation : Type)
    (beginTransaction commitTransaction rollbackTransaction : external Storage unit)
    (runInTransaction : async Storage PersistOperation value)
    (w w1 : world Storage) (err : error) :
  beginTransaction w = (Rejected err, w1) →
  transaction Storage PersistOperation beginTransaction commitTransaction
    rollbackTransaction runInTransaction w
  = Some (Rejected err, (rollbackTransaction w1).2,
          [CallBeginTransaction; CallRollbackTransaction]).
Proof.
  intros Hb. unfold transaction, andThen, catch, invoke, throw. rewrite Hb.
  by destruct (rollbackTransaction w1) as [[[]|e2] w2].
Qed.

Lemma transaction_begin_failure_rolls_back_witness :
  transaction unit unit (Ex.rejects Ex.connection_lost) (Ex.fulfils ()) (Ex.fulfils ())
    (resolve (VNum 42)) (World ∅ ())
  = Some (Rejected Ex.connection_lost, World ∅ (),
          [CallBeginTransaction; CallRollbackTransaction]).
Proof.
  apply (transaction_begin_failure_rolls_back unit unit (Ex.rejects Ex.connection_lost)
           (Ex.fulfils ()) (Ex.fulfils ()) (resolve (VNum 42)) (World ∅ ()) (World ∅ ())
           Ex.connection_lost).
  reflexivity.
Defined.

(** X10. When the commit rejects, after a run that fulfilled, the rollback
    is called after it and the transaction rejects with the error of the
    commit: what the run returned is lost. *)
Theorem transaction_commit_failure_rolls_back
    (Storage PersistOperation : Type)
    (beginTransaction commitTransaction rollbackTransaction : external Storage unit)
    (runInTransaction : async Storage PersistOperation value)
    (w w1 w2 w3 : world Storage) (result : value) (err : error)
    (t : list (call PersistOperation)) :
  beginTransaction w = (Fulfilled (), w1) →
  runInTransaction w1 = Some (Fulfilled result, w2, t) →
  commitTransaction w2 = (Rejected err, w3) →
  transaction Storage PersistOperation beginTransaction commitTransaction
    rollbackTransaction runInTransaction w
  = Some (Rejected err, (rollbackTransaction w3).2,
          [CallBeginTransaction] ++ t ++ [CallCommitTransaction; CallRollbackTransaction]).
Proof.
  intros Hb Hr Hc. unfold transaction, andThen, catch, invoke, throw.
  rewrite Hb, Hr, Hc.
  destruct (rollbackTransaction w3) as [[[]|e2] w4]; simpl;
    rewrite ?app_nil_r, <- ?app_assoc; done.
Qed.

Lemma transaction_commit_failure_rolls_back_witness :
  transaction unit unit (Ex.fulfils ()) (Ex.rejects Ex.connection_lost) (Ex.fulfils ())
    (resolve (VNum 42)) (World ∅ ())
  = Some (Rejected Ex.connection_lost, World ∅ (),
          [CallBeginTransaction; CallCommitTransaction; CallRollbackTransaction]).
Proof.
  apply (transaction_commit_failure_rolls_back unit unit (Ex.fulfils ())
           (Ex.rejects Ex.connection_lost) (Ex.fulfils ()) (resolve (VNum 42))
           (World ∅ ()) (World ∅ ()) (World ∅ ()) (World ∅ ()) (VNum 42)
           Ex.connection_lost []); reflexivity.
Defined.

(** ** [persist] and [remove] *)

Section PersistMore.

Context {Storage PersistOperation : Type}.
Variable reg : registry.
Variable metadata : EntityMetadata.
Variable getEntityId : EntityMetadata → heap → value → value.
Variable preload : defined → external Storage value.
Variable findOneById : string → value → external Storage value.
Variable buildFullPersistment :
EntityMetadata → EntityWithId → EntityWithId →
list EntityWithId → list EntityWithId → external Storage PersistOperation.
Variable buildOnlyRemovement :
EntityMetadata → EntityWithId → EntityWithId →
list EntityWithId → list EntityWithId → external Storage PersistOperation.
Variable executePersistOperation : PersistOperation → external Storage unit.

Lemma andThen_Fulfilled {A B} (m : async Storage PersistOperation A)
  (f : A → async Storage PersistOperation B) w b w' t :
andThen m f w = Some (Fulfilled b, w', t) →
∃ a w1 t1 t2, m w = Some (Fulfilled a, w1, t1) ∧ f a w1 = Some (Fulfilled b, w', t2) ∧
              t = t1 ++ t2.
Proof.
intros Hrun. apply andThen_Some in Hrun as [Hok|(e & _ & Hr)]; [done|discriminate].
Qed.

Lemma invoke_Some {A} c (f : external Storage A) w r w' (t : list (call PersistOperation)) :
invoke c f w = Some (r, w', t) → f w = (r, w') ∧ t = [c].
Proof. unfold invoke. destruct (f w). by intros [= <- <- <-]. Qed.

(** X11. A [persist] that fulfils returns the entity it was given; by then
  it has asked for exactly one plan and executed it, in that order and as
  its last two calls, after calls that only read; and the plan was asked
  for the entity given. *)
Theorem persist_fulfilled_builds_and_executes_once depth entity w x w' t :
persist Storage PersistOperation reg metadata getEntityId preload findOneById
  buildFullPersistment executePersistOperation depth entity w
  = Some (Fulfilled x, w', t) →
x = entity ∧
∃ reads dbEntity persistedEntity allDbEntities allPersistedEntities operation,
  t = reads ++ [CallBuildFullPersistment dbEntity persistedEntity
                  allDbEntities allPersistedEntities;
                CallExecutePersistOperation operation] ∧
  Forall is_read_call reads ∧
  ewi_entity persistedEntity = VDef entity ∧
  extractObjectsById (w_heap w) reg depth entity metadata [] = Some allPersistedEntities.
Proof.
intros Hrun. unfold persist in Hrun.
apply andThen_collect in Hrun as (allPersistedEntities & Hcollect & Hrun).
apply andThen_read_heap in Hrun.
apply andThen_Fulfilled in Hrun as (loaded & w1 & t1 & t2 & H1 & Hrun & ->).
assert (Forall is_read_call t1) as Ht1.
{ destruct (hasId (w_heap w) metadata (VDef entity)).
  - apply invoke_Some in H1 as [_ ->]. constructor; [|constructor]. left. by eexists.
  - injection H1 as _ _ <-. constructor. }
apply andThen_Fulfilled in Hrun as (entityWithIds & w2 & t3 & t4 & H2 & Hrun & ->).
assert (t3 = []) as ->.
{ destruct loaded as [| |d]; try (by injection H2 as _ _ <-).
  destruct (truthy (VDef d)); [|by injection H2 as _ _ <-].
  by apply collect_Some in H2 as (_ & -> & _). }
apply andThen_Fulfilled in Hrun as (allDbEntities & w3 & t5 & t6 & H3 & Hrun & ->).
assert (Forall is_read_call t5) as Ht5.
{ eapply (emits_findNotLoadedIds reg findOneById); [|exact H3].
  intros target id. right. by eexists _, _. }
apply andThen_read_heap in Hrun.
apply andThen_Fulfilled in Hrun as (operation & w4 & t7 & t8 & H4 & Hrun & ->).
apply invoke_Some in H4 as [_ ->].
apply andThen_Fulfilled in Hrun as ([] & w5 & t9 & t10 & H5 & Hrun & ->).
apply invoke_Some in H5 as [_ ->].
injection Hrun as <- <- <-.
split; [done|].
eexists (t1 ++ t5), _, _, _, _, _. split; [|split; [|split]].
- simpl. rewrite <- app_assoc. reflexivity.
- by apply Forall_app.
- done.
- done.
Qed.

(** X12. When the entity has an id and [preload] rejects, [persist] rejects
  with the same error straight after that call: no lookup is made and no
  plan is built or executed. *)
Theorem persist_preload_failure depth entity w err r w' t :
hasId (w_heap w) metadata (VDef entity) = true →
(preload entity w).1 = Rejected err →
persist Storage PersistOperation reg metadata getEntityId preload findOneById
  buildFullPersistment executePersistOperation depth entity w = Some (r, w', t) →
r = Rejected err ∧ w' = (preload entity w).2 ∧ t = [CallPreload (VDef entity)].
Proof.
intros Hid Hrej Hrun. unfold persist in Hrun.
apply andThen_collect in Hrun as (allPersistedEntities & _ & Hrun).
apply andThen_read_heap in Hrun. rewrite Hid in Hrun.
unfold andThen at 1, invoke in Hrun.
destruct (preload entity w) as [r0 w0]. simpl in Hrej. subst r0.
by injection Hrun as <- <- <-.
Qed.

Lemma preserves_gather {A} l p (ps : list (async Storage PersistOperation A)) :
(∀ m, m ∈ ps → preserves l p m) → preserves l p (gather ps).
Proof.
induction ps as [|m ps IH]; intros Hps w r w' t; simpl.
- by intros [= <- <- <-].
- destruct (m w) as [[[r1 w1] t1]|] eqn:E1; [|done].
  destruct (gather ps w1) as [[[r2 w2] t2]|] eqn:E2; [|done].
  intros [= <- <- <-].
  rewrite (IH (λ q Hq, Hps q (list_elem_of_further _ _ _ Hq)) _ _ _ _ E2).
  eapply (Hps m); [left|done].
Qed.

Lemma preserves_findNotLoadedIds l p dbEntities persistedEntities :
(∀ target id, keeps l p (findOneById target id)) →
preserves l p (findNotLoadedIds Storage PersistOperation reg findOneById
                 dbEntities persistedEntities).
Proof.
intros Hk. unfold findNotLoadedIds.
apply preserves_andThen; [|intros; apply preserves_resolve].
apply preserves_gather. intros m Hm.
apply list_elem_of_In, in_map_iff in Hm as (e & <- & _). unfold load_missing.
apply preserves_andThen; [by apply preserves_invoke|].
intros [| |d]; try apply preserves_resolve.
destruct (negb _); [apply preserves_resolve|].
apply preserves_andThen; [apply preserves_read_heap|]. intros; apply preserves_resolve.
Qed.

(** X13. [persist] itself assigns to no object: a property that the
  collaborators leave alone has after [persist], fulfilled or rejected,
  the value it had before. *)
Theorem persist_writes_nothing depth entity l p w r w' t :
(∀ e, keeps l p (preload e)) →
(∀ target id, keeps l p (findOneById target id)) →
(∀ a b c d e, keeps l p (buildFullPersistment a b c d e)) →
(∀ op, keeps l p (executePersistOperation op)) →
persist Storage PersistOperation reg metadata getEntityId preload findOneById
  buildFullPersistment executePersistOperation depth entity w = Some (r, w', t) →
own (deref (w_heap w') l) !! p = own (deref (w_heap w) l) !! p.
Proof.
intros Hpre Hfind Hbuild Hexec. revert w r w' t.
change (preserves l p (persist Storage PersistOperation reg metadata getEntityId preload
                         findOneById buildFullPersistment executePersistOperation
                         depth entity)).
unfold persist.
apply preserves_andThen; [apply preserves_collect|]. intros allPersistedEntities.
apply preserves_andThen; [apply preserves_read_heap|]. intros h.
apply preserves_andThen.
{ destruct (hasId h metadata (VDef entity));
    [by apply preserves_invoke|apply preserves_resolve]. }
intros loaded. apply preserves_andThen.
{ destruct loaded as [| |d]; try apply preserves_resolve.
  destruct (truthy (VDef d)); [apply preserves_collect|apply preserves_resolve]. }
intros entityWithIds.
apply preserves_andThen; [by apply preserves_findNotLoadedIds|]. intros allDbEntities.
apply preserves_andThen; [apply preserves_read_heap|]. intros h'.
apply preserves_andThen; [by apply preserves_invoke|]. intros op.
apply preserves_andThen; [by apply preserves_invoke|].
intros; apply preserves_resolve.
Qed.

End PersistMore.

Lemma persist_fulfilled_builds_and_executes_once_witness :
  ∃ w' t,
    Ex.persist_plain Ex.saved 2 (DRef 1) = Some (Fulfilled (DRef 1), w', t) ∧
    ∃ reads dbEntity persistedEntity allDbEntities allPersistedEntities operation,
      t = reads ++ [CallBuildFullPersistment dbEntity persistedEntity
                      allDbEntities allPersistedEntities;
                    CallExecutePersistOperation operation] ∧
      Forall is_read_call reads ∧
      ewi_entity persistedEntity = VRef 1.
Proof.
  assert (∃ w' t, Ex.persist_plain Ex.saved 2 (DRef 1) = Some (Fulfilled (DRef 1), w', t))
    as (w' & t & Hrun).
  { eexists _, _. vm_compute. reflexivity. }
  exists w', t. split; [exact Hrun|].
  destruct (@persist_fulfilled_builds_and_executes_once unit unit Ex.blog Ex.Post
              Ex.getEntityId (λ _, Ex.fulfils VNull) (λ _ _, Ex.fulfils VNull)
              (λ _ _ _ _ _, Ex.fulfils ()) (λ _, Ex.fulfils ())
              2 (DRef 1) (World Ex.saved ()) (DRef 1) w' t Hrun)
    as (_ & reads & db & pe & adb & ape & op & H1 & H2 & H3 & _).
  exists reads, db, pe, adb, ape, op. split; [exact H1|]. split; [exact H2|exact H3].
Defined.

Lemma persist_preload_failure_witness :
  ∃ r w' t,
    persist unit unit Ex.blog Ex.Post Ex.getEntityId
      (λ _, Ex.rejects Ex.connection_lost) (λ _ _, Ex.fulfils VNull)
      (λ _ _ _ _ _, Ex.fulfils ()) (λ _, Ex.fulfils ()) 2 (DRef 1) (World Ex.saved ())
    = Some (r, w', t) ∧
    r = Rejected Ex.connection_lost ∧ t = [CallPreload (VRef 1)].
Proof.
  assert (∃ r w' t,
            persist unit unit Ex.blog Ex.Post Ex.getEntityId
              (λ _, Ex.rejects Ex.connection_lost) (λ _ _, Ex.fulfils VNull)
              (λ _ _ _ _ _, Ex.fulfils ()) (λ _, Ex.fulfils ()) 2 (DRef 1)
              (World Ex.saved ()) = Some (r, w', t)) as (r & w' & t & Hrun).
  { eexists _, _, _. vm_compute. reflexivity. }
  exists r, w', t. split; [exact Hrun|].
  destruct (@persist_preload_failure unit unit Ex.blog Ex.Post Ex.getEntityId
              (λ _, Ex.rejects Ex.connection_lost) (λ _ _, Ex.fulfils VNull)
              (λ _ _ _ _ _, Ex.fulfils ()) (λ _, Ex.fulfils ())
              2 (DRef 1) (World Ex.saved ()) Ex.connection_lost r w' t)
    as (H1 & _ & H3); [vm_compute; reflexivity| reflexivity| exact Hrun|].
  split; [exact H1|exact H3].
Defined.

Lemma persist_writes_nothing_witness :
  ∃ r w' t,
    Ex.persist_plain Ex.saved 2 (DRef 1) = Some (r, w', t) ∧
    own (deref (w_heap w') 1) !! "id"%string = own (deref Ex.saved 1) !! "id"%string.
Proof.
  assert (∃ r w' t, Ex.persist_plain Ex.saved 2 (DRef 1) = Some (r, w', t))
    as (r & w' & t & Hrun).
  { eexists _, _, _. vm_compute. reflexivity. }
  exists r, w', t. split; [exact Hrun|].
  apply (@persist_writes_nothing unit unit Ex.blog Ex.Post Ex.getEntityId
           (λ _, Ex.fulfils VNull) (λ _ _, Ex.fulfils VNull)
           (λ _ _ _ _ _, Ex.fulfils ()) (λ _, Ex.fulfils ())
           2 (DRef 1) 1 "id"%string (World Ex.saved ()) r w' t);
    [intros ? ?; reflexivity| intros ? ? ?; reflexivity
    | intros ? ? ? ? ? ?; reflexivity| intros ? ?; reflexivity| exact Hrun].
Defined.

Section RemoveMore.

Context {Storage PersistOperation : Type}.
Variable reg : registry.
Variable metadata : EntityMetadata.
Variable getEntityId : EntityMetadata → heap → value → value.
Variable preload : defined → external Storage value.
Variable buildOnlyRemovement :
EntityMetadata → EntityWithId → EntityWithId →
list EntityWithId → list EntityWithId → external Storage PersistOperation.
Variable executePersistOperation : PersistOperation → external Storage unit.

(** X14. When the initial load of [remove] rejects, [remove] rejects with
  the same error straight after that call: the entity is not touched and
  no plan is built or executed. *)
Theorem remove_preload_failure depth entity w err :
(preload entity w).1 = Rejected err →
remove Storage PersistOperation reg metadata getEntityId preload
  buildOnlyRemovement executePersistOperation depth entity w
= Some (Rejected err, (preload entity w).2, [CallPreload (VDef entity)]).
Proof.
intros Hrej. unfold remove, andThen at 1, invoke.
destruct (preload entity w) as [r0 w0]. simpl in Hrej. by subst r0.
Qed.

(** X15. When the initial load of [remove] fulfils with [null] or
  [undefined] (the entity is not in the database), [remove] rejects with
  a [TypeError] without building a plan, but the caller's object has
  already lost its primary-column property. *)
Theorem remove_of_unknown_entity depth l w dbEntity :
(preload (DRef l) w).1 = Fulfilled dbEntity →
dbEntity = VNull ∨ dbEntity = VUndefined →
remove Storage PersistOperation reg metadata getEntityId preload
  buildOnlyRemovement executePersistOperation depth (DRef l) w
= Some (Rejected TypeError,
        World (set_prop (w_heap (preload (DRef l) w).2) l
                 (col_name (md_primaryColumn metadata)) VUndefined)
              (w_storage (preload (DRef l) w).2),
        [CallPreload (VRef l)]) ∧
get (set_prop (w_heap (preload (DRef l) w).2) l
       (col_name (md_primaryColumn metadata)) VUndefined)
    (DRef l) (col_name (md_primaryColumn metadata)) = VUndefined.
Proof.
intros Hload Hdb. split.
- unfold remove, andThen, invoke, clear_property, write_heap, throw.
  destruct (preload (DRef l) w) as [r0 w0]. simpl in Hload. subst r0.
  by destruct Hdb as [-> | ->].
- simpl. unfold obj_get. simpl. by rewrite set_prop_own.
Qed.

(** X16. A [remove] that fulfils returns the entity it was given and has
  made exactly three calls: the load, one request for a removal plan, and
  its execution; it looks nothing up by id. *)
Theorem remove_fulfilled_makes_three_calls depth entity w x w' t :
remove Storage PersistOperation reg metadata getEntityId preload
  buildOnlyRemovement executePersistOperation depth entity w
  = Some (Fulfilled x, w', t) →
x = entity ∧
∃ dbEntity persistedEntity dbEntities allPersistedEntities operation,
  t = [CallPreload (VDef entity);
       CallBuildOnlyRemovement dbEntity persistedEntity dbEntities allPersistedEntities;
       CallExecutePersistOperation operation] ∧
  ewi_entity persistedEntity = VDef entity ∧
  (preload entity w).1 = Fulfilled (ewi_entity dbEntity) ∧
  ewi_entity dbEntity ≠ VNull ∧ ewi_entity dbEntity ≠ VUndefined.
Proof.
intros Hrun. unfold remove in Hrun.
apply andThen_Fulfilled in Hrun as (db & w1 & t1 & t2 & H1 & Hrun & ->).
apply invoke_Some in H1 as [Hload ->].
apply andThen_Fulfilled in Hrun as ([] & w2 & t3 & t4 & H2 & Hrun & ->).
assert (t3 = []) as ->.
{ unfold clear_property in H2. destruct entity; [done|]. by injection H2 as _ <-. }
apply andThen_Fulfilled in Hrun as (dbEntities & w3 & t5 & t6 & H3 & Hrun & ->).
assert (t5 = [] ∧ db ≠ VNull ∧ db ≠ VUndefined) as (-> & Hnn & Hnu).
{ destruct db as [| |d]; [done..|].
  apply collect_Some in H3 as (_ & -> & _). done. }
apply andThen_collect in Hrun as (allPersistedEntities & _ & Hrun).
apply andThen_read_heap in Hrun.
apply andThen_Fulfilled in Hrun as (operation & w4 & t7 & t8 & H4 & Hrun & ->).
apply invoke_Some in H4 as [_ ->].
apply andThen_Fulfilled in Hrun as ([] & w5 & t9 & t10 & H5 & Hrun & ->).
apply invoke_Some in H5 as [_ ->].
injection Hrun as <- <- <-.
split; [done|]. eexists _, _, _, _, _. split; [reflexivity|].
simpl. split; [done|]. split; [by rewrite Hload|]. done.
Qed.

Lemma set_prop_other h l p v l' p' :
(l', p') ≠ (l, p) → own (deref (set_prop h l p v) l') !! p' = own (deref h l') !! p'.
Proof.
intros Hne. unfold set_prop.
destruct (decide (l' = l)) as [->|Hl].
- unfold deref at 1. rewrite lookup_insert_eq. simpl.
  rewrite lookup_insert_ne; [done|]. intros ->. by apply Hne.
- unfold deref at 1. by rewrite lookup_insert_ne.
Qed.

Lemma remove_preserves depth l l' p' :
(l', p') ≠ (l, col_name (md_primaryColumn metadata)) →
(∀ e, keeps l' p' (preload e)) →
(∀ a b c d e, keeps l' p' (buildOnlyRemovement a b c d e)) →
(∀ op, keeps l' p' (executePersistOperation op)) →
preserves l' p' (remove Storage PersistOperation reg metadata getEntityId preload
                   buildOnlyRemovement executePersistOperation depth (DRef l)).
Proof.
intros Hne Hpre Hbuild Hexec. unfold remove.
apply preserves_andThen; [by apply preserves_invoke|]. intros db.
apply preserves_andThen.
{ intros w r w' t [= <- <- <-]. simpl. by apply set_prop_other. }
intros _. apply preserves_andThen.
{ destruct db; [apply preserves_throw..|apply preserves_collect]. }
intros dbEntities. apply preserves_andThen; [apply preserves_collect|].
intros allPersistedEntities. apply preserves_andThen; [apply preserves_read_heap|].
intros h. apply preserves_andThen; [by apply preserves_invoke|].
intros op. apply preserves_andThen; [by apply preserves_invoke|].
intros; apply preserves_resolve.
Qed.

Lemma hasId_own_determined h h' l :
own (deref h l) !! col_propertyName (md_primaryColumn metadata)
= own (deref h' l) !! col_propertyName (md_primaryColumn metadata) →
hasId h metadata (VRef l) = hasId h' metadata (VRef l).
Proof.
intros Hown. unfold hasId, hasOwnProperty, get, obj_get. simpl. rewrite Hown.
by destruct (own (deref h' l) !! col_propertyName (md_primaryColumn metadata)).
Qed.

(** X17. The assignment to the primary-column property is the only write
  of [remove]: any other property of any object, when the collaborators
  leave it alone, has after [remove] the value it had before. *)
Theorem remove_writes_nothing_else depth l l' p' w r w' t :
(l', p') ≠ (l, col_name (md_primaryColumn metadata)) →
(∀ e, keeps l' p' (preload e)) →
(∀ a b c d e, keeps l' p' (buildOnlyRemovement a b c d e)) →
(∀ op, keeps l' p' (executePersistOperation op)) →
remove Storage PersistOperation reg metadata getEntityId preload
  buildOnlyRemovement executePersistOperation depth (DRef l) w = Some (r, w', t) →
own (deref (w_heap w') l') !! p' = own (deref (w_heap w) l') !! p'.
Proof.
intros Hne Hpre Hbuild Hexec Hrun.
exact (remove_preserves depth l l' p' Hne Hpre Hbuild Hexec w r w' t Hrun).
Qed.

(** X18. [remove] clears the property called after the column
  ([primaryColumn.name]) and [hasId] reads the one called after the
  property ([primaryColumn.propertyName]): when the two names differ and
  the collaborators leave the latter alone, [hasId] answers after
  [remove] what it answered before, so a removed entity that had an id
  still has one. *)
Theorem remove_keeps_hasId_when_names_differ depth l w r w' t :
col_propertyName (md_primaryColumn metadata) ≠ col_name (md_primaryColumn metadata) →
(∀ e, keeps l (col_propertyName (md_primaryColumn metadata)) (preload e)) →
(∀ a b c d e, keeps l (col_propertyName (md_primaryColumn metadata))
                (buildOnlyRemovement a b c d e)) →
(∀ op, keeps l (col_propertyName (md_primaryColumn metadata))
         (executePersistOperation op)) →
remove Storage PersistOperation reg metadata getEntityId preload
  buildOnlyRemovement executePersistOperation depth (DRef l) w = Some (r, w', t) →
hasId (w_heap w') metadata (VRef l) = hasId (w_heap w) metadata (VRef l).
Proof.
intros Hne Hpre Hbuild Hexec Hrun. apply hasId_own_determined.
apply (remove_preserves depth l l _ (λ H, Hne (f_equal snd H)) Hpre Hbuild Hexec
         w r w' t Hrun).
Qed.

End RemoveMore.

Lemma remove_preload_failure_witness :
  Ex.remove_with (λ _, Ex.rejects Ex.connection_lost) Ex.saved 2 (DRef 1)
  = Some (Rejected Ex.connection_lost, World Ex.saved (), [CallPreload (VRef 1)]).
Proof.
  apply (@remove_preload_failure unit unit Ex.blog Ex.Post Ex.getEntityId
           (λ _, Ex.rejects Ex.connection_lost) (λ _ _ _ _ _, Ex.fulfils ())
           (λ _, Ex.fulfils ()) 2 (DRef 1) (World Ex.saved ()) Ex.connection_lost).
  reflexivity.
Defined.

Lemma remove_of_unknown_entity_witness :
  ∃ w',
    Ex.remove_with (λ _, Ex.fulfils VNull) Ex.saved 2 (DRef 1)
    = Some (Rejected TypeError, w', [CallPreload (VRef 1)]) ∧
    get Ex.saved (DRef 1) "id" = VNum 5 ∧
    get (w_heap w') (DRef 1) "id" = VUndefined.
Proof.
  destruct (@remove_of_unknown_entity unit unit Ex.blog Ex.Post Ex.getEntityId
              (λ _, Ex.fulfils VNull) (λ _ _ _ _ _, Ex.fulfils ()) (λ _, Ex.fulfils ())
              2 1 (World Ex.saved ()) VNull) as [Hrun Hget];
    [reflexivity| left; reflexivity|].
  eexists. split; [exact Hrun|]. split; [vm_compute; reflexivity| exact Hget].
Defined.

Lemma remove_fulfilled_makes_three_calls_witness :
  ∃ w' t,
    Ex.remove_with (λ _, Ex.fulfils (VRef 2)) Ex.saved 2 (DRef 1)
    = Some (Fulfilled (DRef 1), w', t) ∧
    ∃ dbEntity persistedEntity dbEntities allPersistedEntities operation,
      t = [CallPreload (VRef 1);
           CallBuildOnlyRemovement dbEntity persistedEntity dbEntities allPersistedEntities;
           CallExecutePersistOperation operation] ∧
      ewi_entity persistedEntity = VRef 1.
Proof.
  assert (∃ w' t, Ex.remove_with (λ _, Ex.fulfils (VRef 2)) Ex.saved 2 (DRef 1)
                  = Some (Fulfilled (DRef 1), w', t)) as (w' & t & Hrun).
  { eexists _, _. vm_compute. reflexivity. }
  exists w', t. split; [exact Hrun|].
  destruct (@remove_fulfilled_makes_three_calls unit unit Ex.blog Ex.Post Ex.getEntityId
              (λ _, Ex.fulfils (VRef 2)) (λ _ _ _ _ _, Ex.fulfils ()) (λ _, Ex.fulfils ())
              2 (DRef 1) (World Ex.saved ()) (DRef 1) w' t Hrun)
    as (_ & db & pe & dbs & ape & op & H1 & H2 & _).
  exists db, pe, dbs, ape, op. split; [exact H1|exact H2].
Defined.

Lemma remove_writes_nothing_else_witness :
  ∃ r w' t,
    Ex.remove_with (λ _, Ex.fulfils (VRef 2)) Ex.saved 2 (DRef 1) = Some (r, w', t) ∧
    own (deref (w_heap w') 2) !! "id"%string = own (deref Ex.saved 2) !! "id"%string.
Proof.
  assert (∃ r w' t, Ex.remove_with (λ _, Ex.fulfils (VRef 2)) Ex.saved 2 (DRef 1)
                    = Some (r, w', t)) as (r & w' & t & Hrun).
  { eexists _, _, _. vm_compute. reflexivity. }
  exists r, w', t. split; [exact Hrun|].
  apply (@remove_writes_nothing_else unit unit Ex.blog Ex.Post Ex.getEntityId
           (λ _, Ex.fulfils (VRef 2)) (λ _ _ _ _ _, Ex.fulfils ()) (λ _, Ex.fulfils ())
           2 1 2 "id"%string (World Ex.saved ()) r w' t);
    [intros [= ?]; lia| intros ? ?; reflexivity
    | intros ? ? ? ? ? ?; reflexivity| intros ? ?; reflexivity| exact Hrun].
Defined.

Lemma remove_keeps_hasId_when_names_differ_witness :
  ∃ r w' t,
    remove unit unit Ex.blog Ex2.LegacyPost Ex.getEntityId (λ _, Ex.fulfils (VRef 2))
      (λ _ _ _ _ _, Ex.fulfils ()) (λ _, Ex.fulfils ()) 2 (DRef 1) (World Ex.saved ())
    = Some (r, w', t) ∧
    hasId Ex.saved Ex2.LegacyPost (VRef 1) = true ∧
    hasId (w_heap w') Ex2.LegacyPost (VRef 1) = true.
Proof.
  assert (∃ r w' t,
            remove unit unit Ex.blog Ex2.LegacyPost Ex.getEntityId (λ _, Ex.fulfils (VRef 2))
              (λ _ _ _ _ _, Ex.fulfils ()) (λ _, Ex.fulfils ()) 2 (DRef 1)
              (World Ex.saved ()) = Some (r, w', t)) as (r & w' & t & Hrun).
  { eexists _, _, _. vm_compute. reflexivity. }
  exists r, w', t. split; [exact Hrun|].
  assert (hasId Ex.saved Ex2.LegacyPost (VRef 1) = true) as Hid by (vm_compute; reflexivity).
  split; [exact Hid|].
  rewrite (@remove_keeps_hasId_when_names_differ unit unit Ex.blog Ex2.LegacyPost
             Ex.getEntityId (λ _, Ex.fulfils (VRef 2)) (λ _ _ _ _ _, Ex.fulfils ())
             (λ _, Ex.fulfils ()) 2 1 (World Ex.saved ()) r w' t);
    [exact Hid| discriminate| intros ? ?; reflexivity
    | intros ? ? ? ? ? ?; reflexivity| intros ? ?; reflexivity| exact Hrun].
Defined.

Section CollectMore.

Variable h : heap.
Variable reg : registry.

Lemma extending_run_job P l r q st :
extending h l P st → queue st = r :: q →
extending h l P (run_job h r (PState (cells st) q (entityWithIds st))).
Proof.
intros [(added & Hent & Hnd & Hadd) H3] Hq.
pose proof (pending_pop r q st Hq) as Hpop.
split.
- destruct r as [a|e md d]; simpl; rewrite entities_deliver; simpl; [by exists added|].
  destruct (record_entity_entry h e md (entityWithIds st)) as [[-> _]|[-> Hnin]];
    [by exists added|].
  exists (added ++ [entry_of h e md]).
  rewrite Hent, fmap_app in Hnin. apply not_elem_of_app in Hnin as [Hl Ha].
  split; [by rewrite Hent, app_assoc|]. split.
  + rewrite fmap_app. apply NoDup_app. split; [done|]. split; [|apply NoDup_singleton].
    intros v Hv Hv'. simpl in Hv'. apply list_elem_of_singleton in Hv' as ->. done.
  + intros x Hx. apply elem_of_app in Hx as [Hx|Hx]; [by apply Hadd|].
    apply list_elem_of_singleton in Hx as ->. exists e, md.
    split; [|done]. apply (H3 e md d). rewrite Hpop. left.
- intros e md d Hin. rewrite pending_run_job in Hin.
  apply (H3 e md d). rewrite Hpop. by right.
Qed.

Lemma extending_run_jobs P l n : ∀ st, extending h l P st → extending h l P (run_jobs h n st).
Proof.
induction n as [|n IH]; intros st Hc; simpl; [done|].
destruct (queue st) as [|r q] eqn:Hq; [done|].
apply IH. by apply extending_run_job.
Qed.

(** X19. [extractObjectsById] called with an array that already has entries
  returns that array extended at its end: the entries it had stay first,
  unchanged and in order; each added entry is the one of an object
  reachable from the root that was not in the array, added once; and
  every reachable object is in the result. *)
Theorem extractObjectsById_extends_given_array depth e md l res :
extractObjectsById h reg depth e md l = Some res →
∃ added,
  res = l ++ added ∧
  NoDup (ewi_entity <$> added) ∧
  (∀ x, x ∈ added →
     ∃ e' md', reachable h reg e md e' md' ∧ x = entry_of h e' md' ∧
               VDef e' ∉ ewi_entity <$> l) ∧
  (∀ e' md', reachable h reg e md e' md' → VDef e' ∈ ewi_entity <$> res).
Proof.
intros Hres.
destruct (extract_calls h reg depth e md (init l)) as [[p st]|] eqn:Hrun;
  [|by apply extractObjectsById_None in Hrun; congruence].
rewrite (extractObjectsById_returns _ _ _ _ _ _ _ _ Hrun) in Hres. inversion Hres; subst.
destruct (extract_calls_spec h reg depth e md (init l) p st (wf_init l) Hrun)
  as (Hwf & (_ & Hent & _ & Hnew) & Hp & Hcov).
destruct (drain_fulfils h reg depth e md l p st Hrun) as (Hwf' & Hq & _).
assert (extending h l (reachable h reg e md) st) as Hext.
{ split.
  - exists []. rewrite Hent, app_nil_r. split; [done|]. split; [constructor|].
    intros x Hx. by apply elem_of_nil in Hx.
  - intros e' md' d Hin. destruct (Hnew e' md' d Hin) as [Hin'|HP]; [|done].
    unfold pending in Hin'. simpl in Hin'. by apply elem_of_nil in Hin'. }
apply (extending_run_jobs _ _ (backlog st)) in Hext. fold (drain h st) in Hext.
destruct Hext as [(added & E1 & E2 & E3) _].
exists added. split; [done|]. split; [done|]. split; [done|].
intros e' md' Hr. destruct (Hcov e' md' Hr) as [d Hd].
assert (tracked e' (drain h st)) as Ht.
{ apply tracked_run_jobs. left. by exists md', d. }
destruct Ht as [(md1 & d1 & Hin)|Hrec]; [|done].
rewrite (quiescent_pending _ Hwf' Hq) in Hin. by apply elem_of_nil in Hin.
Qed.

(** X20. Whenever some object reachable from the root leads back to itself
  through the relations, [extractObjectsById] does not return, whatever
  depth the call stack allows and whatever the array holds already. *)
Theorem extractObjectsById_cycle_never_returns e md e1 md1 relation1 c1 :
reachable h reg e md e1 md1 →
relation1 ∈ md_relations md1 →
c1 ∈ related_by h e1 relation1 →
reachable h reg c1 (inverseEntityMetadata reg relation1) e1 md1 →
∀ depth l, extractObjectsById h reg depth e md l = None.
Proof.
intros Hr Hrel Hc Hback depth l. apply extractObjectsById_None.
by apply (extract_calls_cycle h reg e1 md1 relation1 c1).
Qed.

End CollectMore.

Lemma extractObjectsById_extends_given_array_witness :
  ∃ added,
    extractObjectsById Ex.twins Ex.blog 3 (DRef 1) Ex.Post Ex2.first_twin
    = Some (Ex2.first_twin ++ added) ∧
    NoDup (ewi_entity <$> added) ∧
    (VRef 3 ∉ ewi_entity <$> added) ∧
    VRef 4 ∈ ewi_entity <$> (Ex2.first_twin ++ added).
Proof.
  assert (∃ res, extractObjectsById Ex.twins Ex.blog 3 (DRef 1) Ex.Post Ex2.first_twin
                 = Some res) as [res Hres].
  { eexists. vm_compute. reflexivity. }
  destruct (extractObjectsById_extends_given_array Ex.twins Ex.blog 3 (DRef 1) Ex.Post
              Ex2.first_twin res Hres) as (added & -> & Hnd & Hnew & Hall).
  exists added. split; [exact Hres|]. split; [exact Hnd|]. split.
  - intros Hin. apply list_elem_of_fmap in Hin as (x & Hx & Hin).
    destruct (Hnew x Hin) as (e' & md' & _ & -> & Hnot). simpl in Hx.
    apply Hnot. rewrite <- Hx. vm_compute. left.
  - apply (Hall (DRef 4) Ex.Category).
    apply (reachable_via _ _ _ _
             (Ex.to_many true "Post" "categories" "Category" "post_categories") (DRef 4)).
    + left.
    + vm_compute. right. left.
    + apply reachable_here.
Defined.

Lemma extractObjectsById_cycle_never_returns_witness :
  extractObjectsById Ex.mutual Ex.linked 1000 (DRef 3) Ex.LinkedCategory [] = None.
Proof.
  refine (extractObjectsById_cycle_never_returns Ex.mutual Ex.linked
            (DRef 3) Ex.LinkedCategory (DRef 1) Ex.LinkedPost
            (Ex.to_many true "Post" "categories" "Category" "post_categories") (DRef 3)
            _ _ _ _ 1000 []).
  - apply (reachable_via _ _ _ _
             (Ex.to_many false "Category" "posts" "Post" "post_categories") (DRef 1)).
    + left.
    + vm_compute. left.
    + apply reachable_here.
  - left.
  - vm_compute. left.
  - change (reachable Ex.mutual Ex.linked (DRef 3) Ex.LinkedCategory (DRef 1) Ex.LinkedPost).
    apply (reachable_via _ _ _ _
             (Ex.to_many false "Category" "posts" "Post" "post_categories") (DRef 1)).
    + left.
    + vm_compute. left.
    + apply reachable_here.
Defined.

Lemma blog_rank_decreases (h : heap) e md relation c :
  relation ∈ md_relations md → c ∈ related_by h e relation →
  Ex2.blog_rank c (inverseEntityMetadata Ex.blog relation) < Ex2.blog_rank e md.
Proof.
  intros Hrel _. unfold inverseEntityMetadata.
  assert (Ex2.blog_rank c (Ex.blog (rel_inverseTarget relation))
          = Ex2.blog_rank_of (rel_inverseTarget relation)) as ->.
  { unfold Ex.blog, Ex2.blog_rank_of. repeat case_bool_decide; try reflexivity. congruence. }
  unfold Ex2.blog_rank. destruct (md_relations md) as [|r0 rs] eqn:E;
    [by apply elem_of_nil in Hrel|].
  apply Nat.lt_succ_r, max_list_elem_of_le.
  by apply (list_elem_of_fmap_2 (λ r, Ex2.blog_rank_of (rel_inverseTarget r))).
Qed.

Lemma extractObjectsById_terminates_witness :
  is_Some (extractObjectsById Ex.diamond Ex.blog 3 (DRef 1) Ex.Post []).
Proof.
  apply (extractObjectsById_terminates Ex.diamond Ex.blog Ex2.blog_rank
           (blog_rank_decreases Ex.diamond) 3 (DRef 1) Ex.Post []).
  vm_compute. lia.
Defined.

Section PersistCalls.

Context {Storage PersistOperation : Type}.
Variable reg : registry.
Variable metadata : EntityMetadata.
Variable getEntityId : EntityMetadata → heap → value → value.
Variable preload : defined → external Storage value.
Variable findOneById : string → value → external Storage value.
Variable buildFullPersistment :
EntityMetadata → EntityWithId → EntityWithId →
list EntityWithId → list EntityWithId → external Storage PersistOperation.
Variable executePersistOperation : PersistOperation → external Storage unit.

Lemma findNotLoadedIds_trace dbEntities persistedEntities w r w' t :
findNotLoadedIds Storage PersistOperation reg findOneById dbEntities persistedEntities w
  = Some (r, w', t) →
t = lookup_calls (filter (needs_lookup dbEntities) persistedEntities).
Proof.
unfold findNotLoadedIds. rewrite findNotLoadedIds_missing. intros Hrun.
destruct (gather_lookups (PersistOperation:=PersistOperation) reg findOneById
            (filter (needs_lookup dbEntities) persistedEntities) w)
  as (r0 & w0 & outs & G1 & _).
apply andThen_Some in Hrun as [(a & w1 & t1 & t2 & H1 & H2 & ->)|(e & H1 & _)].
- rewrite G1 in H1. injection H1 as _ _ <-. injection H2 as _ _ <-.
  by rewrite app_nil_r.
- rewrite G1 in H1. by injection H1 as _ _ <-.
Qed.

Lemma write_tail_not_read (tail : list (call PersistOperation)) :
is_write_tail tail → Forall (λ c, ¬ is_read_call c) tail.
Proof.
intros [->|[(db & pe & adb & ape & ->)|(db & pe & adb & ape & op & ->)]];
  repeat constructor; intros [[? H]|(? & ? & H)]; discriminate.
Qed.

(** X22. The calls of [persist], whatever its outcome: first calls that
  only read ([preload], then the lookups by id), then at most one request
  for a plan, then at most one execution, and nothing after it.  A
  [persist] that stopped before the execution is rejected. *)
Theorem persist_reads_then_builds_then_executes depth entity w r w' t :
persist Storage PersistOperation reg metadata getEntityId preload findOneById
  buildFullPersistment executePersistOperation depth entity w = Some (r, w', t) →
∃ reads tail,
  t = reads ++ tail ∧ Forall is_read_call reads ∧ is_write_tail tail ∧
  ((∀ operation, CallExecutePersistOperation operation ∉ tail) → ∃ e, r = Rejected e).
Proof.
intros Hrun. unfold persist in Hrun.
apply andThen_collect in Hrun as (allPersistedEntities & _ & Hrun).
apply andThen_read_heap in Hrun.
apply andThen_Some in Hrun as [(loaded & w1 & t1 & t2 & H1 & Hrun & ->)|(e & H1 & ->)].
2:{ exists t, []. rewrite app_nil_r. split; [done|]. split; [|split; [by left|by eauto]].
    destruct (hasId (w_heap w) metadata (VDef entity)).
    - apply invoke_Some in H1 as [_ ->]. constructor; [|constructor]. left. by eexists.
    - done. }
assert (Forall is_read_call t1) as Ht1.
{ destruct (hasId (w_heap w) metadata (VDef entity)).
  - apply invoke_Some in H1 as [_ ->]. constructor; [|constructor]. left. by eexists.
  - injection H1 as _ _ <-. constructor. }
apply andThen_Some in Hrun as [(entityWithIds & w2 & t3 & t4 & H2 & Hrun & ->)|(e & H2 & ->)].
2:{ destruct loaded as [| |d]; try done.
    destruct (truthy (VDef d)); [|done].
    by apply collect_Some in H2 as (_ & _ & l & ? & _). }
assert (t3 = []) as ->.
{ destruct loaded as [| |d]; try (by injection H2 as _ _ <-).
  destruct (truthy (VDef d)); [|by injection H2 as _ _ <-].
  by apply collect_Some in H2 as (_ & -> & _). }
simpl in *.
apply andThen_Some in Hrun as [(allDbEntities & w3 & t5 & t6 & H3 & Hrun & ->)|(e & H3 & ->)].
2:{ exists (t1 ++ t4), []. rewrite app_nil_r. split; [done|].
    split; [|split; [by left|by eauto]]. apply Forall_app. split; [done|].
    eapply (emits_findNotLoadedIds reg findOneById); [|exact H3].
    intros target id. right. by eexists _, _. }
assert (Forall is_read_call t5) as Ht5.
{ eapply (emits_findNotLoadedIds reg findOneById); [|exact H3].
  intros target id. right. by eexists _, _. }
apply andThen_read_heap in Hrun.
exists (t1 ++ t5).
apply andThen_Some in Hrun as [(operation & w4 & t7 & t8 & H4 & Hrun & ->)|(e & H4 & ->)].
2:{ apply invoke_Some in H4 as [_ ->]. eexists.
    split; [rewrite <- app_assoc; reflexivity|].
    split; [by apply Forall_app|]. split; [right; left; by eexists _, _, _, _|by eauto]. }
apply invoke_Some in H4 as [_ ->].
assert (∃ operation', t8 = [CallExecutePersistOperation operation']) as [op' ->].
{ apply andThen_Some in Hrun as [([] & w5 & t9 & t10 & H5 & Hrun & ->)|(e & H5 & ->)].
  - apply invoke_Some in H5 as [_ ->]. injection Hrun as _ _ <-. by eexists.
  - apply invoke_Some in H5 as [_ ->]. by eexists. }
eexists. split; [rewrite <- app_assoc; reflexivity|]. split; [by apply Forall_app|].
split; [right; right; by eexists _, _, _, _, _|].
intros Hno. exfalso. apply (Hno op'). simpl. right. left.
Qed.

(** X23. [persist] of an entity without an id makes its calls in this
  order: one lookup by id for every collected entity that carries an
  identity, in the order of the collection (so twice for two objects of
  one row), and after these lookups no call that reads. *)
Theorem persist_new_entity_looks_up_collected_ids depth entity w r w' t :
hasId (w_heap w) metadata (VDef entity) = false →
persist Storage PersistOperation reg metadata getEntityId preload findOneById
  buildFullPersistment executePersistOperation depth entity w = Some (r, w', t) →
∃ allPersistedEntities rest,
  extractObjectsById (w_heap w) reg depth entity metadata [] = Some allPersistedEntities ∧
  t = lookup_calls (filter (needs_lookup []) allPersistedEntities) ++ rest ∧
  Forall (λ c, ¬ is_read_call c) rest.
Proof.
intros Hno Hrun. unfold persist in Hrun.
apply andThen_collect in Hrun as (allPersistedEntities & Hcollect & Hrun).
apply andThen_read_heap in Hrun. rewrite Hno in Hrun.
apply andThen_resolve in Hrun. apply andThen_resolve in Hrun.
exists allPersistedEntities.
apply andThen_Some in Hrun as [(allDbEntities & w3 & t5 & t6 & H3 & Hrun & ->)|(e & H3 & ->)].
2:{ exists []. rewrite app_nil_r. split; [done|]. split; [|constructor].
    by apply findNotLoadedIds_trace in H3. }
apply findNotLoadedIds_trace in H3 as ->. exists t6. split; [done|]. split; [done|].
apply andThen_read_heap in Hrun. apply write_tail_not_read.
apply andThen_Some in Hrun as [(operation & w4 & t7 & t8 & H4 & Hrun & ->)|(e & H4 & ->)].
2:{ apply invoke_Some in H4 as [_ ->]. right; left; by eexists _, _, _, _. }
apply invoke_Some in H4 as [_ ->]. right. right.
apply andThen_Some in Hrun as [([] & w5 & t9 & t10 & H5 & Hrun & ->)|(e & H5 & ->)].
- apply invoke_Some in H5 as [_ ->]. injection Hrun as _ _ <-. by eexists _, _, _, _, _.
- apply invoke_Some in H5 as [_ ->]. by eexists _, _, _, _, _.
Qed.

End PersistCalls.

Lemma persist_reads_then_builds_then_executes_witness :
  ∃ r w' t,
    persist unit unit Ex.blog Ex.Post Ex.getEntityId
      (λ _, Ex.fulfils (VRef 2)) (λ _ _, Ex.fulfils VNull)
      (λ _ _ _ _ _, Ex.rejects Ex.insert_failed) (λ _, Ex.fulfils ())
      2 (DRef 1) (World Ex.saved ()) = Some (r, w', t) ∧
    r = Rejected Ex.insert_failed ∧
    ∃ reads tail, t = reads ++ tail ∧ Forall is_read_call reads ∧ is_write_tail tail.
Proof.
  assert (∃ w' t,
            persist unit unit Ex.blog Ex.Post Ex.getEntityId
              (λ _, Ex.fulfils (VRef 2)) (λ _ _, Ex.fulfils VNull)
              (λ _ _ _ _ _, Ex.rejects Ex.insert_failed) (λ _, Ex.fulfils ())
              2 (DRef 1) (World Ex.saved ()) = Some (Rejected Ex.insert_failed, w', t))
    as (w' & t & Hrun).
  { eexists _, _. vm_compute. reflexivity. }
  exists (Rejected Ex.insert_failed), w', t. split; [exact Hrun|]. split; [reflexivity|].
  destruct (@persist_reads_then_builds_then_executes unit unit Ex.blog Ex.Post Ex.getEntityId
              (λ _, Ex.fulfils (VRef 2)) (λ _ _, Ex.fulfils VNull)
              (λ _ _ _ _ _, Ex.rejects Ex.insert_failed) (λ _, Ex.fulfils ())
              2 (DRef 1) (World Ex.saved ()) _ w' t Hrun)
    as (reads & tail & H1 & H2 & H3 & _).
  exists reads, tail. split; [exact H1|]. split; [exact H2|exact H3].
Defined.

Lemma persist_new_entity_looks_up_collected_ids_witness :
  hasId Ex.twins Ex.Post (VRef 1) = false ∧
  ∃ r w' t rest,
    Ex.persist_plain Ex.twins 3 (DRef 1) = Some (r, w', t) ∧
    t = [CallFindOneById "Category" (VNum 1); CallFindOneById "Category" (VNum 1)] ++ rest ∧
    Forall (λ c, ¬ is_read_call c) rest.
Proof.
  assert (hasId Ex.twins Ex.Post (VRef 1) = false) as Hno by (vm_compute; reflexivity).
  split; [exact Hno|].
  assert (∃ r w' t, Ex.persist_plain Ex.twins 3 (DRef 1) = Some (r, w', t))
    as (r & w' & t & Hrun).
  { eexists _, _, _. vm_compute. reflexivity. }
  destruct (@persist_new_entity_looks_up_collected_ids unit unit Ex.blog Ex.Post
              Ex.getEntityId (λ _, Ex.fulfils VNull) (λ _ _, Ex.fulfils VNull)
              (λ _ _ _ _ _, Ex.fulfils ()) (λ _, Ex.fulfils ())
              3 (DRef 1) (World Ex.twins ()) r w' t Hno Hrun)
    as (allPersistedEntities & rest & Hall & Ht & Hrest).
  exists r, w', t, rest. split; [exact Hrun|]. split; [|exact Hrest].
  assert (allPersistedEntities = Ex.twins_collected) as ->.
  { vm_compute in Hall. by injection Hall. }
  rewrite Ht. f_equal.
Defined.

(** ** [createFindQueryBuilder] *)

Section FindProofs.

Variable FindOptions : Type.
Variable alias_of : FindOptions → string.
Variable metadata : EntityMetadata.

Lemma query_text_conditions (alias : string) (c : list (string * value)) :
filter (λ x, binds_values FindOptions x = false)
  (map (λ kv, QAndWhere FindOptions (qualified alias kv.1 +:+ "=:" +:+ kv.1)) c)
= map (λ key, QAndWhere FindOptions (qualified alias key +:+ "=:" +:+ key)) c.*1.
Proof.
induction c as [|kv c IH]; [done|].
simpl. rewrite filter_cons_True by done. by rewrite IH.
Qed.

Lemma query_bindings_conditions (alias : string) (c : list (string * value)) :
filter (λ x, binds_values FindOptions x = true)
  (map (λ kv, QAndWhere FindOptions (qualified alias kv.1 +:+ "=:" +:+ kv.1)) c) = [].
Proof.
induction c as [|kv c IH]; [done|].
simpl. by rewrite filter_cons_False.
Qed.

(** X24. [createFindQueryBuilder] puts no value of the conditions into the
  text of the query: two condition objects with the same keys in the same
  order give the same calls apart from the one that binds the parameters,
  and that one call hands over the condition object as it was given. *)
Theorem createFindQueryBuilder_binds_values (c c' : list (string * value))
  (options : option FindOptions) :
c.*1 = c'.*1 →
query_text FindOptions
  (createFindQueryBuilder FindOptions alias_of metadata (Some (Conditions FindOptions c))
     options)
= query_text FindOptions
    (createFindQueryBuilder FindOptions alias_of metadata (Some (Conditions FindOptions c'))
       options) ∧
query_bindings FindOptions
  (createFindQueryBuilder FindOptions alias_of metadata (Some (Conditions FindOptions c))
     options)
= [QAddParameters FindOptions c].
Proof.
intros Hkeys. unfold createFindQueryBuilder, createQueryBuilder. split.
- unfold query_text. rewrite !filter_app, !query_text_conditions, Hkeys.
  by destruct options.
- unfold query_bindings. rewrite !filter_app, query_bindings_conditions.
  by destruct options.
Qed.

End FindProofs.

Lemma createFindQueryBuilder_binds_values_witness :
  query_text unit
    (createFindQueryBuilder unit (λ _, "p"%string) Ex.Post
       (Some (Conditions unit [("title"%string, VStr "hello"); ("author.id"%string, VNum 1)]))
       None)
  = [QSelect unit "Post"; QFrom unit "Post" "Post";
     QAndWhere unit "Post.title=:title"; QAndWhere unit "author.id=:author.id"] ∧
  query_text unit
    (createFindQueryBuilder unit (λ _, "p"%string) Ex.Post
       (Some (Conditions unit [("title"%string, VStr "x' OR 1=1"); ("author.id"%string, VNull)]))
       None)
  = [QSelect unit "Post"; QFrom unit "Post" "Post";
     QAndWhere unit "Post.title=:title"; QAndWhere unit "author.id=:author.id"].
Proof.
  destruct (createFindQueryBuilder_binds_values unit (λ _, "p"%string) Ex.Post
              [("title"%string, VStr "hello"); ("author.id"%string, VNum 1)]
              [("title"%string, VStr "x' OR 1=1"); ("author.id"%string, VNull)]
              None eq_refl) as [Htext _].
  split; [vm_compute; reflexivity|]. rewrite <- Htext. vm_compute. reflexivity.
Defined.
